(** * OpenPipe: the completion retry task and the node cache propagation

    A shallow embedding of
    - [src/server/tasks/queryModel.task.ts] (the [queryModel] task and
      [calculateDelay]),
    - the [updateCached] helper of the node processing pipeline, and
    - [llmRelabelProperties] ([beforeProcessing], [processEntry]),
    together with the properties the specification states about them.

    Database tables are finite maps or lists of records, every [await]ed
    Prisma/Kysely call is a step of a small state-and-exception monad, and
    the external collaborators (model provider, prompt construction, clock,
    random source) are oracles handed to the task.  JavaScript numbers are
    binary64 values: the finite ones are rationals, and each arithmetic
    operation rounds its exact result to the nearest of them. *)

From Stdlib Require Import ZArith QArith Qminmax Qpower Qround Qabs Lia Lqa Bool.
From stdpp Require Import gmap strings list fin_maps.

Local Open Scope string_scope.

(** ** JavaScript numbers *)

Module JsNumber.

(** The integer nearest to [q], a tie going to the even one. *)
Definition roundHalfEven (q : Q) : Z :=
  let f := Qfloor q in
  match Qcompare (q - inject_Z f) (1 # 2) with
  | Lt => f
  | Gt => (f + 1)%Z
  | Eq => if Z.even f then f else (f + 1)%Z
  end.

(** For [x > 0], the exponent [e] with [2^e <= x < 2^(e+1)]. *)
Definition floorLog2 (x : Q) : Z :=
  let e := (Z.log2 (Qnum x) - Z.log2 (Z.pos (Qden x)))%Z in
  if Qle_bool (2 ^ e) x then e else (e - 1)%Z.

(** The distance between neighbouring doubles around [x > 0]: 52 bits
    below the exponent of [x], and [2^-1074] throughout the subnormal
    range. *)
Definition ulp (x : Q) : Q := (2 ^ (Z.max (floorLog2 x) (-1022) - 52))%Q.

Definition roundPositive (x : Q) : Q :=
  (inject_Z (roundHalfEven (x / ulp x)) * ulp x)%Q.

(** The double nearest to [x], ties to the even significand.  A result
    beyond the largest finite double is left as it is instead of becoming
    [Infinity]: the one operation of the embedded code that can overflow
    is [Math.pow(2, n)] from [n = 1024] on, and its result only goes
    through a product with [MIN_DELAY] and [Math.min(MAX_DELAY, _)], which
    is [MAX_DELAY] for [Infinity] as for any number above it. *)
Definition roundDouble (x : Q) : Q :=
  match Qcompare x 0 with
  | Eq => 0%Q
  | Gt => roundPositive x
  | Lt => (- roundPositive (- x))%Q
  end.

(** [x + y], [x * y] and [Math.pow(x, n)] on numbers. *)
Definition add (x y : Q) : Q := roundDouble (x + y).
Definition mul (x y : Q) : Q := roundDouble (x * y).
Definition pow (x : Q) (n : nat) : Q := roundDouble (x ^ Z.of_nat n).

End JsNumber.

(** ** queryModel.task.ts *)

Module QueryModelTask.

(** *** Data model *)

Inductive CellRetrievalStatus := PENDING | IN_PROGRESS | COMPLETE | ERROR.

Definition CellRetrievalStatus_eqb (a b : CellRetrievalStatus) : bool :=
  match a, b with
  | PENDING, PENDING | IN_PROGRESS, IN_PROGRESS
  | COMPLETE, COMPLETE | ERROR, ERROR => true
  | _, _ => false
  end.

(** A [Date] is its number of milliseconds since the epoch. *)
Definition Date := Z.

(** Modelled from the spec: the Prisma schema is not among the sources.
    A [ScenarioVariantCell] row has the fields the specification lists and
    the task reads; its [id] is the key of the table. *)
Record ScenarioVariantCell := {
  retrievalStatus : CellRetrievalStatus;
  statusCode : option Z;
  errorMessage : option string;
  retryTime : option Date;
  promptVariantId : string;
  testScenarioId : string;
}.

Record PromptVariant := {
  constructFn : string;
  experimentId : string;
}.

Record TestScenario := {
  variableValues : string;
}.

Record ModelOutput := {
  scenarioVariantCellId : string;
  inputHash : string;
  output : string;
  timeToComplete : Z;
  promptTokens : option Z;
  completionTokens : option Z;
  cost : option Q;
}.

Record QueryModelJob := {
  cellId : string;
  stream : bool;
}.

(** What [parseConstructFn] resolves to when it does not report an error. *)
Record ParsedPrompt := {
  modelProvider : string;
  modelInput : string;
}.

(** The two shapes of a provider's answer. *)
Inductive CompletionResponse :=
| success (value : string) (timeToComplete : Z)
          (promptTokens completionTokens : option Z) (cost : option Q)
          (statusCode : Z)
| error (message : string) (statusCode : Z) (autoRetry : bool).

(** The external collaborators of the task.  [getCompletion] is indexed by
    the number of calls already made by this run, so a provider may answer
    differently from one attempt to the next; it also yields the partial
    outputs it hands to [onStream] when a callback is given.  [mathRandom]
    and [dateNow] are indexed by the loop counter of the iteration that
    reads them; a clock reading is a whole number of milliseconds, far
    below [2^53], and so a double as it stands. *)
Record Collaborators := {
  parseConstructFn : string -> string -> string + ParsedPrompt;
  getCompletion : string -> string -> nat -> list string * CompletionResponse;
  hashPrompt : ParsedPrompt -> string;
  mathRandom : nat -> Q;
  dateNow : nat -> Z;
}.

(** The [data] argument of [prisma.scenarioVariantCell.update]: a field
    that is [None] is absent from the object and is not written. *)
Record CellUpdateData := {
  set_statusCode : option (option Z);
  set_errorMessage : option (option string);
  set_retryTime : option (option Date);
  set_retrievalStatus : option CellRetrievalStatus;
}.

Definition applyUpdate (d : CellUpdateData) (c : ScenarioVariantCell)
  : ScenarioVariantCell :=
  {| retrievalStatus := default (retrievalStatus c) (set_retrievalStatus d);
     statusCode := default (statusCode c) (set_statusCode d);
     errorMessage := default (errorMessage c) (set_errorMessage d);
     retryTime := default (retryTime c) (set_retryTime d);
     promptVariantId := promptVariantId c;
     testScenarioId := testScenarioId c |}.

(** Everything the task does that is visible outside of it, in order. *)
Inductive Event :=
| ProviderCall (provider input : string) (streaming : bool)
| WsEmit (channel payload : string)
| CellUpdate (cellId : string) (data : CellUpdateData)
| ModelOutputCreate (mo : ModelOutput)
| RunEvals (experimentId : string) (scenario : TestScenario) (mo : ModelOutput)
| Sleep (ms : Q).

Record World := {
  cells : gmap string ScenarioVariantCell;
  promptVariants : gmap string PromptVariant;
  testScenarios : gmap string TestScenario;
  modelOutputs : list ModelOutput;
  trace : list Event;
}.

(** *** The task monad: state, exceptions and fuel for the open loop *)

Inductive Exn := RecordNotFound (table key : string).

Inductive Outcome (A : Type) :=
| Returned (a : A)
| Thrown (e : Exn)
| OutOfFuel.
Arguments Returned {A} a.
Arguments Thrown {A} e.
Arguments OutOfFuel {A}.

Definition Task (A : Type) := World -> World * Outcome A.

Definition ret {A} (a : A) : Task A := fun w => (w, Returned a).

Definition bind {A B} (m : Task A) (k : A -> Task B) : Task B :=
  fun w =>
    match m w with
    | (w', Returned a) => k a w'
    | (w', Thrown e) => (w', Thrown e)
    | (w', OutOfFuel) => (w', OutOfFuel)
    end.

Declare Scope task_scope.
Delimit Scope task_scope with task.
Notation "x <- m ;; k" := (bind m (fun x => k))
  (at level 100, m at next level, right associativity) : task_scope.
Notation "m ;; k" := (bind m (fun _ => k))
  (at level 100, right associativity) : task_scope.
Local Open Scope task_scope.

Definition throw {A} (e : Exn) : Task A := fun w => (w, Thrown e).
Definition outOfFuel {A} : Task A := fun w => (w, OutOfFuel).

Definition emit (e : Event) : Task unit :=
  fun w =>
    ({| cells := cells w; promptVariants := promptVariants w;
        testScenarios := testScenarios w; modelOutputs := modelOutputs w;
        trace := trace w ++ [e] |}, Returned tt).

Definition setCells (m : gmap string ScenarioVariantCell) : Task unit :=
  fun w =>
    ({| cells := m; promptVariants := promptVariants w;
        testScenarios := testScenarios w; modelOutputs := modelOutputs w;
        trace := trace w |}, Returned tt).

(** [prisma.scenarioVariantCell.findUnique({ where: { id } })] *)
Definition findUniqueCell (id : string) : Task (option ScenarioVariantCell) :=
  fun w => (w, Returned (cells w !! id)).

(** [prisma.promptVariant.findUnique] *)
Definition findUniqueVariant (id : string) : Task (option PromptVariant) :=
  fun w => (w, Returned (promptVariants w !! id)).

(** [prisma.testScenario.findUnique] *)
Definition findUniqueScenario (id : string) : Task (option TestScenario) :=
  fun w => (w, Returned (testScenarios w !! id)).

(** [prisma.scenarioVariantCell.update({ where: { id }, data })]: Prisma
    rejects with "record to update not found" when no row has this id. *)
Definition updateCell (id : string) (d : CellUpdateData) : Task unit :=
  emit (CellUpdate id d) ;;
  fun w =>
    match cells w !! id with
    | None => throw (RecordNotFound "ScenarioVariantCell" id) w
    | Some c => setCells (<[id := applyUpdate d c]> (cells w)) w
    end.

(** [prisma.modelOutput.create({ data })] *)
Definition createModelOutput (mo : ModelOutput) : Task ModelOutput :=
  emit (ModelOutputCreate mo) ;;
  fun w =>
    ({| cells := cells w; promptVariants := promptVariants w;
        testScenarios := testScenarios w;
        modelOutputs := modelOutputs w ++ [mo];
        trace := trace w |}, Returned mo).

Fixpoint emitAll (channel : string) (payloads : list string) : Task unit :=
  match payloads with
  | [] => ret tt
  | p :: ps => emit (WsEmit channel p) ;; emitAll channel ps
  end.

(** *** Retry policy *)

Definition MAX_AUTO_RETRIES : nat := 10.
Definition MIN_DELAY : Q := 500%Q.
Definition MAX_DELAY : Q := 15000%Q.

(** [calculateDelay]; [random] is the value [Math.random()] returns in
    this call.  The product with the power of two, the product with the
    random sample and the final sum are each rounded to a double;
    [Math.min] selects one of its arguments and rounds nothing. *)
Definition calculateDelay (random : Q) (numPreviousTries : nat) : Q :=
  let baseDelay :=
    Qmin MAX_DELAY (JsNumber.mul MIN_DELAY (JsNumber.pow 2 numPreviousTries)) in
  let jitter := JsNumber.mul random baseDelay in
  JsNumber.add baseDelay jitter.

(** [new Date(ms)]: the time value is truncated to whole milliseconds
    (times beyond the range of [Date] do not arise from a clock reading
    plus a delay of at most 30 seconds). *)
Definition newDate (ms : Q) : Date := Z.quot (Qnum ms) (Z.pos (Qden ms)).

(** *** The task *)

Section Task.

Context (env : Collaborators).

(** [provider.getCompletion(prompt.modelInput, onStream)] as attempt
    number [i] of this run; with streaming requested every partial output
    goes to the cell's channel. *)
Definition callProvider (task : QueryModelJob) (prompt : ParsedPrompt) (i : nat)
  : Task CompletionResponse :=
  emit (ProviderCall (modelProvider prompt) (modelInput prompt) (stream task)) ;;
  let '(partials, response) :=
    getCompletion env (modelProvider prompt) (modelInput prompt) i in
  (if stream task then emitAll (cellId task) partials else ret tt) ;;
  ret response.

(** The body of [for (let i = 0; true; i++)], from iteration [i] on. *)
Fixpoint attemptLoop (fuel : nat) (task : QueryModelJob)
    (variant : PromptVariant) (scenario : TestScenario)
    (prompt : ParsedPrompt) (i : nat) : Task unit :=
  match fuel with
  | O => outOfFuel
  | S fuel' =>
    response <- callProvider task prompt i ;;
    match response with
    | success value ttc ptoks ctoks cst code =>
      let inputHash := hashPrompt env prompt in
      modelOutput <- createModelOutput
        {| scenarioVariantCellId := cellId task;
           inputHash := inputHash;
           output := value;
           timeToComplete := ttc;
           promptTokens := ptoks;
           completionTokens := ctoks;
           cost := cst |} ;;
      updateCell (cellId task)
        {| set_statusCode := Some (Some code);
           set_errorMessage := None;
           set_retryTime := None;
           set_retrievalStatus := Some COMPLETE |} ;;
      emit (RunEvals (experimentId variant) scenario modelOutput)
    | error message code autoRetry =>
      let shouldRetry := autoRetry && (i <? MAX_AUTO_RETRIES)%nat in
      let delay := calculateDelay (mathRandom env i) i in
      updateCell (cellId task)
        {| set_statusCode := Some (Some code);
           set_errorMessage := Some (Some message);
           set_retryTime :=
             Some (if shouldRetry
                   then Some (newDate (JsNumber.add (inject_Z (dateNow env i)) delay))
                   else None);
           set_retrievalStatus := Some ERROR |} ;;
      if shouldRetry
      then emit (Sleep delay) ;; attemptLoop fuel' task variant scenario prompt (S i)
      else ret tt
    end
  end.

(** The [data] of the updates on the not-found and validation paths. *)
Definition terminalError (code : Z) (message : string) : CellUpdateData :=
  {| set_statusCode := Some (Some code);
     set_errorMessage := Some (Some message);
     set_retryTime := None;
     set_retrievalStatus := Some ERROR |}.

(** The handler given to [defineTask]. *)
Definition queryModel (fuel : nat) (task : QueryModelJob) : Task unit :=
  cell <- findUniqueCell (cellId task) ;;
  match cell with
  | None => updateCell (cellId task) (terminalError 404 "Cell not found")
  | Some cell =>
    (* If cell is not pending, then some other job is already processing it *)
    if negb (CellRetrievalStatus_eqb (retrievalStatus cell) PENDING) then ret tt
    else
      updateCell (cellId task)
        {| set_statusCode := None; set_errorMessage := None;
           set_retryTime := None; set_retrievalStatus := Some IN_PROGRESS |} ;;
      variant <- findUniqueVariant (promptVariantId cell) ;;
      match variant with
      | None =>
        updateCell (cellId task) (terminalError 404 "Prompt Variant not found")
      | Some variant =>
        scenario <- findUniqueScenario (testScenarioId cell) ;;
        match scenario with
        | None =>
          updateCell (cellId task) (terminalError 404 "Scenario not found")
        | Some scenario =>
          match parseConstructFn env (constructFn variant)
                                     (variableValues scenario) with
          | inl err => updateCell (cellId task) (terminalError 400 err)
          | inr prompt => attemptLoop fuel task variant scenario prompt 0
          end
        end
      end
  end.

End Task.

(** *** Observations on a run *)

Definition isProviderCall (e : Event) : bool :=
  match e with ProviderCall _ _ _ => true | _ => false end.

(** How many times the provider was called. *)
Definition providerCalls (tr : list Event) : nat :=
  length (List.filter isProviderCall tr).

(** The [data] of the updates issued for cell [id], in order. *)
Definition cellWrites (id : string) (tr : list Event) : list CellUpdateData :=
  flat_map (fun e => match e with
                     | CellUpdate id' d => if String.eqb id' id then [d] else []
                     | _ => []
                     end) tr.

(** The values written to [retrievalStatus] of cell [id], in order. *)
Definition statusWrites (id : string) (tr : list Event) : list CellRetrievalStatus :=
  omap set_retrievalStatus (cellWrites id tr).

(** Cell [id] after the updates of a trace, starting from [c]. *)
Definition cellAfter (id : string) (c : ScenarioVariantCell) (tr : list Event)
  : ScenarioVariantCell :=
  fold_left (fun c d => applyUpdate d c) (cellWrites id tr) c.

(** Cell [id] as each provider call of the trace finds it. *)
Fixpoint cellAtCalls (id : string) (c : ScenarioVariantCell) (tr : list Event)
  : list ScenarioVariantCell :=
  match tr with
  | [] => []
  | ProviderCall _ _ _ :: tr' => c :: cellAtCalls id c tr'
  | CellUpdate id' d :: tr' =>
    cellAtCalls id (if String.eqb id' id then applyUpdate d c else c) tr'
  | _ :: tr' => cellAtCalls id c tr'
  end.

(** The answer of the provider to attempt [i]. *)
Definition response (env : Collaborators) (prompt : ParsedPrompt) (i : nat)
  : CompletionResponse :=
  snd (getCompletion env (modelProvider prompt) (modelInput prompt) i).

(** A world that differs from [w] in one cell, new model outputs and new
    trace events. *)
Definition stepWorld (w : World) (id : string) (c : ScenarioVariantCell)
    (mos : list ModelOutput) (es : list Event) : World :=
  {| cells := <[id := c]> (cells w);
     promptVariants := promptVariants w;
     testScenarios := testScenarios w;
     modelOutputs := modelOutputs w ++ mos;
     trace := trace w ++ es |}.

(** The events of one provider call. *)
Definition callEvents (env : Collaborators) (task : QueryModelJob)
    (prompt : ParsedPrompt) (i : nat) : list Event :=
  ProviderCall (modelProvider prompt) (modelInput prompt) (stream task)
  :: (if stream task
      then map (WsEmit (cellId task))
             (fst (getCompletion env (modelProvider prompt) (modelInput prompt) i))
      else []).

(** The update written after a failed attempt [i]. *)
Definition failureUpdate (env : Collaborators) (i : nat) (message : string)
    (code : Z) (autoRetry : bool) : CellUpdateData :=
  {| set_statusCode := Some (Some code);
     set_errorMessage := Some (Some message);
     set_retryTime :=
       Some (if autoRetry && (i <? MAX_AUTO_RETRIES)%nat
             then Some (newDate (JsNumber.add (inject_Z (dateNow env i))
                                   (calculateDelay (mathRandom env i) i)))
             else None);
     set_retrievalStatus := Some ERROR |}.

(** The update that marks the pickup of a pending cell. *)
Definition inProgressUpdate : CellUpdateData :=
  {| set_statusCode := None; set_errorMessage := None;
     set_retryTime := None; set_retrievalStatus := Some IN_PROGRESS |}.

(** The update written after a successful attempt. *)
Definition completeUpdate (code : Z) : CellUpdateData :=
  {| set_statusCode := Some (Some code); set_errorMessage := None;
     set_retryTime := None; set_retrievalStatus := Some COMPLETE |}.

(** The [ModelOutput] created from a successful answer. *)
Definition outputOf (env : Collaborators) (task : QueryModelJob)
    (prompt : ParsedPrompt) (value : string) (ttc : Z) (pt ct : option Z)
    (cst : option Q) : ModelOutput :=
  {| scenarioVariantCellId := cellId task; inputHash := hashPrompt env prompt;
     output := value; timeToComplete := ttc; promptTokens := pt;
     completionTokens := ct; cost := cst |}.

(** The events from a failed attempt to the next one. *)
Definition retrySegment (env : Collaborators) (task : QueryModelJob)
    (prompt : ParsedPrompt) (i : nat) (d : CellUpdateData) (delay : Q)
  : list Event :=
  callEvents env task prompt i ++ [CellUpdate (cellId task) d; Sleep delay].

(** The events of iteration [i] when its attempt fails with [message]
    and [code] and a retry follows: the call with its partial outputs, the
    update that records the failure and schedules the retry, the sleep. *)
Definition retryRound (env : Collaborators) (task : QueryModelJob)
    (prompt : ParsedPrompt) (i : nat) (message : string) (code : Z)
  : list Event :=
  callEvents env task prompt i
  ++ [CellUpdate (cellId task)
        {| set_statusCode := Some (Some code);
           set_errorMessage := Some (Some message);
           set_retryTime :=
             Some (Some (newDate (JsNumber.add (inject_Z (dateNow env i))
                                    (calculateDelay (mathRandom env i) i))));
           set_retrievalStatus := Some ERROR |};
      Sleep (calculateDelay (mathRandom env i) i)].

(** The events of iteration [i] when it ends the loop: after a success
    the model output, the update and the evaluations, after a failure
    that is not retried the update alone. *)
Definition lastRound (env : Collaborators) (task : QueryModelJob)
    (variant : PromptVariant) (scenario : TestScenario)
    (prompt : ParsedPrompt) (i : nat) : list Event :=
  callEvents env task prompt i
  ++ match response env prompt i with
     | success value ttc pt ct cst code =>
       [ModelOutputCreate (outputOf env task prompt value ttc pt ct cst);
        CellUpdate (cellId task) (completeUpdate code);
        RunEvals (experimentId variant) scenario
          (outputOf env task prompt value ttc pt ct cst)]
     | error message code _ =>
       [CellUpdate (cellId task)
          {| set_statusCode := Some (Some code);
             set_errorMessage := Some (Some message);
             set_retryTime := Some None;
             set_retrievalStatus := Some ERROR |}]
     end.

(** The update [queueQueryModel] issues when a cell is queued (again). *)
Definition queuedUpdate : CellUpdateData :=
  {| set_statusCode := None; set_errorMessage := Some None;
     set_retryTime := None; set_retrievalStatus := Some PENDING |}.

(** The cell is picked up pending, its variant and scenario exist and the
    prompt is constructed: the run reaches the provider named by [prompt]. *)
Definition ReachesProvider (env : Collaborators) (task : QueryModelJob) (w : World)
    (cell : ScenarioVariantCell) (variant : PromptVariant)
    (scenario : TestScenario) (prompt : ParsedPrompt) : Prop :=
  cells w !! cellId task = Some cell
  /\ retrievalStatus cell = PENDING
  /\ promptVariants w !! promptVariantId cell = Some variant
  /\ testScenarios w !! testScenarioId cell = Some scenario
  /\ parseConstructFn env (constructFn variant) (variableValues scenario)
     = inr prompt.

(** The four ways the task ends in a not-found or validation error, with
    the status code and the message it records. *)
Inductive TerminalPath (env : Collaborators) (task : QueryModelJob) (w : World)
  : Z -> string -> Prop :=
| CellMissing :
    cells w !! cellId task = None ->
    TerminalPath env task w 404 "Cell not found"
| VariantMissing cell :
    cells w !! cellId task = Some cell ->
    retrievalStatus cell = PENDING ->
    promptVariants w !! promptVariantId cell = None ->
    TerminalPath env task w 404 "Prompt Variant not found"
| ScenarioMissing cell variant :
    cells w !! cellId task = Some cell ->
    retrievalStatus cell = PENDING ->
    promptVariants w !! promptVariantId cell = Some variant ->
    testScenarios w !! testScenarioId cell = None ->
    TerminalPath env task w 404 "Scenario not found"
| PromptInvalid cell variant scenario err :
    cells w !! cellId task = Some cell ->
    retrievalStatus cell = PENDING ->
    promptVariants w !! promptVariantId cell = Some variant ->
    testScenarios w !! testScenarioId cell = Some scenario ->
    parseConstructFn env (constructFn variant) (variableValues scenario)
    = inl err ->
    TerminalPath env task w 400 err.

(** *** Sample data *)

Module Sample.

Definition cell (s : CellRetrievalStatus) (rt : option Date) : ScenarioVariantCell :=
  {| retrievalStatus := s; statusCode := None; errorMessage := None;
     retryTime := rt; promptVariantId := "variant-1";
     testScenarioId := "scenario-1" |}.

Definition variant : PromptVariant :=
  {| constructFn := "definePrompt(...)"; experimentId := "experiment-1" |}.

Definition scenario : TestScenario := {| variableValues := "{}" |}.

Definition prompt : ParsedPrompt :=
  {| modelProvider := "openai/ChatCompletion"; modelInput := "{}" |}.

Definition world (c : ScenarioVariantCell) : World :=
  {| cells := {[ "cell-1" := c ]};
     promptVariants := {[ "variant-1" := variant ]};
     testScenarios := {[ "scenario-1" := scenario ]};
     modelOutputs := [];
     trace := [] |}.

(** The same database after the prompt variant has been deleted. *)
Definition worldWithoutVariant (c : ScenarioVariantCell) : World :=
  {| cells := {[ "cell-1" := c ]};
     promptVariants := ∅;
     testScenarios := {[ "scenario-1" := scenario ]};
     modelOutputs := [];
     trace := [] |}.

(** Deleting every prompt variant of a database. *)
Definition dropVariants (w : World) : World :=
  {| cells := cells w; promptVariants := ∅; testScenarios := testScenarios w;
     modelOutputs := modelOutputs w; trace := trace w |}.

Definition job : QueryModelJob := {| cellId := "cell-1"; stream := true |}.

Definition rateLimited : CompletionResponse :=
  error "Rate limit reached" 429 true.

Definition completed : CompletionResponse :=
  success "{}" 1200 (Some 10%Z) (Some 20%Z) None 200.

Definition collaborators (answer : nat -> CompletionResponse) : Collaborators :=
  {| parseConstructFn := fun _ _ => inr prompt;
     getCompletion := fun _ _ i => (["partial"], answer i);
     hashPrompt := fun _ => "hash";
     mathRandom := fun _ => (1 # 2)%Q;
     dateNow := fun i => (1700000000000 + 20000 * Z.of_nat i)%Z |}.

(** A provider that is rate limited on every call. *)
Definition alwaysRateLimited : Collaborators :=
  collaborators (fun _ => rateLimited).

(** A provider that is rate limited once and then answers. *)
Definition rateLimitedOnce : Collaborators :=
  collaborators (fun i => match i with O => rateLimited | _ => completed end).

End Sample.

End QueryModelTask.

(** ** The node pipeline: updateCached and llmRelabelProperties *)

Module Nodes.

(** *** Data model *)

Inductive NodeEntryStatus := PENDING | PROCESSING | PROCESSED | ERROR.

Definition NodeEntryStatus_eqb (a b : NodeEntryStatus) : bool :=
  match a, b with
  | PENDING, PENDING | PROCESSING, PROCESSING
  | PROCESSED, PROCESSED | ERROR, ERROR => true
  | _, _ => false
  end.

(** Modelled from the spec: the Prisma schema is not among the sources.
    [NodeEntry] and [CachedProcessedEntry] have the columns the
    specification lists and the cache query names.  A column that the query
    reads from the cache table or writes into an entry is a SQL value that
    may be NULL ([None]); the keys the query compares with a constant are
    plain strings. *)
Definition sqlval := option string.

(** SQL's [=] in a WHERE clause: a comparison with NULL never selects. *)
Definition sqlEq (a b : sqlval) : bool :=
  match a, b with
  | Some x, Some y => String.eqb x y
  | _, _ => false
  end.

Record NodeEntry := {
  id : string;
  nodeId : string;
  persistentId : string;
  status : NodeEntryStatus;
  inputHash : sqlval;
  outputHash : sqlval;
  originalOutputHash : sqlval;
  split : sqlval;
}.

Record CachedProcessedEntry := {
  nodeHash : sqlval;
  cpne_nodeId : sqlval;
  nodeEntryPersistentId : sqlval;
  incomingInputHash : sqlval;
  incomingOutputHash : sqlval;
  outgoingInputHash : sqlval;
  outgoingOutputHash : sqlval;
  outgoingSplit : sqlval;
}.

(** Modelled from the spec: node.types is not among the sources.  A
    [RelabelOption] is the skip option or the name of a model. *)
Inductive RelabelOption := SkipRelabel | RelabelWith (model : string).

Record NodeConfig := {
  relabelLLM : RelabelOption;
  maxLLMConcurrency : nat;
}.

Record Node := {
  node_id : string;
  projectId : string;
  hash : string;
  type : string;
  config : NodeConfig;
}.

(** Modelled from the spec: nodeProperties.types is not among the sources.
    The static part of a [NodeProperties] object; an absent optional field
    is [None], and a declared array, even an empty one, is truthy. *)
Record NodeProperties := {
  cacheMatchFields : option (list string);
  cacheWriteFields : option (list string);
  readBatchSize : nat;
}.

(** What the embedding records of a run: each invocation of the row
    transform and each call of the model. *)
Inductive NodeEvent :=
| ProcessEntryCall (entryId : string)
| OpenaiCall (projectId model : string).

Record NodeWorld := {
  nodeEntries : list NodeEntry;
  cachedProcessedEntries : list CachedProcessedEntry;
  events : list NodeEvent;
}.

(** *** updateCached *)

Definition includes (fields : list string) (f : string) : bool :=
  existsb (String.eqb f) fields.

(** An [UPDATE "NodeEntry" AS ne SET ... FROM "CachedProcessedEntry" AS
    cpne WHERE ...] under construction.  An assignment sees the row as it
    was before the statement ([ne]), the joined cache row ([cpne]) and the
    row being built. *)
Record UpdateQuery := {
  assignments : list (NodeEntry -> CachedProcessedEntry -> NodeEntry -> NodeEntry);
  conditions : list (NodeEntry -> CachedProcessedEntry -> bool);
}.

Definition set (q : UpdateQuery)
    (a : NodeEntry -> CachedProcessedEntry -> NodeEntry -> NodeEntry) : UpdateQuery :=
  {| assignments := assignments q ++ [a]; conditions := conditions q |}.

Definition where_ (q : UpdateQuery)
    (c : NodeEntry -> CachedProcessedEntry -> bool) : UpdateQuery :=
  {| assignments := assignments q; conditions := conditions q ++ [c] |}.

Definition selected (q : UpdateQuery) (ne : NodeEntry) (cpne : CachedProcessedEntry)
  : bool :=
  forallb (fun c => c ne cpne) (conditions q).

Definition assign (q : UpdateQuery) (ne : NodeEntry) (cpne : CachedProcessedEntry)
  : NodeEntry :=
  fold_left (fun row a => a ne cpne row) (assignments q) ne.

(** Running the statement.  A row that joins with several cache rows is
    updated once, from one of them; PostgreSQL leaves open from which, the
    embedding takes the first in table order. *)
Definition execute (q : UpdateQuery) (w : NodeWorld) : NodeWorld :=
  {| nodeEntries :=
       map (fun ne =>
              match find (selected q ne) (cachedProcessedEntries w) with
              | Some cpne => assign q ne cpne
              | None => ne
              end) (nodeEntries w);
     cachedProcessedEntries := cachedProcessedEntries w;
     events := events w |}.

Definition with_status (s : NodeEntryStatus) (r : NodeEntry) : NodeEntry :=
  {| id := id r; nodeId := nodeId r; persistentId := persistentId r;
     status := s; inputHash := inputHash r; outputHash := outputHash r;
     originalOutputHash := originalOutputHash r; split := split r |}.

Definition with_inputHash (v : sqlval) (r : NodeEntry) : NodeEntry :=
  {| id := id r; nodeId := nodeId r; persistentId := persistentId r;
     status := status r; inputHash := v; outputHash := outputHash r;
     originalOutputHash := originalOutputHash r; split := split r |}.

Definition with_outputHashes (v orig : sqlval) (r : NodeEntry) : NodeEntry :=
  {| id := id r; nodeId := nodeId r; persistentId := persistentId r;
     status := status r; inputHash := inputHash r; outputHash := v;
     originalOutputHash := orig; split := split r |}.

Definition with_split (v : sqlval) (r : NodeEntry) : NodeEntry :=
  {| id := id r; nodeId := nodeId r; persistentId := persistentId r;
     status := status r; inputHash := inputHash r; outputHash := outputHash r;
     originalOutputHash := originalOutputHash r; split := v |}.

Definition when (b : bool) (f : UpdateQuery -> UpdateQuery) (q : UpdateQuery)
  : UpdateQuery :=
  if b then f q else q.

Section UpdateCached.

Context (nodePropertiesByType : string -> NodeProperties).

Definition processCachedQuery (node : Node) (matchFields writeFields : list string)
  : UpdateQuery :=
  let q0 :=
    {| assignments := [fun _ _ => with_status PROCESSED];
       conditions :=
         [ (fun _ cpne => sqlEq (nodeHash cpne) (Some (hash node))
                          || sqlEq (cpne_nodeId cpne) (Some (node_id node)));
           (fun ne _ => String.eqb (nodeId ne) (node_id node));
           (fun ne _ => NodeEntryStatus_eqb (status ne) PENDING) ] |} in
  let q1 := when (includes writeFields "outgoingInputHash")
    (fun q => set q (fun _ cpne => with_inputHash (outgoingInputHash cpne))) q0 in
  let q2 := when (includes writeFields "outgoingOutputHash")
    (fun q => set q (fun ne cpne =>
       with_outputHashes (outgoingOutputHash cpne) (outputHash ne))) q1 in
  let q3 := when (includes writeFields "outgoingSplit")
    (fun q => set q (fun _ cpne => with_split (outgoingSplit cpne))) q2 in
  let q4 := when (includes matchFields "nodeEntryPersistentId")
    (fun q => where_ q (fun ne cpne =>
       sqlEq (Some (persistentId ne)) (nodeEntryPersistentId cpne))) q3 in
  let q5 := when (includes matchFields "incomingInputHash")
    (fun q => where_ q (fun ne cpne =>
       sqlEq (inputHash ne) (incomingInputHash cpne))) q4 in
  let q6 := when (includes matchFields "incomingOutputHash")
    (fun q => where_ q (fun ne cpne =>
       sqlEq (outputHash ne) (incomingOutputHash cpne))) q5 in
  q6.

Definition updateCached (node : Node) (w : NodeWorld) : NodeWorld :=
  let nodeProperties := nodePropertiesByType (type node) in
  match cacheMatchFields nodeProperties, cacheWriteFields nodeProperties with
  | Some matchFields, Some writeFields =>
    execute (processCachedQuery node matchFields writeFields) w
  | _, _ => w
  end.

End UpdateCached.

(** *** llmRelabelProperties *)

Definition llmRelabelProperties : NodeProperties :=
  {| cacheMatchFields := Some ["incomingInputHash"];
     cacheWriteFields := Some ["outgoingOutputHash"];
     readBatchSize := 50 |}.

Definition getConcurrency (node : Node) : nat := maxLLMConcurrency (config node).

(** [prisma.nodeEntry.updateMany({ where: { nodeId, status }, data: { status } })] *)
Definition updateMany (whereNodeId : string) (whereStatus dataStatus : NodeEntryStatus)
    (w : NodeWorld) : NodeWorld :=
  {| nodeEntries :=
       map (fun ne =>
              if String.eqb (nodeId ne) whereNodeId
                 && NodeEntryStatus_eqb (status ne) whereStatus
              then with_status dataStatus ne else ne) (nodeEntries w);
     cachedProcessedEntries := cachedProcessedEntries w;
     events := events w |}.

Definition RelabelOption_eqb (a b : RelabelOption) : bool :=
  match a, b with
  | SkipRelabel, SkipRelabel => true
  | RelabelWith x, RelabelWith y => String.eqb x y
  | _, _ => false
  end.

Definition beforeProcessing (node : Node) (w : NodeWorld) : NodeWorld :=
  if RelabelOption_eqb (relabelLLM (config node)) SkipRelabel
  then updateMany (node_id node) PENDING PROCESSED w
  else w.

(** The entry handed to [processEntry]: the row's id with the fields of
    its dataset entry. *)
Record EntryToProcess := {
  entry_id : string;
  messages : string;
  tool_choice : option string;
  tools : option string;
  response_format : option string;
  output : string;
}.

Record CompletionRequest := {
  req_model : string;
  req_messages : string;
  req_tool_choice : option string;
  req_tools : option string;
  req_response_format : option string;
}.

(** The request built for an entry; [x ?? undefined] leaves an absent field
    absent. *)
Definition requestFor (model : string) (entry : EntryToProcess) : CompletionRequest :=
  {| req_model := model;
     req_messages := messages entry;
     req_tool_choice := tool_choice entry;
     req_tools := tools entry;
     req_response_format := response_format entry |}.

Record Choice := { message : option string }.
Record ChatCompletion := { choices : list Choice }.

(** What can be read of a caught value that is not [undefined] or
    [null]: whether it is an [APIError], its [status] and its [message],
    each possibly undefined. *)
Record Caught := {
  isAPIError : bool;
  caught_status : option Z;
  caught_message : option string;
}.

(** A value bound by [catch (e)].  Anything can be thrown, [undefined] and
    [null] included. *)
Inductive Thrown :=
| ThrownNullish
| ThrownValue (e : Caught).

(** [new Error(msg)] *)
Definition newError (msg : string) : Thrown :=
  ThrownValue
    {| isAPIError := false; caught_status := None; caught_message := Some msg |}.

(** [e instanceof APIError]: false for [undefined] and [null]. *)
Definition instanceofAPIError (e : Thrown) : bool :=
  match e with
  | ThrownNullish => false
  | ThrownValue v => isAPIError v
  end.

(** [e.status], read once [e instanceof APIError] holds. *)
Definition statusOf (e : Thrown) : option Z :=
  match e with
  | ThrownNullish => None
  | ThrownValue v => caught_status v
  end.

(** [(e as Error).message]: reading a property of [undefined] or [null]
    throws a [TypeError], which is [None] here. *)
Definition messageOf (e : Thrown) : option (option string) :=
  match e with
  | ThrownNullish => None
  | ThrownValue v => Some (caught_message v)
  end.

Inductive ProcessEntryResult :=
| ResultProcessed (output : string)
| ResultPending (error : string)
| ResultError (nodeEntryId : string) (error : string).

Definition resultStatus (r : ProcessEntryResult) : NodeEntryStatus :=
  match r with
  | ResultProcessed _ => PROCESSED
  | ResultPending _ => PENDING
  | ResultError _ _ => ERROR
  end.

(** How the promise of [processEntry] settles: with a result, or rejected
    with the [TypeError] raised inside the [catch] block. *)
Inductive ProcessEntryOutcome :=
| Resolves (r : ProcessEntryResult)
| RejectsTypeError.

(** The status of the entry according to the outcome, when there is one. *)
Definition outcomeStatus (o : ProcessEntryOutcome) : option NodeEntryStatus :=
  match o with
  | Resolves r => Some (resultStatus r)
  | RejectsTypeError => None
  end.

Definition log (e : NodeEvent) (w : NodeWorld) : NodeWorld :=
  {| nodeEntries := nodeEntries w;
     cachedProcessedEntries := cachedProcessedEntries w;
     events := events w ++ [e] |}.

Section ProcessEntry.

(** [getOpenaiCompletion(projectId, request)] either resolves to a
    completion or rejects with a value. *)
Context (getOpenaiCompletion : string -> CompletionRequest -> Thrown + ChatCompletion).

(** The [try] block: the completion message, or what is thrown. *)
Definition completionMessage (node : Node) (entry : EntryToProcess) (w : NodeWorld)
  : NodeWorld * (Thrown + string) :=
  match relabelLLM (config node) with
  | SkipRelabel => (w, inr (output entry))
  | RelabelWith model =>
    let w := log (OpenaiCall (projectId node) model) w in
    match getOpenaiCompletion (projectId node) (requestFor model entry) with
    | inl e => (w, inl e)
    | inr completion =>
      match head (choices completion) ≫= message with
      | Some completionMessage => (w, inr completionMessage)
      | None => (w, inl (newError "No completion returned"))
      end
    end
  end.

Definition processEntry (node : Node) (entry : EntryToProcess) (w : NodeWorld)
  : NodeWorld * ProcessEntryOutcome :=
  let w := log (ProcessEntryCall (entry_id entry)) w in
  match completionMessage node entry w with
  | (w, inr completionMessage) => (w, Resolves (ResultProcessed completionMessage))
  | (w, inl e) =>
    if instanceofAPIError e && bool_decide (statusOf e = Some 429%Z)
    then
      match messageOf e with
      | Some msg => (w, Resolves (ResultPending (default "Rate limited" msg)))
      | None => (w, RejectsTypeError)
      end
    else
      match messageOf e with
      | Some msg =>
        (w, Resolves (ResultError (entry_id entry) (default "Unknown error" msg)))
      | None => (w, RejectsTypeError)
      end
  end.

End ProcessEntry.

(** *** The cache protocol, in the words of the specification *)

(** Equality on one declared cache-match field; a NULL equals nothing. *)
Definition fieldMatches (f : string) (ne : NodeEntry) (c : CachedProcessedEntry)
  : Prop :=
  (f = "nodeEntryPersistentId" -> nodeEntryPersistentId c = Some (persistentId ne))
  /\ (f = "incomingInputHash" ->
      is_Some (inputHash ne) /\ incomingInputHash c = inputHash ne)
  /\ (f = "incomingOutputHash" ->
      is_Some (outputHash ne) /\ incomingOutputHash c = outputHash ne).

(** A cache record matches an entry of [node]: it is keyed by the node's
    hash or by the node's id, and agrees on every declared match field. *)
Definition CacheMatch (node : Node) (matchFields : list string)
    (ne : NodeEntry) (c : CachedProcessedEntry) : Prop :=
  (nodeHash c = Some (hash node) \/ cpne_nodeId c = Some (node_id node))
  /\ forall f, In f matchFields -> fieldMatches f ne c.

(** A pending entry of [node] for which some cache record matches. *)
Definition CacheHit (node : Node) (matchFields : list string)
    (cache : list CachedProcessedEntry) (ne : NodeEntry) : Prop :=
  nodeId ne = node_id node /\ status ne = PENDING
  /\ exists c, In c cache /\ CacheMatch node matchFields ne c.

(** The entry after a hit: PROCESSED, with each declared cache-write field
    taken from the record. *)
Definition cacheWrite (writeFields : list string) (ne : NodeEntry)
    (c : CachedProcessedEntry) : NodeEntry :=
  {| id := id ne; nodeId := nodeId ne; persistentId := persistentId ne;
     status := PROCESSED;
     inputHash := if includes writeFields "outgoingInputHash"
                  then outgoingInputHash c else inputHash ne;
     outputHash := if includes writeFields "outgoingOutputHash"
                   then outgoingOutputHash c else outputHash ne;
     originalOutputHash := if includes writeFields "outgoingOutputHash"
                           then outputHash ne else originalOutputHash ne;
     split := if includes writeFields "outgoingSplit"
              then outgoingSplit c else split ne |}.

(** *** Sample data *)

Module NodeSample.

Definition relabelNode (option : RelabelOption) : Node :=
  {| node_id := "node-1"; projectId := "project-1"; hash := "hash-1";
     type := "LLMRelabel";
     config := {| relabelLLM := option; maxLLMConcurrency := 4 |} |}.

Definition entry (id nodeId : string) (s : NodeEntryStatus) (input : string)
  : NodeEntry :=
  {| id := id; nodeId := nodeId; persistentId := "p-" ++ id; status := s;
     inputHash := Some input; outputHash := Some "out-old";
     originalOutputHash := Some "out-original"; split := Some "TRAIN" |}.

Definition cached (byHash byId : sqlval) (incoming outgoing : string)
  : CachedProcessedEntry :=
  {| nodeHash := byHash; cpne_nodeId := byId; nodeEntryPersistentId := None;
     incomingInputHash := Some incoming; incomingOutputHash := None;
     outgoingInputHash := None; outgoingOutputHash := Some outgoing;
     outgoingSplit := None |}.

Definition world : NodeWorld :=
  {| nodeEntries :=
       [ entry "e1" "node-1" PENDING "in-a";
         entry "e2" "node-1" PENDING "in-b";
         entry "e3" "node-1" ERROR "in-a";
         entry "e4" "node-2" PENDING "in-a";
         entry "e5" "node-1" PENDING "in-c" ];
     cachedProcessedEntries :=
       [ cached (Some "hash-1") None "in-a" "out-a";
         cached None (Some "node-1") "in-c" "out-c";
         cached (Some "hash-9") (Some "node-9") "in-b" "out-b" ];
     events := [] |}.

Definition registry (t : string) : NodeProperties := llmRelabelProperties.

(** A node kind that declares match fields only. *)
Definition matchOnly (t : string) : NodeProperties :=
  {| cacheMatchFields := Some ["incomingInputHash"];
     cacheWriteFields := None;
     readBatchSize := 50 |}.

Definition toProcess : EntryToProcess :=
  {| entry_id := "e1"; messages := "[]"; tool_choice := None; tools := None;
     response_format := None; output := "{}" |}.

Definition rateLimit : Caught :=
  {| isAPIError := true; caught_status := Some 429%Z;
     caught_message := Some "429 Rate limit reached" |}.

End NodeSample.

End Nodes.

(** ** Further observations on a run of queryModel *)

Module QueryModelTrace.

Import QueryModelTask.

(** The delays the run slept for, in order. *)
Definition sleeps (tr : list Event) : list Q :=
  omap (fun e => match e with Sleep ms => Some ms | _ => None end) tr.

(** The messages published on the websocket, as channel and payload. *)
Definition wsEmits (tr : list Event) : list (string * string) :=
  omap (fun e => match e with WsEmit ch p => Some (ch, p) | _ => None end) tr.

(** The ids of the cells for which an update was issued. *)
Definition updatedCells (tr : list Event) : list string :=
  omap (fun e => match e with CellUpdate id _ => Some id | _ => None end) tr.

(** The evaluation runs triggered, as the model output they were given. *)
Definition evalRuns (tr : list Event) : list ModelOutput :=
  omap (fun e => match e with RunEvals _ _ mo => Some mo | _ => None end) tr.

(** The delay computed in iteration [j] of the loop. *)
Definition delayOf (env : Collaborators) (j : nat) : Q :=
  calculateDelay (mathRandom env j) j.

(** The partial outputs the provider produces during attempt [j]. *)
Definition partialsOf (env : Collaborators) (prompt : ParsedPrompt) (j : nat)
  : list string :=
  fst (getCompletion env (modelProvider prompt) (modelInput prompt) j).

Definition Qsum (l : list Q) : Q := fold_right Qplus 0%Q l.

(** Twice the base delay of iteration [j]. *)
Definition delayCeiling (j : nat) : Q :=
  (2 * Qmin MAX_DELAY (MIN_DELAY * 2 ^ Z.of_nat j))%Q.

(** What the loop does when it starts at iteration [i] on cell [c]: it
    leaves the cell as [c'], stores the model outputs [mos] and emits
    [tr]. *)
Record LoopFacts (env : Collaborators) (task : QueryModelJob)
    (prompt : ParsedPrompt) (i : nat) (c c' : ScenarioVariantCell)
    (mos : list ModelOutput) (tr : list Event) : Prop := {
  lf_calls : 1 <= providerCalls tr /\ i + providerCalls tr <= S MAX_AUTO_RETRIES;
  lf_before : forall j, i <= j < i + providerCalls tr - 1 ->
    exists m code, response env prompt j = error m code true;
  lf_cell : cellAfter (cellId task) c tr = c';
  lf_ids : Forall (fun id => id = cellId task) (updatedCells tr);
  lf_keys : promptVariantId c' = promptVariantId c
            /\ testScenarioId c' = testScenarioId c;
  lf_sleeps : sleeps tr = map (delayOf env) (seq i (providerCalls tr - 1));
  lf_ws : wsEmits tr =
          if stream task
          then flat_map (fun j => map (pair (cellId task)) (partialsOf env prompt j))
                 (seq i (providerCalls tr))
          else [];
  lf_last :
    match response env prompt (i + providerCalls tr - 1) with
    | success v ttc pt ct cst code =>
      mos = [outputOf env task prompt v ttc pt ct cst]
      /\ evalRuns tr = mos
      /\ retrievalStatus c' = COMPLETE /\ statusCode c' = Some code
    | error m code ar =>
      (ar = false \/ i + providerCalls tr = S MAX_AUTO_RETRIES)
      /\ mos = [] /\ evalRuns tr = []
      /\ retrievalStatus c' = ERROR /\ statusCode c' = Some code
      /\ errorMessage c' = Some m /\ retryTime c' = None
    end;
  lf_stale : forall v ttc pt ct cst code,
    response env prompt (i + providerCalls tr - 1) = success v ttc pt ct cst code ->
    (providerCalls tr = 1 ->
       errorMessage c' = errorMessage c /\ retryTime c' = retryTime c)
    /\ (1 < providerCalls tr ->
        exists m code',
          response env prompt (i + providerCalls tr - 2) = error m code' true
          /\ errorMessage c' = Some m
          /\ retryTime c' =
             Some (newDate (JsNumber.add
                              (inject_Z (dateNow env (i + providerCalls tr - 2)))
                              (delayOf env (i + providerCalls tr - 2)))));
}.

End QueryModelTrace.

(** ** streamToNdStrings: newline-delimited strings from a stream *)

Module NdStrings.

Local Open Scope list_scope.

(** A [Buffer] is its bytes. *)
Definition Buffer := list Byte.byte.

(** [buf.indexOf(b)]; [None] stands for -1. *)
Fixpoint indexOf (b : Byte.byte) (buf : Buffer) : option nat :=
  match buf with
  | [] => None
  | x :: rest => if Byte.eqb x b then Some 0 else S <$> indexOf b rest
  end.

(** The promise the function returns.  When it is [Resolved] its value is
    the [lines] array itself, not a copy of it. *)
Inductive PromiseState := Pending | Resolved | Rejected (err : string).

(** [resolve] and [reject] settle a pending promise and are ignored by a
    settled one. *)
Definition resolve (p : PromiseState) : PromiseState :=
  match p with Pending => Resolved | _ => p end.

Definition reject (err : string) (p : PromiseState) : PromiseState :=
  match p with Pending => Rejected err | _ => p end.

(** The variables the handlers close over, the promise, and the values
    [onProgress] was called with. *)
Record StreamState := {
  lines : list string;
  bytesDownloaded : N;
  lastReportedByteCount : N;
  tempBuffer : Buffer;
  numEntriesImported : nat;
  promise : PromiseState;
  progressReports : list N;
}.

Definition initial : StreamState :=
  {| lines := []; bytesDownloaded := 0%N; lastReportedByteCount := 0%N;
     tempBuffer := []; numEntriesImported := 0; promise := Pending;
     progressReports := [] |}.

Section StreamToNdStrings.

(** [toString] is [buf.toString("utf-8")]; [onProgress] tells whether a
    callback was given; an absent [chunkInterval] takes the default. *)
Context (toString : Buffer -> string) (maxEntriesToImport : nat)
        (onProgress : bool) (chunkInterval : option N).

Definition interval : N := default 1048576%N chunkInterval.

(** The [while] loop of the data handler.  Each turn removes at least one
    byte from [chunk], so [length chunk] turns of fuel let the loop end by
    its own condition. *)
Fixpoint takeLines (fuel : nat) (chunk : Buffer) (lines : list string)
    (numEntriesImported : nat) : Buffer * list string * nat :=
  match fuel with
  | O => (chunk, lines, numEntriesImported)
  | S fuel' =>
    match indexOf Byte.x0a chunk with
    | Some newlineIndex =>
      if (numEntriesImported <? maxEntriesToImport)%nat
      then
        let line := toString (take newlineIndex chunk) in
        takeLines fuel' (drop (newlineIndex + 1) chunk) (lines ++ [line])
          (S numEntriesImported)
      else (chunk, lines, numEntriesImported)
    | None => (chunk, lines, numEntriesImported)
    end
  end.

(** [readableStream.on("data", ...)] *)
Definition onData (chunk : Buffer) (st : StreamState) : StreamState :=
  let bytesDownloaded := (bytesDownloaded st + N.of_nat (length chunk))%N in
  let report :=
    onProgress
    && (interval <=? bytesDownloaded - lastReportedByteCount st)%N in
  let progressReports :=
    if report then progressReports st ++ [bytesDownloaded]
    else progressReports st in
  let lastReportedByteCount :=
    if report then bytesDownloaded else lastReportedByteCount st in
  let chunk := tempBuffer st ++ chunk in
  let '(chunk, lines, numEntriesImported) :=
    takeLines (length chunk) chunk (lines st) (numEntriesImported st) in
  if (maxEntriesToImport <=? numEntriesImported)%nat
  then
    {| lines := lines; bytesDownloaded := bytesDownloaded;
       lastReportedByteCount := lastReportedByteCount;
       tempBuffer := tempBuffer st;
       numEntriesImported := numEntriesImported;
       promise := resolve (promise st);
       progressReports := progressReports |}
  else
    {| lines := lines; bytesDownloaded := bytesDownloaded;
       lastReportedByteCount := lastReportedByteCount;
       tempBuffer := chunk;
       numEntriesImported := numEntriesImported;
       promise := promise st;
       progressReports := progressReports |}.

(** [readableStream.on("end", ...)] *)
Definition onEnd (st : StreamState) : StreamState :=
  {| lines := if (0 <? length (tempBuffer st))%nat
              then lines st ++ [toString (tempBuffer st)]
              else lines st;
     bytesDownloaded := bytesDownloaded st;
     lastReportedByteCount := lastReportedByteCount st;
     tempBuffer := tempBuffer st;
     numEntriesImported := numEntriesImported st;
     promise := resolve (promise st);
     progressReports := progressReports st |}.

(** [readableStream.on("error", reject)] *)
Definition onError (err : string) (st : StreamState) : StreamState :=
  {| lines := lines st; bytesDownloaded := bytesDownloaded st;
     lastReportedByteCount := lastReportedByteCount st;
     tempBuffer := tempBuffer st;
     numEntriesImported := numEntriesImported st;
     promise := reject err (promise st);
     progressReports := progressReports st |}.

(** The state after the data events of the given chunks. *)
Definition feed (chunks : list Buffer) (st : StreamState) : StreamState :=
  fold_left (fun st chunk => onData chunk st) chunks st.

(** [streamToNdStrings] on a stream that delivers [chunks] and ends. *)
Definition streamToNdStrings (chunks : list Buffer) : StreamState :=
  onEnd (feed chunks initial).

End StreamToNdStrings.

(** [downloadBlobToStringsFromS3] on an object whose read stream delivers
    [chunks]: the limit is doubled to account for up to 50% errored
    lines. *)
Definition downloadBlobToStringsFromS3 (toString : Buffer -> string)
    (maxEntriesToImport : nat) (chunkInterval : option N)
    (chunks : list Buffer) : StreamState :=
  streamToNdStrings toString (maxEntriesToImport * 2) true chunkInterval chunks.

(** *** Notions for the properties *)

Definition countNewlines (buf : Buffer) : nat :=
  length (List.filter (Byte.eqb Byte.x0a) buf).

(** The lines, each followed by its newline. *)
Definition terminated (ls : list Buffer) : Buffer :=
  flat_map (fun l => l ++ [Byte.x0a]) ls.

(** What is left after the last newline counts as a line when it is not
    empty. *)
Definition lastLine (rest : Buffer) : list Buffer :=
  match rest with [] => [] | _ => [rest] end.

(** Each value is at least [d] above the one before it, the first at
    least [d] above [prev]. *)
Fixpoint spaced (d prev : N) (l : list N) : Prop :=
  match l with
  | [] => True
  | x :: rest => (prev + d <= x)%N /\ spaced d x rest
  end.

(** A decoder for the samples: the bytes as characters. *)
Definition asciiString (buf : Buffer) : string :=
  String.string_of_list_ascii (map Ascii.ascii_of_byte buf).

Definition bytes (s : string) : Buffer :=
  map Ascii.byte_of_ascii (String.list_ascii_of_string s).

(** With the decoder [toString]: what has been seen so far is the
    complete lines, each with its newline, followed by the leftover, and
    the promise is still pending. *)
Definition Collected (toString : Buffer -> string) (st : StreamState)
    (seen : Buffer) (complete : list Buffer) : Prop :=
  seen = terminated complete ++ tempBuffer st
  /\ Forall (fun l => ~ In Byte.x0a l) complete
  /\ ~ In Byte.x0a (tempBuffer st)
  /\ lines st = map toString complete
  /\ numEntriesImported st = length complete
  /\ promise st = Pending.

(** What every data event keeps, for the limit [maxEntriesToImport]. *)
Definition Within (maxEntriesToImport : nat) (st : StreamState) : Prop :=
  length (lines st) = numEntriesImported st
  /\ numEntriesImported st <= maxEntriesToImport
  /\ (promise st = Pending \/ promise st = Resolved)
  /\ (promise st = Resolved -> numEntriesImported st = maxEntriesToImport).

(** What every data event keeps of the progress reports, for the interval
    [d]: the reports are [d] apart, the last one is remembered, and with a
    callback less than [d] bytes are unreported. *)
Definition Reported (onProgress : bool) (d : N) (st : StreamState) : Prop :=
  spaced d 0 (progressReports st)
  /\ lastReportedByteCount st = List.last (progressReports st) 0%N
  /\ (lastReportedByteCount st <= bytesDownloaded st)%N
  /\ (onProgress = false -> progressReports st = [])
  /\ (onProgress = true ->
      (bytesDownloaded st - lastReportedByteCount st < d)%N
      \/ bytesDownloaded st = lastReportedByteCount st).

(** A stream of three chunks that holds the lines "abc" and "def" and
    ends with "gh". *)
Definition sampleChunks : list Buffer :=
  [ bytes "ab";
    bytes "c" ++ Byte.x0a :: bytes "def" ++ Byte.x0a :: bytes "g";
    bytes "h" ].

End NdStrings.

(** ** Properties of the rounding of JavaScript numbers *)

Module JsNumberFacts.

Import JsNumber.

Lemma roundHalfEven_range q :
  (Qfloor q <= roundHalfEven q <= Qfloor q + 1)%Z.
Proof.
  unfold roundHalfEven. destruct (Qcompare _ _); [destruct (Z.even _)|..]; lia.
Qed.

Lemma roundHalfEven_le q1 q2 :
  (q1 <= q2)%Q -> (roundHalfEven q1 <= roundHalfEven q2)%Z.
Proof.
  intros Hle. pose proof (Qfloor_resp_le _ _ Hle) as Hf.
  pose proof (roundHalfEven_range q1) as H1.
  pose proof (roundHalfEven_range q2) as H2.
  destruct (Z.eq_dec (Qfloor q1) (Qfloor q2)) as [Heq|Hne]; [|lia].
  unfold roundHalfEven. rewrite <- Heq.
  destruct (Qcompare_spec (q1 - inject_Z (Qfloor q1)) (1 # 2)) as [E1|L1|G1];
    destruct (Qcompare_spec (q2 - inject_Z (Qfloor q1)) (1 # 2)) as [E2|L2|G2];
    try destruct (Z.even (Qfloor q1)); try lia; exfalso; lra.
Qed.

Lemma roundHalfEven_Z q n : (q == inject_Z n)%Q -> roundHalfEven q = n.
Proof.
  intros Hq. unfold roundHalfEven. rewrite (Qfloor_comp _ _ Hq), Qfloor_Z.
  destruct (Qcompare_spec (q - inject_Z n) (1 # 2)) as [E|L|G];
    [exfalso; lra | reflexivity | exfalso; lra].
Qed.

Lemma roundHalfEven_nonneg q : (0 <= q)%Q -> (0 <= roundHalfEven q)%Z.
Proof.
  intros Hq. pose proof (roundHalfEven_range q) as [H _].
  pose proof (Qfloor_resp_le _ _ Hq) as H0. change (Qfloor 0) with 0%Z in H0. lia.
Qed.

(** Rounding to an integer moves a number by at most one half. *)
Lemma roundHalfEven_error q :
  (- (1 # 2) <= inject_Z (roundHalfEven q) - q)%Q
  /\ (inject_Z (roundHalfEven q) - q <= 1 # 2)%Q.
Proof.
  pose proof (Qfloor_le q) as Hf. pose proof (Qlt_floor q) as Hc.
  rewrite inject_Z_plus in Hc. change (inject_Z 1) with 1%Q in Hc.
  unfold roundHalfEven.
  destruct (Qcompare_spec (q - inject_Z (Qfloor q)) (1 # 2)) as [E|L|G];
    [destruct (Z.even (Qfloor q))|..];
    rewrite ?inject_Z_plus; change (inject_Z 1) with 1%Q; split; lra.
Qed.

Lemma pow2_pos (e : Z) : (0 < 2 ^ e)%Q.
Proof. by apply Qpower_0_lt. Qed.

Lemma pow2_le (a b : Z) : (a <= b)%Z -> (2 ^ a <= 2 ^ b)%Q.
Proof. intros H. by apply Qpower_le_compat_l. Qed.

Lemma pow2_plus (a b : Z) : (2 ^ (a + b) == 2 ^ a * 2 ^ b)%Q.
Proof. by apply Qpower_plus. Qed.

Lemma pow2_Z (n : Z) : (0 <= n)%Z -> (inject_Z (2 ^ n) == 2 ^ n)%Q.
Proof. intros Hn. by rewrite Zpower_Qpower. Qed.

Lemma floorLog2_spec x :
  (0 < x)%Q -> (2 ^ floorLog2 x <= x)%Q /\ (x < 2 ^ (floorLog2 x + 1))%Q.
Proof.
  intros Hx. unfold floorLog2.
  destruct x as [n d]. simpl Qnum. simpl Qden.
  assert (Hn : (0 < n)%Z) by (unfold Qlt in Hx; simpl in Hx; lia).
  set (ln := Z.log2 n). set (ld := Z.log2 (Z.pos d)).
  destruct (Z.log2_spec n Hn) as [Hn1 Hn2]. fold ln in Hn1, Hn2.
  destruct (Z.log2_spec (Z.pos d) ltac:(lia)) as [Hd1 Hd2]. fold ld in Hd1, Hd2.
  assert (Hln : (0 <= ln)%Z) by apply Z.log2_nonneg.
  assert (Hld : (0 <= ld)%Z) by apply Z.log2_nonneg.
  assert (Hup : (n # d < 2 ^ (ln - ld + 1))%Q).
  { replace (ln - ld + 1)%Z with ((ln + 1) + - ld)%Z by lia.
    rewrite pow2_plus, Qpower_opp, <- !pow2_Z by lia.
    apply Qlt_shift_div_l.
    - change 0%Q with (inject_Z 0). rewrite <- Zlt_Qlt. lia.
    - unfold Qlt, Qmult, inject_Z. simpl.
      replace (Z.succ ln) with (ln + 1)%Z in Hn2 by lia. nia. }
  assert (Hlow : (2 ^ (ln - ld - 1) < n # d)%Q).
  { replace (ln - ld - 1)%Z with (ln + - (ld + 1))%Z by lia.
    rewrite pow2_plus, Qpower_opp, <- !pow2_Z by lia.
    apply Qlt_shift_div_r.
    - change 0%Q with (inject_Z 0). rewrite <- Zlt_Qlt. lia.
    - unfold Qlt, Qmult, inject_Z. simpl.
      replace (Z.succ ld) with (ld + 1)%Z in Hd2 by lia. nia. }
  destruct (Qle_bool (2 ^ (ln - ld)) (n # d)) eqn:Hb.
  - apply Qle_bool_iff in Hb. by split.
  - split; [by apply Qlt_le_weak|].
    replace (ln - ld - 1 + 1)%Z with (ln - ld)%Z by lia.
    apply Qnot_le_lt. intros H. apply Qle_bool_iff in H. congruence.
Qed.

Lemma floorLog2_le x y :
  (0 < x)%Q -> (x <= y)%Q -> (floorLog2 x <= floorLog2 y)%Z.
Proof.
  intros Hx Hxy.
  destruct (floorLog2_spec x Hx) as [Hx1 _].
  destruct (floorLog2_spec y ltac:(lra)) as [_ Hy2].
  destruct (Z_lt_le_dec (floorLog2 y) (floorLog2 x)) as [Hlt|Hle]; [|exact Hle].
  exfalso. pose proof (pow2_le (floorLog2 y + 1) (floorLog2 x) ltac:(lia)). lra.
Qed.

Lemma ulp_pos x : (0 < ulp x)%Q.
Proof. apply pow2_pos. Qed.

(** Scaled by its spacing, a positive number lies below [2^53]. *)
Lemma scaled_lt x : (0 < x)%Q -> (x / ulp x < 2 ^ 53)%Q.
Proof.
  intros Hx. apply Qlt_shift_div_r; [apply ulp_pos|].
  unfold ulp. rewrite <- pow2_plus.
  destruct (floorLog2_spec x Hx) as [_ H2].
  eapply Qlt_le_trans; [exact H2|]. apply pow2_le. lia.
Qed.

Lemma roundDouble_pos x : (0 < x)%Q -> roundDouble x = roundPositive x.
Proof.
  intros Hx. unfold roundDouble.
  destruct (Qcompare_spec x 0) as [H|H|H];
    [exfalso; lra | exfalso; lra | reflexivity].
Qed.

Lemma roundDouble_neg x : (x < 0)%Q -> roundDouble x = (- roundPositive (- x))%Q.
Proof.
  intros Hx. unfold roundDouble.
  destruct (Qcompare_spec x 0) as [H|H|H];
    [exfalso; lra | reflexivity | exfalso; lra].
Qed.

Lemma roundDouble_zero x : (x == 0)%Q -> roundDouble x = 0%Q.
Proof.
  intros Hx. unfold roundDouble.
  destruct (Qcompare_spec x 0) as [H|H|H];
    [reflexivity | exfalso; lra | exfalso; lra].
Qed.

Lemma roundPositive_nonneg x : (0 < x)%Q -> (0 <= roundPositive x)%Q.
Proof.
  intros Hx. unfold roundPositive.
  apply Qmult_le_0_compat; [|apply Qlt_le_weak, ulp_pos].
  change 0%Q with (inject_Z 0). rewrite <- Zle_Qle.
  apply roundHalfEven_nonneg. apply Qle_shift_div_l; [apply ulp_pos | lra].
Qed.

Lemma roundDouble_nonneg x : (0 <= x)%Q -> (0 <= roundDouble x)%Q.
Proof.
  intros Hx. destruct (Qlt_le_dec 0 x) as [Hpos|Hle].
  - rewrite roundDouble_pos by exact Hpos. by apply roundPositive_nonneg.
  - rewrite roundDouble_zero by lra. lra.
Qed.

(** A positive number rounds to at most the power of two that ends its
    binade. *)
Lemma roundPositive_below x :
  (0 < x)%Q ->
  (roundPositive x <= 2 ^ (Z.max (floorLog2 x) (-1022) + 1))%Q.
Proof.
  intros Hx. unfold roundPositive.
  set (e := Z.max (floorLog2 x) (-1022)).
  assert (Hu : ulp x = (2 ^ (e - 52))%Q) by reflexivity.
  assert (Hr : (roundHalfEven (x / ulp x) <= 2 ^ 53)%Z).
  { rewrite <- (roundHalfEven_Z (2 ^ 53) (2 ^ 53)) by reflexivity.
    apply roundHalfEven_le, Qlt_le_weak, scaled_lt, Hx. }
  rewrite Zle_Qle in Hr.
  replace (e + 1)%Z with (53 + (e - 52))%Z by lia. rewrite pow2_plus, <- Hu.
  apply Qmult_le_compat_r; [|apply Qlt_le_weak, ulp_pos].
  eapply Qle_trans; [exact Hr|]. rewrite pow2_Z by lia. apply Qle_refl.
Qed.

(** A normal number rounds to at least the power of two that starts its
    binade. *)
Lemma roundPositive_above x :
  (0 < x)%Q -> (-1022 <= floorLog2 x)%Z ->
  (2 ^ floorLog2 x <= roundPositive x)%Q.
Proof.
  intros Hx He. unfold roundPositive.
  assert (Hu : ulp x = (2 ^ (floorLog2 x - 52))%Q).
  { unfold ulp. by rewrite Z.max_l by lia. }
  destruct (floorLog2_spec x Hx) as [H1 _].
  assert (Hs : (2 ^ 52 <= x / ulp x)%Q).
  { apply Qle_shift_div_l; [apply ulp_pos|]. rewrite Hu, <- pow2_plus.
    replace (52 + (floorLog2 x - 52))%Z with (floorLog2 x) by lia. exact H1. }
  assert (Hr : (2 ^ 52 <= roundHalfEven (x / ulp x))%Z).
  { rewrite <- (roundHalfEven_Z (2 ^ 52) (2 ^ 52)) at 1 by reflexivity.
    by apply roundHalfEven_le. }
  rewrite Zle_Qle in Hr.
  replace (floorLog2 x) with (52 + (floorLog2 x - 52))%Z at 1 by lia.
  rewrite pow2_plus, <- Hu.
  apply Qmult_le_compat_r; [|apply Qlt_le_weak, ulp_pos].
  eapply Qle_trans; [|exact Hr]. rewrite pow2_Z by lia. apply Qle_refl.
Qed.

Lemma roundPositive_le x y :
  (0 < x)%Q -> (x <= y)%Q -> (roundPositive x <= roundPositive y)%Q.
Proof.
  intros Hpos Hxy. assert (Hy : (0 < y)%Q) by lra.
  pose proof (floorLog2_le x y Hpos Hxy) as Hfl.
  destruct (Z.eq_dec (Z.max (floorLog2 x) (-1022)) (Z.max (floorLog2 y) (-1022)))
    as [Heq|Hne].
  - (* the same binade: the same spacing *)
    assert (Hu : ulp y = ulp x) by (unfold ulp; by rewrite Heq).
    unfold roundPositive. rewrite Hu.
    apply Qmult_le_compat_r; [|apply Qlt_le_weak, ulp_pos].
    rewrite <- Zle_Qle. apply roundHalfEven_le.
    apply Qmult_le_compat_r; [exact Hxy|].
    apply Qlt_le_weak, Qinv_lt_0_compat, ulp_pos.
  - (* a power of two lies between the two *)
    assert (He : (Z.max (floorLog2 x) (-1022) + 1 <= floorLog2 y)%Z) by lia.
    eapply Qle_trans; [apply roundPositive_below; exact Hpos|].
    eapply Qle_trans; [apply pow2_le; exact He|].
    apply roundPositive_above; [exact Hy | lia].
Qed.

(** Rounding is monotone on the non-negative numbers. *)
Lemma roundDouble_le x y :
  (0 <= x)%Q -> (x <= y)%Q -> (roundDouble x <= roundDouble y)%Q.
Proof.
  intros Hx Hxy. destruct (Qlt_le_dec 0 x) as [Hpos|Hzero].
  - rewrite !roundDouble_pos by lra. by apply roundPositive_le.
  - rewrite (roundDouble_zero x) by lra. apply roundDouble_nonneg. lra.
Qed.

(** Equal rationals round to equal doubles, whatever their fractions. *)
Lemma roundDouble_compat x y : (x == y)%Q -> (roundDouble x == roundDouble y)%Q.
Proof.
  intros Hxy. destruct (Q_dec x 0) as [[Hneg|Hpos]|Hzero].
  - rewrite !roundDouble_neg by lra. apply Qopp_comp.
    apply Qle_antisym; apply roundPositive_le; lra.
  - rewrite !roundDouble_pos by lra.
    apply Qle_antisym; apply roundPositive_le; lra.
  - rewrite !roundDouble_zero by lra. reflexivity.
Qed.

(** Below [2^(e+1)] rounding moves a number by at most [2^(e-53)], half
    the spacing of the binade of exponent [e]. *)
Lemma roundDouble_error x (e : Z) :
  (0 <= x)%Q -> (x < 2 ^ (e + 1))%Q -> (-1022 <= e)%Z ->
  (Qabs (roundDouble x - x) <= 2 ^ (e - 53))%Q.
Proof.
  intros Hx Hlt He. destruct (Qlt_le_dec 0 x) as [Hpos|Hzero].
  2: { rewrite (roundDouble_zero x) by lra.
       apply Qabs_Qle_condition. pose proof (pow2_pos (e - 53)). split; lra. }
  rewrite roundDouble_pos by exact Hpos. unfold roundPositive.
  assert (Hfl : (floorLog2 x <= e)%Z).
  { destruct (floorLog2_spec x Hpos) as [H1 _].
    destruct (Z_lt_le_dec e (floorLog2 x)) as [Hc|Hc]; [|exact Hc].
    exfalso. pose proof (pow2_le (e + 1) (floorLog2 x) ltac:(lia)). lra. }
  assert (Hu : (ulp x <= 2 ^ (e - 52))%Q) by (apply pow2_le; lia).
  pose proof (ulp_pos x) as Hup.
  destruct (roundHalfEven_error (x / ulp x)) as [Hlo Hhi].
  set (n := inject_Z (roundHalfEven (x / ulp x))) in *.
  assert (H52 : (2 ^ (e - 52) == 2 * 2 ^ (e - 53))%Q).
  { replace (e - 52)%Z with (1 + (e - 53))%Z by lia. by rewrite pow2_plus. }
  assert (Hd : (n * ulp x - x == (n - x / ulp x) * ulp x)%Q) by (field; lra).
  apply Qabs_Qle_condition. rewrite Hd.
  assert (H1 : ((n - x / ulp x) * ulp x <= (1 # 2) * ulp x)%Q)
    by (apply Qmult_le_compat_r; lra).
  assert (H2 : (- (1 # 2) * ulp x <= (n - x / ulp x) * ulp x)%Q)
    by (apply Qmult_le_compat_r; lra).
  split; lra.
Qed.

End JsNumberFacts.

(** ** Properties of the queryModel task *)

Module QueryModelFacts.

Import QueryModelTask.
Local Open Scope list_scope.
Local Open Scope task_scope.

Lemma emitAll_run ch ps w :
  emitAll ch ps w =
  ({| cells := cells w; promptVariants := promptVariants w;
      testScenarios := testScenarios w; modelOutputs := modelOutputs w;
      trace := trace w ++ map (WsEmit ch) ps |}, Returned tt).
Proof.
  revert w. induction ps as [|p ps IH]; intros w; simpl.
  - unfold ret. destruct w; simpl. by rewrite app_nil_r.
  - unfold bind, emit. rewrite IH. simpl. by rewrite <- app_assoc.
Qed.

Lemma callProvider_run env task prompt i w :
  callProvider env task prompt i w =
  ({| cells := cells w; promptVariants := promptVariants w;
      testScenarios := testScenarios w; modelOutputs := modelOutputs w;
      trace := trace w ++ callEvents env task prompt i |},
   Returned (response env prompt i)).
Proof.
  unfold callProvider, callEvents, response, bind, emit.
  destruct (getCompletion env _ _ i) as [ps r]. simpl.
  destruct (stream task).
  - rewrite emitAll_run. simpl. unfold ret. by rewrite <- app_assoc.
  - unfold ret. reflexivity.
Qed.

Lemma updateCell_run id d w c :
  cells w !! id = Some c ->
  updateCell id d w = (stepWorld w id (applyUpdate d c) [] [CellUpdate id d], Returned tt).
Proof.
  intros H. unfold updateCell, bind, emit, setCells, stepWorld. simpl.
  rewrite H. simpl. by rewrite app_nil_r.
Qed.

(** Observations distribute over the concatenation of traces. *)

Lemma providerCalls_app a b :
  providerCalls (a ++ b) = providerCalls a + providerCalls b.
Proof. unfold providerCalls. by rewrite List.filter_app, length_app. Qed.

Lemma cellWrites_app id a b :
  cellWrites id (a ++ b) = cellWrites id a ++ cellWrites id b.
Proof. unfold cellWrites. apply flat_map_app. Qed.

Lemma statusWrites_app id a b :
  statusWrites id (a ++ b) = statusWrites id a ++ statusWrites id b.
Proof. unfold statusWrites. by rewrite cellWrites_app, omap_app. Qed.

Lemma cellAfter_app id c a b :
  cellAfter id c (a ++ b) = cellAfter id (cellAfter id c a) b.
Proof. unfold cellAfter. by rewrite cellWrites_app, fold_left_app. Qed.

Lemma cellAtCalls_app id a : forall c b,
  cellAtCalls id c (a ++ b) = cellAtCalls id c a ++ cellAtCalls id (cellAfter id c a) b.
Proof.
  induction a as [|e a IH]; intros c b; [reflexivity|].
  destruct e as [| |id' d| | |]; simpl; rewrite ?IH; try reflexivity.
  unfold cellAfter at 2. simpl. destruct (String.eqb id' id); reflexivity.
Qed.

(** The events of a provider call hold one call and no write. *)

Lemma callEvents_calls env task prompt i :
  providerCalls (callEvents env task prompt i) = 1.
Proof.
  unfold callEvents, providerCalls. simpl. destruct (stream task); [|reflexivity].
  induction (fst _) as [|p ps IH]; [reflexivity | exact IH].
Qed.

Lemma callEvents_writes id env task prompt i :
  cellWrites id (callEvents env task prompt i) = [].
Proof.
  unfold callEvents, cellWrites. simpl. destruct (stream task); [|reflexivity].
  induction (fst _) as [|p ps IH]; [reflexivity | exact IH].
Qed.

Lemma callEvents_after id c env task prompt i :
  cellAfter id c (callEvents env task prompt i) = c.
Proof. unfold cellAfter. by rewrite callEvents_writes. Qed.

Lemma callEvents_atCalls id c env task prompt i :
  cellAtCalls id c (callEvents env task prompt i) = [c].
Proof.
  unfold callEvents. simpl. f_equal. destruct (stream task); [|reflexivity].
  induction (fst _) as [|p ps IH]; [reflexivity | exact IH].
Qed.

Lemma stepWorld_stepWorld w id c1 m1 e1 c2 m2 e2 :
  stepWorld (stepWorld w id c1 m1 e1) id c2 m2 e2 =
  stepWorld w id c2 (m1 ++ m2) (e1 ++ e2).
Proof.
  unfold stepWorld. simpl. by rewrite insert_insert_eq, <- !app_assoc.
Qed.

Lemma stepWorld_lookup w id c m e : cells (stepWorld w id c m e) !! id = Some c.
Proof. apply lookup_insert_eq. Qed.

(** *** One iteration of the loop *)

Section Iteration.

Context (env : Collaborators) (task : QueryModelJob) (variant : PromptVariant)
        (scenario : TestScenario) (prompt : ParsedPrompt).

Local Abbreviation outputOf := (outputOf env task prompt).

Lemma attemptLoop_success fuel i w c value ttc pt ct cst code :
  cells w !! cellId task = Some c ->
  response env prompt i = success value ttc pt ct cst code ->
  attemptLoop env (S fuel) task variant scenario prompt i w =
  (stepWorld w (cellId task) (applyUpdate (completeUpdate code) c)
     [outputOf value ttc pt ct cst]
     (callEvents env task prompt i
      ++ [ModelOutputCreate (outputOf value ttc pt ct cst);
          CellUpdate (cellId task) (completeUpdate code);
          RunEvals (experimentId variant) scenario (outputOf value ttc pt ct cst)]),
   Returned tt).
Proof.
  intros Hc Hr. simpl. unfold bind at 1. rewrite callProvider_run, Hr.
  unfold bind at 1. unfold createModelOutput, bind at 1, emit at 1. simpl.
  unfold bind at 1.
  erewrite updateCell_run by exact Hc.
  unfold emit, stepWorld, completeUpdate, QueryModelTask.outputOf. simpl.
  rewrite <- !app_assoc. simpl. reflexivity.
Qed.

Lemma attemptLoop_giveUp fuel i w c message code autoRetry :
  cells w !! cellId task = Some c ->
  response env prompt i = error message code autoRetry ->
  autoRetry && (i <? MAX_AUTO_RETRIES)%nat = false ->
  attemptLoop env (S fuel) task variant scenario prompt i w =
  (stepWorld w (cellId task)
     (applyUpdate (failureUpdate env i message code autoRetry) c) []
     (callEvents env task prompt i
      ++ [CellUpdate (cellId task) (failureUpdate env i message code autoRetry)]),
   Returned tt).
Proof.
  intros Hc Hr Hs. simpl. unfold bind at 1. rewrite callProvider_run, Hr.
  unfold bind at 1. erewrite updateCell_run by exact Hc.
  unfold failureUpdate. rewrite Hs.
  unfold ret, stepWorld. simpl. rewrite <- !app_assoc. reflexivity.
Qed.

Lemma attemptLoop_retry fuel i w c message code autoRetry :
  cells w !! cellId task = Some c ->
  response env prompt i = error message code autoRetry ->
  autoRetry && (i <? MAX_AUTO_RETRIES)%nat = true ->
  attemptLoop env (S fuel) task variant scenario prompt i w =
  attemptLoop env fuel task variant scenario prompt (S i)
    (stepWorld w (cellId task)
       (applyUpdate (failureUpdate env i message code autoRetry) c) []
       (callEvents env task prompt i
        ++ [CellUpdate (cellId task) (failureUpdate env i message code autoRetry);
            Sleep (calculateDelay (mathRandom env i) i)])).
Proof.
  intros Hc Hr Hs. simpl. unfold bind at 1. rewrite callProvider_run, Hr.
  unfold bind at 1. erewrite updateCell_run by exact Hc.
  unfold failureUpdate. rewrite Hs.
  unfold bind at 1, emit, stepWorld. simpl. rewrite <- !app_assoc. reflexivity.
Qed.

End Iteration.

(** *** The whole loop *)

Section Loop.

Context (env : Collaborators) (task : QueryModelJob) (variant : PromptVariant)
        (scenario : TestScenario) (prompt : ParsedPrompt).

Lemma cellWrites_update id d rest :
  cellWrites id (CellUpdate id d :: rest) = d :: cellWrites id rest.
Proof. unfold cellWrites. simpl. by rewrite String.eqb_refl. Qed.

Local Abbreviation retrySegment := (retrySegment env task prompt).

Lemma retrySegment_after i d q c :
  cellAfter (cellId task) c (retrySegment i d q) = applyUpdate d c.
Proof.
  unfold QueryModelTask.retrySegment. rewrite cellAfter_app, callEvents_after.
  unfold cellAfter. by rewrite cellWrites_update.
Qed.

Lemma retrySegment_calls i d q : providerCalls (retrySegment i d q) = 1.
Proof.
  unfold QueryModelTask.retrySegment. by rewrite providerCalls_app, callEvents_calls.
Qed.

Lemma retrySegment_status i d q :
  statusWrites (cellId task) (retrySegment i d q) =
  omap set_retrievalStatus [d].
Proof.
  unfold QueryModelTask.retrySegment, statusWrites.
  by rewrite cellWrites_app, callEvents_writes, cellWrites_update.
Qed.

Lemma retrySegment_atCalls i d q c :
  cellAtCalls (cellId task) c (retrySegment i d q) = [c].
Proof.
  unfold QueryModelTask.retrySegment. rewrite cellAtCalls_app, callEvents_atCalls. reflexivity.
Qed.

Lemma attemptLoop_run : forall fuel i w c,
  i <= MAX_AUTO_RETRIES -> MAX_AUTO_RETRIES < fuel + i ->
  cells w !! cellId task = Some c ->
  exists c' mos tr k,
    attemptLoop env fuel task variant scenario prompt i w =
      (stepWorld w (cellId task) c' mos tr, Returned tt)
    /\ cellAfter (cellId task) c tr = c'
    /\ providerCalls tr = S k
    /\ i + k <= MAX_AUTO_RETRIES
    /\ (forall j, i <= j < i + k ->
         exists m code, response env prompt j = error m code true)
    /\ match response env prompt (i + k) with
       | success _ _ _ _ _ code =>
         retrievalStatus c' = COMPLETE /\ statusCode c' = Some code
       | error m code ar =>
         (ar = false \/ i + k = MAX_AUTO_RETRIES)
         /\ retrievalStatus c' = ERROR /\ retryTime c' = None
       end
    /\ Forall (fun s => s = ERROR \/ s = COMPLETE) (statusWrites (cellId task) tr)
    /\ exists cs, cellAtCalls (cellId task) c tr = c :: cs /\ length cs = k
         /\ Forall (fun x => retrievalStatus x = ERROR /\ is_Some (retryTime x)) cs.
Proof.
  induction fuel as [|fuel IH]; intros i w c Hi Hfuel Hc; [lia|].
  destruct (response env prompt i) as [value ttc pt ct cst code|m code ar] eqn:Hr.
  - (* the attempt succeeds *)
    eexists _, _, _, 0. split; [eapply attemptLoop_success; eauto|].
    rewrite Nat.add_0_r, Hr.
    rewrite providerCalls_app, callEvents_calls, cellAfter_app, callEvents_after,
      statusWrites_app, cellAtCalls_app, callEvents_atCalls, callEvents_after.
    unfold statusWrites. rewrite callEvents_writes.
    unfold cellAfter. simpl. rewrite ?String.eqb_refl. simpl.
    split_and!; [reflexivity | reflexivity | lia | intros j Hj; lia
                | reflexivity | reflexivity | by repeat constructor |].
    exists []. by split_and!.
  - destruct (ar && (i <? MAX_AUTO_RETRIES)%nat) eqn:Hs.
    + (* a retry follows *)
      apply andb_true_iff in Hs as [-> Hlt]. apply Nat.ltb_lt in Hlt.
      erewrite attemptLoop_retry; eauto;
        [|by apply andb_true_iff; split; [|apply Nat.ltb_lt]].
      edestruct (IH (S i)) as (c' & mos & tr & k & Hrun & Hafter & Hcalls & Hk
                               & Hprev & Hlast & Hst & cs & Hcs & Hlen & Hall);
        [ lia | | apply stepWorld_lookup | ]; [lia|].
      rewrite Hrun, stepWorld_stepWorld.
      eexists c', _, _, (S k). split; [reflexivity|].
      assert (Hupd : retrievalStatus (applyUpdate (failureUpdate env i m code true) c)
                     = ERROR
                     /\ is_Some (retryTime
                          (applyUpdate (failureUpdate env i m code true) c))).
      { unfold failureUpdate. simpl.
        replace (i <? MAX_AUTO_RETRIES)%nat with true
          by (symmetry; by apply Nat.ltb_lt).
        simpl. split; [reflexivity | eauto]. }
      fold (QueryModelTask.retrySegment env task prompt i (failureUpdate env i m code true)
              (calculateDelay (mathRandom env i) i)).
      rewrite cellAfter_app, providerCalls_app, statusWrites_app,
        cellAtCalls_app, retrySegment_after, retrySegment_calls,
        retrySegment_status, retrySegment_atCalls, Hcs, Hcalls.
      replace (i + S k) with (S i + k) by lia.
      split_and!; [exact Hafter | reflexivity | lia | | exact Hlast
                  | by constructor; [left|] |].
      * intros j Hj. destruct (decide (j = i)) as [->|Hne]; [eauto|].
        apply Hprev. lia.
      * eexists. split; [reflexivity|]. split; [simpl; lia|].
        by constructor.
    + (* no retry: the loop ends *)
      eexists _, _, _, 0. split; [eapply attemptLoop_giveUp; eauto|].
      rewrite Nat.add_0_r, Hr.
      rewrite providerCalls_app, callEvents_calls, cellAfter_app, callEvents_after,
        statusWrites_app, cellAtCalls_app, callEvents_atCalls, callEvents_after.
      unfold statusWrites. rewrite callEvents_writes.
      unfold cellAfter, failureUpdate. simpl. rewrite ?String.eqb_refl, Hs. simpl.
      split_and!; [reflexivity | reflexivity | lia | intros j Hj; lia | 
                  | reflexivity | reflexivity | by repeat constructor; left |].
      * apply andb_false_iff in Hs as [Hs|Hs]; [by left|right].
        apply Nat.ltb_ge in Hs. lia.
      * exists []. by split_and!.
Qed.

(** The trace of the loop, round by round. *)
Lemma attemptLoop_rounds : forall fuel i w c,
  i <= MAX_AUTO_RETRIES -> MAX_AUTO_RETRIES < fuel + i ->
  cells w !! cellId task = Some c ->
  exists c' mos rounds,
    attemptLoop env fuel task variant scenario prompt i w =
      (stepWorld w (cellId task) c' mos
         (concat rounds
          ++ lastRound env task variant scenario prompt (i + length rounds)),
       Returned tt)
    /\ providerCalls
         (concat rounds
          ++ lastRound env task variant scenario prompt (i + length rounds))
       = S (length rounds)
    /\ forall j round, rounds !! j = Some round ->
         exists m code,
           response env prompt (i + j) = error m code true
           /\ round = retryRound env task prompt (i + j) m code.
Proof.
  assert (Hlast : forall n,
            providerCalls (lastRound env task variant scenario prompt n) = 1).
  { intros n. unfold lastRound. rewrite providerCalls_app, callEvents_calls.
    by destruct (response env prompt n). }
  induction fuel as [|fuel IH]; intros i w c Hi Hfuel Hc; [lia|].
  destruct (response env prompt i) as [value ttc pt ct cst code|m code ar] eqn:Hr.
  - (* the attempt succeeds *)
    eexists _, _, []. split_and!.
    + erewrite attemptLoop_success by eauto.
      unfold lastRound. simpl. by rewrite Nat.add_0_r, Hr.
    + simpl. apply Hlast.
    + intros j round Hj. by rewrite lookup_nil in Hj.
  - destruct (ar && (i <? MAX_AUTO_RETRIES)%nat) eqn:Hs.
    + (* a retry follows *)
      pose proof Hs as Hs'. apply andb_true_iff in Hs' as [-> Hlt].
      erewrite attemptLoop_retry by eauto.
      edestruct (IH (S i)) as (c' & mos & rounds & Hrun & Hcalls & Hrounds);
        [ apply Nat.ltb_lt in Hlt; lia | lia | apply stepWorld_lookup | ].
      rewrite Hrun, stepWorld_stepWorld.
      assert (Hupd : callEvents env task prompt i
                     ++ [CellUpdate (cellId task) (failureUpdate env i m code true);
                         Sleep (calculateDelay (mathRandom env i) i)]
                     = retryRound env task prompt i m code).
      { unfold retryRound, failureUpdate. by rewrite Hlt. }
      rewrite Hupd.
      exists c', ([] ++ mos), (retryRound env task prompt i m code :: rounds).
      replace (i + length (retryRound env task prompt i m code :: rounds))
        with (S i + length rounds) by (simpl; lia).
      split_and!.
      * by rewrite concat_cons, <- app_assoc.
      * rewrite concat_cons, <- app_assoc, providerCalls_app, Hcalls.
        unfold retryRound. rewrite providerCalls_app, callEvents_calls. reflexivity.
      * intros [|j] round Hj; simpl in Hj.
        -- injection Hj as <-. rewrite Nat.add_0_r. eauto.
        -- replace (i + S j) with (S i + j) by lia. by apply Hrounds.
    + (* no retry: the loop ends *)
      eexists _, _, []. split_and!.
      * erewrite attemptLoop_giveUp by eauto.
        unfold lastRound, failureUpdate. simpl. by rewrite Nat.add_0_r, Hr, Hs.
      * simpl. apply Hlast.
      * intros j round Hj. by rewrite lookup_nil in Hj.
Qed.

End Loop.

(** *** From pickup to the loop *)

Section Pickup.

Context (env : Collaborators) (fuel : nat) (task : QueryModelJob) (w : World).

Local Abbreviation ReachesProvider := (ReachesProvider env task w).

Lemma queryModel_pickup cell variant scenario prompt :
  ReachesProvider cell variant scenario prompt ->
  queryModel env fuel task w =
  attemptLoop env fuel task variant scenario prompt 0
    (stepWorld w (cellId task) (applyUpdate inProgressUpdate cell) []
       [CellUpdate (cellId task) inProgressUpdate]).
Proof.
  intros (Hc & Hp & Hv & Hs & Hprompt).
  unfold queryModel, bind at 1, findUniqueCell. rewrite Hc, Hp. simpl.
  unfold bind at 1. erewrite updateCell_run by exact Hc.
  unfold bind at 1, findUniqueVariant. simpl. rewrite Hv.
  unfold bind at 1, findUniqueScenario. simpl. rewrite Hs, Hprompt.
  reflexivity.
Qed.

(** What a run that reaches the provider does, with enough fuel for the
    eleven iterations the loop can make. *)
Lemma queryModel_run cell variant scenario prompt :
  ReachesProvider cell variant scenario prompt ->
  MAX_AUTO_RETRIES < fuel ->
  exists w' c' tr k,
    queryModel env fuel task w = (w', Returned tt)
    /\ trace w' = trace w ++ CellUpdate (cellId task) inProgressUpdate :: tr
    /\ cells w' = <[cellId task := c']> (cells w)
    /\ providerCalls tr = S k
    /\ k <= MAX_AUTO_RETRIES
    /\ (forall j, j < k -> exists m code, response env prompt j = error m code true)
    /\ match response env prompt k with
       | success _ _ _ _ _ code =>
         retrievalStatus c' = COMPLETE /\ statusCode c' = Some code
       | error m code ar =>
         (ar = false \/ k = MAX_AUTO_RETRIES)
         /\ retrievalStatus c' = ERROR /\ retryTime c' = None
       end
    /\ Forall (fun s => s = ERROR \/ s = COMPLETE) (statusWrites (cellId task) tr)
    /\ exists cs,
         cellAtCalls (cellId task) (applyUpdate inProgressUpdate cell) tr
         = applyUpdate inProgressUpdate cell :: cs
         /\ length cs = k
         /\ Forall (fun x => retrievalStatus x = ERROR /\ is_Some (retryTime x)) cs.
Proof.
  intros Hreach Hfuel. rewrite (queryModel_pickup _ _ _ _ Hreach).
  edestruct (attemptLoop_run env task variant scenario prompt fuel 0)
    as (c' & mos & tr & k & Hrun & Hafter & Hcalls & Hk & Hprev & Hlast & Hst & Hcs);
    [lia | lia | apply stepWorld_lookup |].
  rewrite Hrun, stepWorld_stepWorld.
  exists (stepWorld w (cellId task) c' ([] ++ mos)
            ([CellUpdate (cellId task) inProgressUpdate] ++ tr)), c', tr, k.
  split_and!; try done.
  intros j Hj. apply Hprev. lia.
Qed.

End Pickup.

(** *** The properties *)

(** C1.  With a provider that answers every call with an auto-retryable
    error, a run that picks up a pending cell and reaches the provider
    calls it exactly 11 times (the first attempt and [MAX_AUTO_RETRIES]
    retries), returns, and leaves the cell with [retrievalStatus = ERROR]
    and [retryTime = null]. *)
Theorem always_retryable_makes_eleven_calls
    env fuel task w cell variant scenario prompt :
  ReachesProvider env task w cell variant scenario prompt ->
  (forall i, exists m code, response env prompt i = error m code true) ->
  MAX_AUTO_RETRIES < fuel ->
  exists w' tr c',
    queryModel env fuel task w = (w', Returned tt)
    /\ trace w' = trace w ++ tr
    /\ providerCalls tr = 11
    /\ cells w' !! cellId task = Some c'
    /\ retrievalStatus c' = ERROR
    /\ retryTime c' = None.
Proof.
  intros Hreach Hprov Hfuel.
  destruct (queryModel_run env fuel task w _ _ _ _ Hreach Hfuel)
    as (w' & c' & tr & k & Hrun & Htr & Hcells & Hcalls & Hk & _ & Hlast & _).
  destruct (Hprov k) as (m & code & Hk'). rewrite Hk' in Hlast.
  destruct Hlast as ([Hf | ->] & Hst & Hrt); [discriminate|].
  exists w', (CellUpdate (cellId task) inProgressUpdate :: tr), c'.
  split_and!; try done.
  rewrite Hcells. apply lookup_insert_eq.
Qed.

Lemma always_retryable_makes_eleven_calls_witness :
  exists w' tr c',
    queryModel Sample.alwaysRateLimited 11 Sample.job
      (Sample.world (Sample.cell PENDING None)) = (w', Returned tt)
    /\ trace w' = [] ++ tr
    /\ providerCalls tr = 11
    /\ cells w' !! "cell-1" = Some c'
    /\ retrievalStatus c' = ERROR
    /\ retryTime c' = None.
Proof.
  apply (always_retryable_makes_eleven_calls Sample.alwaysRateLimited 11
           Sample.job (Sample.world (Sample.cell PENDING None))
           (Sample.cell PENDING None) Sample.variant Sample.scenario
           Sample.prompt).
  - repeat split; reflexivity.
  - intros i. eexists _, _. reflexivity.
  - unfold MAX_AUTO_RETRIES. lia.
Defined.

(** C2, as the code has it.  In a run that picks up a pending cell and
    reaches the provider, the failed attempt number [j] (counted from 0) is
    followed by another provider call exactly when the provider marked the
    failure auto-retryable and [j < MAX_AUTO_RETRIES], that is when at most
    10 attempts have been made, the failed one included.  The run makes
    between 1 and 11 calls, and when its last attempt failed the cell is
    left in ERROR with [retryTime = null]. *)
Theorem retry_iff_autoRetry_and_budget
    env fuel task w cell variant scenario prompt :
  ReachesProvider env task w cell variant scenario prompt ->
  MAX_AUTO_RETRIES < fuel ->
  exists w' tr,
    queryModel env fuel task w = (w', Returned tt)
    /\ trace w' = trace w ++ tr
    /\ 1 <= providerCalls tr <= S MAX_AUTO_RETRIES
    /\ (forall j m code ar,
         j < providerCalls tr ->
         response env prompt j = error m code ar ->
         (S j < providerCalls tr <-> ar = true /\ j < MAX_AUTO_RETRIES))
    /\ (forall m code ar,
         response env prompt (providerCalls tr - 1) = error m code ar ->
         exists c', cells w' !! cellId task = Some c'
                    /\ retrievalStatus c' = ERROR /\ retryTime c' = None).
Proof.
  intros Hreach Hfuel.
  destruct (queryModel_run env fuel task w _ _ _ _ Hreach Hfuel)
    as (w' & c' & tr & k & Hrun & Htr & Hcells & Hcalls & Hk & Hprev & Hlast & _).
  exists w', (CellUpdate (cellId task) inProgressUpdate :: tr).
  assert (Hn : providerCalls (CellUpdate (cellId task) inProgressUpdate :: tr) = S k)
    by exact Hcalls.
  rewrite Hn. split_and!; [done | done | lia | lia | |].
  - intros j m code ar Hj Hr. destruct (decide (j = k)) as [->|Hne].
    + rewrite Hr in Hlast. destruct Hlast as ([-> | ->] & _).
      * split; [lia | intros [? _]; discriminate].
      * split; lia.
    + destruct (Hprev j) as (m' & code' & Hr'); [lia|].
      rewrite Hr in Hr'. injection Hr' as _ _ ->. split; [|lia].
      intros _. split; [reflexivity | lia].
  - intros m code ar Hr. replace (S k - 1) with k in Hr by lia.
    rewrite Hr in Hlast. destruct Hlast as (_ & Hst & Hrt).
    exists c'. split_and!; try done. rewrite Hcells. apply lookup_insert_eq.
Qed.

Lemma retry_iff_autoRetry_and_budget_witness :
  exists w' tr,
    queryModel Sample.rateLimitedOnce 11 Sample.job
      (Sample.world (Sample.cell PENDING None)) = (w', Returned tt)
    /\ trace w' = [] ++ tr
    /\ 1 <= providerCalls tr <= S MAX_AUTO_RETRIES
    /\ (forall j m code ar,
         j < providerCalls tr ->
         response Sample.rateLimitedOnce Sample.prompt j = error m code ar ->
         (S j < providerCalls tr <-> ar = true /\ j < MAX_AUTO_RETRIES))
    /\ (forall m code ar,
         response Sample.rateLimitedOnce Sample.prompt (providerCalls tr - 1)
         = error m code ar ->
         exists c', cells w' !! "cell-1" = Some c'
                    /\ retrievalStatus c' = ERROR /\ retryTime c' = None).
Proof.
  apply (retry_iff_autoRetry_and_budget Sample.rateLimitedOnce 11 Sample.job
           (Sample.world (Sample.cell PENDING None))
           (Sample.cell PENDING None) Sample.variant Sample.scenario
           Sample.prompt).
  - repeat split; reflexivity.
  - unfold MAX_AUTO_RETRIES. lia.
Defined.

(** C2, as the specification words it, fails: with a provider that is
    always rate limited the attempts 0 to 9 are ten consecutive
    auto-retryable failures, ten attempts have then been made, which is
    not strictly less than 10, and still an eleventh call follows. *)
Lemma tenth_failure_is_retried :
  let calls :=
    providerCalls
      (trace (queryModel Sample.alwaysRateLimited 11 Sample.job
                (Sample.world (Sample.cell PENDING None))).1) in
  (forall j, j < 10 ->
     response Sample.alwaysRateLimited Sample.prompt j = error "Rate limit reached" 429 true)
  /\ 10 < calls
  /\ ~ (forall j m code ar,
          response Sample.alwaysRateLimited Sample.prompt j = error m code ar ->
          S j < calls ->
          ar = true /\ S j < MAX_AUTO_RETRIES).
Proof.
  assert (Hcalls :
    providerCalls
      (trace (queryModel Sample.alwaysRateLimited 11 Sample.job
                (Sample.world (Sample.cell PENDING None))).1) = 11)
    by (vm_compute; reflexivity).
  cbv zeta. rewrite Hcalls. split_and!.
  - intros j _. reflexivity.
  - lia.
  - intros H. destruct (H 9 "Rate limit reached" 429%Z true) as [_ Hlt];
      [reflexivity | lia |]. unfold MAX_AUTO_RETRIES in Hlt. lia.
Qed.

(** *** The retry delay *)

Lemma baseDelay_nonneg (i : nat) :
  (0 <= Qmin MAX_DELAY (MIN_DELAY * 2 ^ Z.of_nat i))%Q.
Proof.
  apply Q.min_glb; [by unfold MAX_DELAY|].
  apply Qmult_le_0_compat; [by unfold MIN_DELAY|].
  by apply Qpower_0_le.
Qed.

Lemma baseDelay_capped (i : nat) :
  5 <= i -> (Qmin MAX_DELAY (MIN_DELAY * 2 ^ Z.of_nat i) == MAX_DELAY)%Q.
Proof.
  intros Hi. apply Q.min_l.
  assert (H : (2 ^ 5 <= 2 ^ Z.of_nat i)%Q) by (apply JsNumberFacts.pow2_le; lia).
  change (2 ^ 5)%Q with 32%Q in H. unfold MAX_DELAY, MIN_DELAY. lra.
Qed.

(** Computing the base delay in doubles loses nothing: up to 8000 the
    power of two and its product with [MIN_DELAY] are doubles, and from
    there on [Math.min] returns [MAX_DELAY]. *)
Lemma baseDelay_exact (i : nat) :
  (Qmin MAX_DELAY (JsNumber.mul MIN_DELAY (JsNumber.pow 2 i))
   == Qmin MAX_DELAY (MIN_DELAY * 2 ^ Z.of_nat i))%Q.
Proof.
  destruct (le_lt_dec 5 i) as [Hi|Hi].
  - rewrite (baseDelay_capped i Hi). apply Q.min_l.
    unfold JsNumber.mul, JsNumber.pow.
    assert (H32 : (32 <= JsNumber.roundDouble (2 ^ Z.of_nat i))%Q).
    { assert (H : (JsNumber.roundDouble (2 ^ 5) == 32)%Q) by (vm_compute; reflexivity).
      rewrite <- H. apply JsNumberFacts.roundDouble_le; [by vm_compute|].
      apply JsNumberFacts.pow2_le. lia. }
    assert (H16 : (JsNumber.roundDouble 16000 == 16000)%Q) by (vm_compute; reflexivity).
    apply Qle_trans with (JsNumber.roundDouble 16000); [rewrite H16; by unfold MAX_DELAY|].
    apply JsNumberFacts.roundDouble_le; [by vm_compute|]. unfold MIN_DELAY. lra.
  - destruct i as [|[|[|[|[|i]]]]]; [vm_compute; reflexivity..|lia].
Qed.

(** The base delay and its double are doubles. *)
Lemma baseDelay_representable (i : nat) :
  let base := Qmin MAX_DELAY (MIN_DELAY * 2 ^ Z.of_nat i) in
  (JsNumber.roundDouble base == base)%Q
  /\ (JsNumber.roundDouble (2 * base) == 2 * base)%Q.
Proof.
  cbv zeta. destruct (le_lt_dec 5 i) as [Hi|Hi].
  - pose proof (baseDelay_capped i Hi) as Hb.
    rewrite (JsNumberFacts.roundDouble_compat _ _ Hb).
    assert (H2 : (2 * Qmin MAX_DELAY (MIN_DELAY * 2 ^ Z.of_nat i) == 2 * MAX_DELAY)%Q)
      by (by rewrite Hb).
    rewrite (JsNumberFacts.roundDouble_compat _ _ H2), Hb.
    split; vm_compute; reflexivity.
  - destruct i as [|[|[|[|[|i]]]]]; [split; vm_compute; reflexivity..|lia].
Qed.

(** The delay is the rounded sum of the base delay and the rounded
    jitter. *)
Lemma calculateDelay_rounded (r : Q) (i : nat) :
  let base := Qmin MAX_DELAY (MIN_DELAY * 2 ^ Z.of_nat i) in
  (calculateDelay r i
   == JsNumber.roundDouble (base + JsNumber.roundDouble (r * base)))%Q.
Proof.
  cbv zeta. unfold calculateDelay, JsNumber.add.
  apply JsNumberFacts.roundDouble_compat.
  apply Qplus_comp; [apply baseDelay_exact|].
  unfold JsNumber.mul at 1. apply JsNumberFacts.roundDouble_compat.
  apply Qmult_comp; [reflexivity | apply baseDelay_exact].
Qed.

(** The rounded jitter lies between 0 and the base delay. *)
Lemma jitter_bounds (r : Q) (i : nat) :
  (0 <= r)%Q -> (r < 1)%Q ->
  let base := Qmin MAX_DELAY (MIN_DELAY * 2 ^ Z.of_nat i) in
  (0 <= JsNumber.roundDouble (r * base))%Q
  /\ (JsNumber.roundDouble (r * base) <= base)%Q.
Proof.
  intros H0 H1. cbv zeta.
  pose proof (baseDelay_nonneg i) as Hb.
  destruct (baseDelay_representable i) as [Hrep _].
  set (base := Qmin MAX_DELAY (MIN_DELAY * 2 ^ Z.of_nat i)) in *.
  assert (Hj0 : (0 <= r * base)%Q) by (by apply Qmult_le_0_compat).
  assert (Hj1 : (r * base <= 1 * base)%Q)
    by (apply Qmult_le_compat_r; [by apply Qlt_le_weak | exact Hb]).
  split; [by apply JsNumberFacts.roundDouble_nonneg|].
  rewrite <- Hrep at 2. apply JsNumberFacts.roundDouble_le; lra.
Qed.

Lemma calculateDelay_bounds (r : Q) (i : nat) :
  (0 <= r)%Q -> (r < 1)%Q ->
  (Qmin MAX_DELAY (MIN_DELAY * 2 ^ Z.of_nat i) <= calculateDelay r i)%Q
  /\ (calculateDelay r i <= 2 * Qmin MAX_DELAY (MIN_DELAY * 2 ^ Z.of_nat i))%Q.
Proof.
  intros H0 H1. rewrite (calculateDelay_rounded r i).
  pose proof (baseDelay_nonneg i) as Hb.
  destruct (baseDelay_representable i) as [Hrep Hrep2].
  destruct (jitter_bounds r i H0 H1) as [Hj0 Hj1].
  set (base := Qmin MAX_DELAY (MIN_DELAY * 2 ^ Z.of_nat i)) in *.
  split.
  - rewrite <- Hrep at 1. apply JsNumberFacts.roundDouble_le; lra.
  - rewrite <- Hrep2. apply JsNumberFacts.roundDouble_le; lra.
Qed.

(** C3, as the code has it.  For a jitter sample [r] in [0, 1) the delay
    before the retry that follows attempt [i] lies between
    [min(15000, 500 * 2^i)] and twice that value, both included.  It is
    computed in doubles and differs from [min(15000, 500 * 2^i) * (1 + r)]
    by at most [2^-38] milliseconds: the product [r * base] is rounded, and
    so is its sum with the base delay. *)
Theorem calculateDelay_range_up_to_rounding (i : nat) (r : Q) :
  (0 <= r)%Q -> (r < 1)%Q ->
  let base := Qmin 15000 (500 * 2 ^ Z.of_nat i) in
  (calculateDelay r i
   == JsNumber.roundDouble (base + JsNumber.roundDouble (r * base)))%Q
  /\ (base <= calculateDelay r i)%Q
  /\ (calculateDelay r i <= 2 * base)%Q
  /\ (Qabs (calculateDelay r i - base * (1 + r)) <= 1 # 2 ^ 38)%Q.
Proof.
  intros H0 H1. cbv zeta.
  change (Qmin 15000 (500 * 2 ^ Z.of_nat i))%Q
    with (Qmin MAX_DELAY (MIN_DELAY * 2 ^ Z.of_nat i))%Q.
  destruct (calculateDelay_bounds r i H0 H1) as [Hlo Hhi].
  split_and!; [apply calculateDelay_rounded | exact Hlo | exact Hhi |].
  rewrite (calculateDelay_rounded r i).
  pose proof (baseDelay_nonneg i) as Hb.
  destruct (jitter_bounds r i H0 H1) as [Hj0 Hj1].
  assert (Hcap : (Qmin MAX_DELAY (MIN_DELAY * 2 ^ Z.of_nat i) <= 15000)%Q)
    by apply Q.le_min_l.
  set (base := Qmin MAX_DELAY (MIN_DELAY * 2 ^ Z.of_nat i)) in *.
  assert (Hp0 : (0 <= r * base)%Q) by (by apply Qmult_le_0_compat).
  assert (Hp1 : (r * base <= 1 * base)%Q)
    by (apply Qmult_le_compat_r; [by apply Qlt_le_weak | exact Hb]).
  assert (E14 : (2 ^ (13 + 1) == 16384)%Q) by reflexivity.
  assert (E15 : (2 ^ (14 + 1) == 32768)%Q) by reflexivity.
  assert (E40 : (2 ^ (13 - 53) == 1 # 2 ^ 40)%Q) by reflexivity.
  assert (E39 : (2 ^ (14 - 53) == 1 # 2 ^ 39)%Q) by reflexivity.
  pose proof (JsNumberFacts.roundDouble_error (r * base) 13 Hp0
                ltac:(rewrite E14; lra) ltac:(lia)) as Hjit.
  pose proof (JsNumberFacts.roundDouble_error
                (base + JsNumber.roundDouble (r * base)) 14
                ltac:(lra) ltac:(rewrite E15; lra) ltac:(lia)) as Hsum.
  rewrite E40 in Hjit. rewrite E39 in Hsum.
  apply Qabs_Qle_condition in Hjit as [Hjit1 Hjit2].
  apply Qabs_Qle_condition in Hsum as [Hsum1 Hsum2].
  set (jitter := JsNumber.roundDouble (r * base)) in *.
  set (delay := JsNumber.roundDouble (base + jitter)) in *.
  assert (E38 : ((1 # 2 ^ 39) + (1 # 2 ^ 40) <= 1 # 2 ^ 38)%Q) by (by vm_compute).
  apply Qabs_Qle_condition. split; lra.
Qed.

Lemma calculateDelay_range_up_to_rounding_witness :
  let base := Qmin 15000 (500 * 2 ^ Z.of_nat 3) in
  (calculateDelay (5 # 8) 3
   == JsNumber.roundDouble (base + JsNumber.roundDouble ((5 # 8) * base)))%Q
  /\ (base <= calculateDelay (5 # 8) 3)%Q
  /\ (calculateDelay (5 # 8) 3 <= 2 * base)%Q
  /\ (Qabs (calculateDelay (5 # 8) 3 - base * (1 + (5 # 8))) <= 1 # 2 ^ 38)%Q.
Proof.
  apply (calculateDelay_range_up_to_rounding 3 (5 # 8)); [discriminate | reflexivity].
Defined.

(** C3, as the specification words it, fails: the delay is not always
    [min(15000, 500 * 2^i) * (1 + r)].  The sample [1 - 2^-53] is the
    largest double below 1; at [i = 0] the product [r * 500] rounds to
    [500 - 2^-44], its sum with 500 lies half-way between two doubles and
    rounds to 1000, which is twice the base delay, while
    [500 * (1 + r)] is [1000 - 500 * 2^-53]. *)
Lemma calculateDelay_is_not_the_exact_product :
  let r := (1 - (1 # 2 ^ 53))%Q in
  (0 <= r)%Q /\ (r < 1)%Q
  /\ (JsNumber.roundDouble r == r)%Q
  /\ (JsNumber.mul r 500 == 500 - (1 # 2 ^ 44))%Q
  /\ (calculateDelay r 0 == 1000)%Q
  /\ (Qmin 15000 (500 * 2 ^ Z.of_nat 0) * (1 + r) == 1000 - (500 # 2 ^ 53))%Q
  /\ ~ (calculateDelay r 0 == Qmin 15000 (500 * 2 ^ Z.of_nat 0) * (1 + r))%Q.
Proof.
  cbv zeta. split_and!; try (vm_compute; reflexivity); try (by vm_compute).
Qed.

(** C4.  When the cell exists and is not pending at pickup the task
    returns at once and leaves the world as it found it: no provider call,
    no update, an unchanged cell. *)
Theorem not_pending_is_left_alone env fuel task w cell :
  cells w !! cellId task = Some cell ->
  retrievalStatus cell <> PENDING ->
  queryModel env fuel task w = (w, Returned tt)
  /\ providerCalls (trace (queryModel env fuel task w).1) = providerCalls (trace w)
  /\ cellWrites (cellId task) (trace (queryModel env fuel task w).1)
     = cellWrites (cellId task) (trace w)
  /\ cells (queryModel env fuel task w).1 !! cellId task = Some cell.
Proof.
  intros Hc Hp.
  assert (Hrun : queryModel env fuel task w = (w, Returned tt)).
  { unfold queryModel, bind, findUniqueCell. rewrite Hc.
    destruct (retrievalStatus cell); [congruence | reflexivity..]. }
  rewrite Hrun. by split_and!.
Qed.

Lemma not_pending_is_left_alone_witness :
  let w := Sample.world (Sample.cell IN_PROGRESS None) in
  queryModel Sample.alwaysRateLimited 11 Sample.job w = (w, Returned tt)
  /\ providerCalls (trace (queryModel Sample.alwaysRateLimited 11 Sample.job w).1)
     = providerCalls (trace w)
  /\ cellWrites "cell-1" (trace (queryModel Sample.alwaysRateLimited 11 Sample.job w).1)
     = cellWrites "cell-1" (trace w)
  /\ cells (queryModel Sample.alwaysRateLimited 11 Sample.job w).1 !! "cell-1"
     = Some (Sample.cell IN_PROGRESS None).
Proof.
  apply (not_pending_is_left_alone Sample.alwaysRateLimited 11 Sample.job
           (Sample.world (Sample.cell IN_PROGRESS None))
           (Sample.cell IN_PROGRESS None)).
  - reflexivity.
  - discriminate.
Defined.

(** C7, as the code has it.  A run that picks up a pending cell and
    reaches the provider writes IN_PROGRESS once, at pickup, and then goes
    through its retry rounds and a last round.  In a retry round the
    provider call (with its partial outputs) is followed by exactly one
    update of the cell, which records the failure, sets [retrievalStatus]
    to ERROR and schedules [retryTime], and then by one sleep of the
    computed delay; the next provider call follows at once.  So the
    statuses written after pickup are ERROR or COMPLETE, never PENDING and
    never IN_PROGRESS again: the first call finds the cell IN_PROGRESS,
    and every retry call finds it in ERROR with the scheduled [retryTime]
    still set. *)
Theorem retries_run_in_error_status
    env fuel task w cell variant scenario prompt :
  ReachesProvider env task w cell variant scenario prompt ->
  MAX_AUTO_RETRIES < fuel ->
  exists w' tr rounds later first retries,
    queryModel env fuel task w = (w', Returned tt)
    /\ trace w' = trace w ++ tr
    /\ tr = CellUpdate (cellId task)
              {| set_statusCode := None; set_errorMessage := None;
                 set_retryTime := None; set_retrievalStatus := Some IN_PROGRESS |}
            :: concat rounds
            ++ lastRound env task variant scenario prompt (length rounds)
    /\ (forall j round, rounds !! j = Some round ->
          exists m code,
            response env prompt j = error m code true
            /\ round =
               callEvents env task prompt j
               ++ [CellUpdate (cellId task)
                     {| set_statusCode := Some (Some code);
                        set_errorMessage := Some (Some m);
                        set_retryTime :=
                          Some (Some (newDate
                                        (JsNumber.add (inject_Z (dateNow env j))
                                           (calculateDelay (mathRandom env j) j))));
                        set_retrievalStatus := Some ERROR |};
                   Sleep (calculateDelay (mathRandom env j) j)])
    /\ statusWrites (cellId task) tr = IN_PROGRESS :: later
    /\ Forall (fun s => s = ERROR \/ s = COMPLETE) later
    /\ cellAtCalls (cellId task) cell tr = first :: retries
    /\ retrievalStatus first = IN_PROGRESS
    /\ length retries = length rounds
    /\ S (length retries) = providerCalls tr
    /\ Forall (fun c => retrievalStatus c = ERROR /\ is_Some (retryTime c)) retries.
Proof.
  intros Hreach Hfuel.
  destruct (queryModel_run env fuel task w _ _ _ _ Hreach Hfuel)
    as (w' & c' & tr & k & Hrun & Htr & _ & Hcalls & _ & _ & _ & Hst
        & cs & Hcs & Hlen & Hall).
  (* the same run, round by round *)
  pose proof Hrun as Hrun'. rewrite (queryModel_pickup _ _ _ _ _ _ _ _ Hreach) in Hrun'.
  edestruct (attemptLoop_rounds env task variant scenario prompt fuel 0)
    as (c'' & mos & rounds & Hloop & Hcount & Hrounds);
    [lia | lia | apply stepWorld_lookup |].
  rewrite Hloop, stepWorld_stepWorld in Hrun'. injection Hrun' as Hw.
  assert (Htr' : tr = concat rounds
                      ++ lastRound env task variant scenario prompt (length rounds)).
  { rewrite <- Hw in Htr. simpl in Htr. apply app_inv_head in Htr.
    injection Htr as Htr. by symmetry. }
  simpl in Hcount. rewrite <- Htr', Hcalls in Hcount. injection Hcount as Hk.
  exists w', (CellUpdate (cellId task) inProgressUpdate :: tr), rounds,
    (statusWrites (cellId task) tr), (applyUpdate inProgressUpdate cell), cs.
  split_and!; try done.
  - unfold inProgressUpdate. by rewrite Htr'.
  - unfold statusWrites. by rewrite cellWrites_update.
  - simpl. by rewrite String.eqb_refl.
  - rewrite Hlen. congruence.
  - rewrite Hlen. symmetry. exact Hcalls.
Qed.

Lemma retries_run_in_error_status_witness :
  exists w' tr rounds later first retries,
    queryModel Sample.rateLimitedOnce 11 Sample.job
      (Sample.world (Sample.cell PENDING None)) = (w', Returned tt)
    /\ trace w' = [] ++ tr
    /\ tr = CellUpdate "cell-1"
              {| set_statusCode := None; set_errorMessage := None;
                 set_retryTime := None; set_retrievalStatus := Some IN_PROGRESS |}
            :: concat rounds
            ++ lastRound Sample.rateLimitedOnce Sample.job Sample.variant
                 Sample.scenario Sample.prompt (length rounds)
    /\ (forall j round, rounds !! j = Some round ->
          exists m code,
            response Sample.rateLimitedOnce Sample.prompt j = error m code true
            /\ round =
               callEvents Sample.rateLimitedOnce Sample.job Sample.prompt j
               ++ [CellUpdate "cell-1"
                     {| set_statusCode := Some (Some code);
                        set_errorMessage := Some (Some m);
                        set_retryTime :=
                          Some (Some (newDate
                                        (JsNumber.add
                                           (inject_Z (dateNow Sample.rateLimitedOnce j))
                                           (calculateDelay
                                              (mathRandom Sample.rateLimitedOnce j) j))));
                        set_retrievalStatus := Some ERROR |};
                   Sleep (calculateDelay (mathRandom Sample.rateLimitedOnce j) j)])
    /\ statusWrites "cell-1" tr = IN_PROGRESS :: later
    /\ Forall (fun s => s = ERROR \/ s = COMPLETE) later
    /\ cellAtCalls "cell-1" (Sample.cell PENDING None) tr = first :: retries
    /\ retrievalStatus first = IN_PROGRESS
    /\ length retries = length rounds
    /\ S (length retries) = providerCalls tr
    /\ Forall (fun c => retrievalStatus c = ERROR /\ is_Some (retryTime c)) retries.
Proof.
  apply (retries_run_in_error_status Sample.rateLimitedOnce 11 Sample.job
           (Sample.world (Sample.cell PENDING None))
           (Sample.cell PENDING None) Sample.variant Sample.scenario
           Sample.prompt).
  - repeat split; reflexivity.
  - unfold MAX_AUTO_RETRIES. lia.
Defined.

(** C7, as the specification words it, fails: with a provider that is
    rate limited once and then answers, the statuses written are
    IN_PROGRESS, ERROR, COMPLETE, with no PENDING and no second
    IN_PROGRESS, and the retry call finds the cell in ERROR. *)
Lemma retry_call_finds_error_not_in_progress :
  let tr := trace (queryModel Sample.rateLimitedOnce 11 Sample.job
                     (Sample.world (Sample.cell PENDING None))).1 in
  statusWrites "cell-1" tr = [IN_PROGRESS; ERROR; COMPLETE]
  /\ map retrievalStatus (cellAtCalls "cell-1" (Sample.cell PENDING None) tr)
     = [IN_PROGRESS; ERROR]
  /\ ~ Forall (fun c => retrievalStatus c = IN_PROGRESS)
        (cellAtCalls "cell-1" (Sample.cell PENDING None) tr).
Proof.
  cbv zeta. split_and!.
  - vm_compute. reflexivity.
  - vm_compute. reflexivity.
  - intros H. apply (Forall_fmap retrievalStatus (fun s => s = IN_PROGRESS)) in H.
    revert H. 
    assert (Hm : map retrievalStatus
              (cellAtCalls "cell-1" (Sample.cell PENDING None)
                 (trace (queryModel Sample.rateLimitedOnce 11 Sample.job
                           (Sample.world (Sample.cell PENDING None))).1))
            = [IN_PROGRESS; ERROR]) by (vm_compute; reflexivity).
    change (@fmap list _ _ _ retrievalStatus) with (map retrievalStatus).
    rewrite Hm. intros H. inversion H as [|? ? _ H']. inversion H' as [|? ? Hbad _].
    discriminate.
Qed.

(** C9.  On each of the four terminal paths (missing cell, missing prompt
    variant, missing scenario, prompt that cannot be constructed) the task
    calls no provider, its last update carries exactly [statusCode],
    [errorMessage] and [retrievalStatus = ERROR], no update of the run
    carries [retryTime], and no cell's [retryTime] changes.  When the cell
    exists it ends in ERROR with the [retryTime] it had at pickup, which
    may be a stale non-null value. *)
Theorem terminal_paths_keep_retryTime env fuel task w code msg :
  TerminalPath env task w code msg ->
  exists w' out tr,
    queryModel env fuel task w = (w', out)
    /\ trace w' = trace w ++ tr
    /\ providerCalls tr = 0
    /\ last (cellWrites (cellId task) tr) = Some (terminalError code msg)
    /\ Forall (fun d => set_retryTime d = None) (cellWrites (cellId task) tr)
    /\ (forall id, retryTime <$> cells w' !! id = retryTime <$> cells w !! id)
    /\ (forall cell, cells w !! cellId task = Some cell ->
         out = Returned tt
         /\ cells w' !! cellId task =
            Some {| retrievalStatus := ERROR;
                    statusCode := Some code;
                    errorMessage := Some msg;
                    retryTime := retryTime cell;
                    promptVariantId := promptVariantId cell;
                    testScenarioId := testScenarioId cell |}).
Proof.
  intros Hpath.
  assert (Hframe : forall (cell c' : ScenarioVariantCell) id,
             cells w !! cellId task = Some cell ->
             retryTime c' = retryTime cell ->
             retryTime <$> <[cellId task := c']> (cells w) !! id
             = retryTime <$> cells w !! id).
  { intros cell c' id Hc Hrt. destruct (decide (cellId task = id)) as [<-|Hne].
    - rewrite lookup_insert_eq, Hc. simpl. by rewrite Hrt.
    - by rewrite lookup_insert_ne. }
  destruct Hpath as [Hc | cell Hc Hp Hv | cell variant Hc Hp Hv Hs
                    | cell variant scenario err Hc Hp Hv Hs Herr].
  - (* the cell is missing: the update is rejected *)
    eexists _, _, [CellUpdate (cellId task) (terminalError 404 "Cell not found")].
    split_and!.
    + unfold queryModel, bind at 1, findUniqueCell. rewrite Hc.
      unfold updateCell, bind, emit. simpl. rewrite Hc. reflexivity.
    + reflexivity.
    + reflexivity.
    + by rewrite cellWrites_update.
    + rewrite cellWrites_update. by repeat constructor.
    + reflexivity.
    + intros cell Hcell. congruence.
  - (* the prompt variant is missing *)
    eexists _, _, [CellUpdate (cellId task) inProgressUpdate;
                   CellUpdate (cellId task) (terminalError 404 "Prompt Variant not found")].
    split_and!.
    + unfold queryModel, bind at 1, findUniqueCell. rewrite Hc, Hp. simpl.
      unfold bind at 1. erewrite updateCell_run by exact Hc.
      unfold bind at 1, findUniqueVariant. simpl. rewrite Hv.
      erewrite updateCell_run by apply stepWorld_lookup.
      rewrite stepWorld_stepWorld. reflexivity.
    + reflexivity.
    + reflexivity.
    + by rewrite !cellWrites_update.
    + rewrite !cellWrites_update. by repeat constructor.
    + intros id. simpl. by apply (Hframe cell).
    + intros cell' Hcell. assert (cell' = cell) as -> by congruence.
      split; [reflexivity|]. simpl. by rewrite lookup_insert_eq.
  - (* the scenario is missing *)
    eexists _, _, [CellUpdate (cellId task) inProgressUpdate;
                   CellUpdate (cellId task) (terminalError 404 "Scenario not found")].
    split_and!.
    + unfold queryModel, bind at 1, findUniqueCell. rewrite Hc, Hp. simpl.
      unfold bind at 1. erewrite updateCell_run by exact Hc.
      unfold bind at 1, findUniqueVariant. simpl. rewrite Hv.
      unfold bind at 1, findUniqueScenario. simpl. rewrite Hs.
      erewrite updateCell_run by apply stepWorld_lookup.
      rewrite stepWorld_stepWorld. reflexivity.
    + reflexivity.
    + reflexivity.
    + by rewrite !cellWrites_update.
    + rewrite !cellWrites_update. by repeat constructor.
    + intros id. simpl. by apply (Hframe cell).
    + intros cell' Hcell. assert (cell' = cell) as -> by congruence.
      split; [reflexivity|]. simpl. by rewrite lookup_insert_eq.
  - (* the prompt cannot be constructed *)
    eexists _, _, [CellUpdate (cellId task) inProgressUpdate;
                   CellUpdate (cellId task) (terminalError 400 err)].
    split_and!.
    + unfold queryModel, bind at 1, findUniqueCell. rewrite Hc, Hp. simpl.
      unfold bind at 1. erewrite updateCell_run by exact Hc.
      unfold bind at 1, findUniqueVariant. simpl. rewrite Hv.
      unfold bind at 1, findUniqueScenario. simpl. rewrite Hs, Herr.
      erewrite updateCell_run by apply stepWorld_lookup.
      rewrite stepWorld_stepWorld. reflexivity.
    + reflexivity.
    + reflexivity.
    + by rewrite !cellWrites_update.
    + rewrite !cellWrites_update. by repeat constructor.
    + intros id. simpl. by apply (Hframe cell).
    + intros cell' Hcell. assert (cell' = cell) as -> by congruence.
      split; [reflexivity|]. simpl. by rewrite lookup_insert_eq.
Qed.

Lemma terminal_paths_keep_retryTime_witness :
  let w := Sample.worldWithoutVariant (Sample.cell PENDING (Some 1700000000750%Z)) in
  exists w' out tr,
    queryModel Sample.alwaysRateLimited 11 Sample.job w = (w', out)
    /\ trace w' = trace w ++ tr
    /\ providerCalls tr = 0
    /\ last (cellWrites "cell-1" tr)
       = Some (terminalError 404 "Prompt Variant not found")
    /\ Forall (fun d => set_retryTime d = None) (cellWrites "cell-1" tr)
    /\ (forall id, retryTime <$> cells w' !! id = retryTime <$> cells w !! id)
    /\ (forall cell, cells w !! "cell-1" = Some cell ->
         out = Returned tt
         /\ cells w' !! "cell-1" =
            Some {| retrievalStatus := ERROR;
                    statusCode := Some 404%Z;
                    errorMessage := Some "Prompt Variant not found";
                    retryTime := retryTime cell;
                    promptVariantId := promptVariantId cell;
                    testScenarioId := testScenarioId cell |}).
Proof.
  apply (terminal_paths_keep_retryTime Sample.alwaysRateLimited 11 Sample.job
           (Sample.worldWithoutVariant (Sample.cell PENDING (Some 1700000000750%Z)))
           404 "Prompt Variant not found").
  apply (VariantMissing _ _ _ (Sample.cell PENDING (Some 1700000000750%Z)));
    reflexivity.
Defined.

(** A non-null [retryTime] does outlive the retry it scheduled: after one
    rate-limited attempt and a successful one the cell is COMPLETE and
    still carries the time of the retry. *)
Example retryTime_survives_success :
  cells (queryModel Sample.rateLimitedOnce 11 Sample.job
           (Sample.world (Sample.cell PENDING None))).1 !! "cell-1"
  = Some {| retrievalStatus := COMPLETE;
            statusCode := Some 200%Z;
            errorMessage := Some "Rate limit reached";
            retryTime := Some 1700000000750%Z;
            promptVariantId := "variant-1";
            testScenarioId := "scenario-1" |}.
Proof. vm_compute. reflexivity. Qed.

(** When that cell is queued again after its variant has been deleted,
    the next run ends in ERROR and the stale time is still there. *)
Example stale_retryTime_in_terminal_error :
  let first := (queryModel Sample.rateLimitedOnce 11 Sample.job
                  (Sample.world (Sample.cell PENDING None))).1 in
  let queued := (updateCell "cell-1" queuedUpdate first).1 in
  cells (queryModel Sample.rateLimitedOnce 11 Sample.job
           (Sample.dropVariants queued)).1 !! "cell-1"
  = Some {| retrievalStatus := ERROR;
            statusCode := Some 404%Z;
            errorMessage := Some "Prompt Variant not found";
            retryTime := Some 1700000000750%Z;
            promptVariantId := "variant-1";
            testScenarioId := "scenario-1" |}.
Proof. vm_compute. reflexivity. Qed.

End QueryModelFacts.

(** ** Properties of updateCached and llmRelabelProperties *)

Module NodesFacts.

Import Nodes.
Local Open Scope list_scope.

Lemma NodeEntryStatus_eqb_eq a b : NodeEntryStatus_eqb a b = true <-> a = b.
Proof. destruct a, b; simpl; split; congruence. Qed.

Lemma sqlEq_true a b : sqlEq a b = true <-> is_Some a /\ a = b.
Proof.
  destruct a as [x|], b as [y|]; simpl; rewrite ?String.eqb_eq.
  - split; [intros ->; eauto | intros [_ [= ->]]; reflexivity].
  - split; [discriminate | intros [_ [=]]].
  - split; [discriminate | intros [[? [=]] _]].
  - split; [discriminate | intros [[? [=]] _]].
Qed.

Lemma includes_In fields f : includes fields f = true <-> In f fields.
Proof.
  unfold includes. rewrite existsb_exists. split.
  - intros (x & Hx & Heq). apply String.eqb_eq in Heq. by subst.
  - intros H. exists f. split; [exact H | apply String.eqb_refl].
Qed.

Section Query.

Context (node : Node) (matchFields writeFields : list string).

(** The WHERE clause the builder ends with. *)
Lemma processCachedQuery_conditions :
  conditions (processCachedQuery node matchFields writeFields) =
  [ (fun _ cpne => sqlEq (nodeHash cpne) (Some (hash node))
                   || sqlEq (cpne_nodeId cpne) (Some (node_id node)));
    (fun ne _ => String.eqb (nodeId ne) (node_id node));
    (fun ne _ => NodeEntryStatus_eqb (status ne) PENDING) ]
  ++ (if includes matchFields "nodeEntryPersistentId"
      then [fun ne cpne => sqlEq (Some (persistentId ne)) (nodeEntryPersistentId cpne)]
      else [])
  ++ (if includes matchFields "incomingInputHash"
      then [fun ne cpne => sqlEq (inputHash ne) (incomingInputHash cpne)]
      else [])
  ++ (if includes matchFields "incomingOutputHash"
      then [fun ne cpne => sqlEq (outputHash ne) (incomingOutputHash cpne)]
      else []).
Proof.
  unfold processCachedQuery, when.
  destruct (includes writeFields "outgoingInputHash"),
    (includes writeFields "outgoingOutputHash"),
    (includes writeFields "outgoingSplit"),
    (includes matchFields "nodeEntryPersistentId"),
    (includes matchFields "incomingInputHash"),
    (includes matchFields "incomingOutputHash"); reflexivity.
Qed.

(** The SET clause amounts to the declared writes. *)
Lemma assign_cacheWrite ne c :
  assign (processCachedQuery node matchFields writeFields) ne c
  = cacheWrite writeFields ne c.
Proof.
  unfold assign, processCachedQuery, when, cacheWrite.
  destruct (includes writeFields "outgoingInputHash"),
    (includes writeFields "outgoingOutputHash"),
    (includes writeFields "outgoingSplit"),
    (includes matchFields "nodeEntryPersistentId"),
    (includes matchFields "incomingInputHash"),
    (includes matchFields "incomingOutputHash"); reflexivity.
Qed.

Lemma optional_condition (b : bool)
    (f : NodeEntry -> CachedProcessedEntry -> bool) ne c :
  forallb (fun cond => cond ne c) (if b then [f] else []) = true
  <-> (b = true -> f ne c = true).
Proof.
  destruct b; simpl; [rewrite andb_true_r|]; split; auto; discriminate.
Qed.

Lemma selected_iff ne c :
  selected (processCachedQuery node matchFields writeFields) ne c = true
  <-> nodeId ne = node_id node /\ status ne = PENDING
      /\ CacheMatch node matchFields ne c.
Proof.
  unfold selected. rewrite processCachedQuery_conditions, !forallb_app.
  rewrite !andb_true_iff, !optional_condition, !includes_In, !sqlEq_true.
  simpl. rewrite !andb_true_iff, orb_true_iff, !sqlEq_true, String.eqb_eq,
    NodeEntryStatus_eqb_eq.
  unfold CacheMatch, fieldMatches.
  split.
  - intros ((Hkey & Hnode & Hst & _) & Hp & Hi & Ho).
    split_and!; try done.
    + destruct Hkey as [[_ H]|[_ H]]; [by left | by right].
    + intros f Hf. split_and!; intros ->.
      * by destruct (Hp Hf) as [_ <-].
      * by destruct (Hi Hf) as [? <-].
      * by destruct (Ho Hf) as [? <-].
  - intros (Hnode & Hst & Hkey & Hf). split_and!; try done.
    + destruct Hkey as [H|H]; [left | right]; rewrite H; eauto.
    + intros H. apply Hf in H as (E & _ & _). rewrite E; eauto.
    + intros H. apply Hf in H as (_ & E & _). destruct E as [? E]; [done|].
      by rewrite E.
    + intros H. apply Hf in H as (_ & _ & E). destruct E as [? E]; [done|].
      by rewrite E.
Qed.

End Query.

(** For [llmRelabelProperties] the protocol reads: a record keyed by the
    node's hash or id whose [incomingInputHash] is the entry's [inputHash];
    the entry takes the record's [outgoingOutputHash] and keeps its former
    [outputHash] as [originalOutputHash]. *)

Lemma llmRelabel_cacheMatch node ne c :
  CacheMatch node ["incomingInputHash"] ne c
  <-> (nodeHash c = Some (hash node) \/ cpne_nodeId c = Some (node_id node))
      /\ is_Some (inputHash ne) /\ incomingInputHash c = inputHash ne.
Proof.
  unfold CacheMatch, fieldMatches. split.
  - intros (Hkey & Hf). split; [exact Hkey|].
    destruct (Hf "incomingInputHash") as (_ & H & _); [by left|]. by apply H.
  - intros (Hkey & Hin). split; [exact Hkey|].
    intros f [<-|[]]. split_and!; [discriminate | done | discriminate].
Qed.

Lemma llmRelabel_cacheWrite ne c :
  cacheWrite ["outgoingOutputHash"] ne c
  = {| id := id ne; nodeId := nodeId ne; persistentId := persistentId ne;
       status := PROCESSED; inputHash := inputHash ne;
       outputHash := outgoingOutputHash c;
       originalOutputHash := outputHash ne; split := split ne |}.
Proof. reflexivity. Qed.

(** C5.  For a node kind that declares cache-match fields [matchFields]
    and cache-write fields [writeFields], [updateCached] rewrites exactly
    the cache hits: a pending entry of the node for which some cache record
    matches (keyed by the node's hash or id, equal on every declared match
    field) becomes PROCESSED with the declared write fields of a matching
    record; every other entry is left as it was.  The cache table is not
    changed and the row transform is not invoked. *)
Theorem updateCached_rewrites_cache_hits
    nodePropertiesByType node matchFields writeFields w :
  cacheMatchFields (nodePropertiesByType (type node)) = Some matchFields ->
  cacheWriteFields (nodePropertiesByType (type node)) = Some writeFields ->
  Forall2
    (fun ne ne' =>
       (CacheHit node matchFields (cachedProcessedEntries w) ne
        /\ status ne' = PROCESSED
        /\ exists c, In c (cachedProcessedEntries w)
                     /\ CacheMatch node matchFields ne c
                     /\ ne' = cacheWrite writeFields ne c)
       \/ (~ CacheHit node matchFields (cachedProcessedEntries w) ne /\ ne' = ne))
    (nodeEntries w)
    (nodeEntries (updateCached nodePropertiesByType node w))
  /\ cachedProcessedEntries (updateCached nodePropertiesByType node w)
     = cachedProcessedEntries w
  /\ events (updateCached nodePropertiesByType node w) = events w.
Proof.
  intros Hm Hw. unfold updateCached. rewrite Hm, Hw. unfold execute. simpl.
  split_and!; [|reflexivity..].
  induction (nodeEntries w) as [|ne rows IH]; simpl; constructor; [|exact IH].
  destruct (find _ _) as [c|] eqn:Hfind.
  - apply find_some in Hfind as [Hin Hsel].
    apply selected_iff in Hsel as (Hnode & Hst & Hmatch).
    left. rewrite assign_cacheWrite. split_and!.
    + split_and!; eauto.
    + reflexivity.
    + eauto.
  - right. split; [|reflexivity].
    intros (Hnode & Hst & c & Hin & Hmatch).
    pose proof (find_none _ _ Hfind c Hin) as Hsel.
    assert (selected (processCachedQuery node matchFields writeFields) ne c = true)
      as Hyes by (by apply selected_iff).
    congruence.
Qed.

Lemma updateCached_rewrites_cache_hits_witness :
  Forall2
    (fun ne ne' =>
       (CacheHit (NodeSample.relabelNode (RelabelWith "gpt-4")) ["incomingInputHash"]
          (cachedProcessedEntries NodeSample.world) ne
        /\ status ne' = PROCESSED
        /\ exists c, In c (cachedProcessedEntries NodeSample.world)
                     /\ CacheMatch (NodeSample.relabelNode (RelabelWith "gpt-4"))
                          ["incomingInputHash"] ne c
                     /\ ne' = cacheWrite ["outgoingOutputHash"] ne c)
       \/ (~ CacheHit (NodeSample.relabelNode (RelabelWith "gpt-4")) ["incomingInputHash"]
               (cachedProcessedEntries NodeSample.world) ne
           /\ ne' = ne))
    (nodeEntries NodeSample.world)
    (nodeEntries (updateCached NodeSample.registry
                    (NodeSample.relabelNode (RelabelWith "gpt-4")) NodeSample.world))
  /\ cachedProcessedEntries
       (updateCached NodeSample.registry (NodeSample.relabelNode (RelabelWith "gpt-4"))
          NodeSample.world)
     = cachedProcessedEntries NodeSample.world
  /\ events (updateCached NodeSample.registry (NodeSample.relabelNode (RelabelWith "gpt-4"))
               NodeSample.world)
     = events NodeSample.world.
Proof.
  apply (updateCached_rewrites_cache_hits NodeSample.registry
           (NodeSample.relabelNode (RelabelWith "gpt-4"))
           ["incomingInputHash"] ["outgoingOutputHash"] NodeSample.world);
    reflexivity.
Defined.

(** On the sample table: the entries whose input hash is cached under the
    node's hash or id are rewritten, the one cached under another node's
    keys, the one in ERROR and the one of another node are not. *)
Example updateCached_sample :
  map (fun ne => (id ne, status ne, outputHash ne, originalOutputHash ne))
    (nodeEntries (updateCached NodeSample.registry
                    (NodeSample.relabelNode (RelabelWith "gpt-4")) NodeSample.world))
  = [ ("e1", PROCESSED, Some "out-a", Some "out-old");
      ("e2", PENDING, Some "out-old", Some "out-original");
      ("e3", ERROR, Some "out-old", Some "out-original");
      ("e4", PENDING, Some "out-old", Some "out-original");
      ("e5", PROCESSED, Some "out-c", Some "out-old") ].
Proof. vm_compute. reflexivity. Qed.

(** C10.  When a node kind declares only one of [cacheMatchFields] and
    [cacheWriteFields], or neither, [updateCached] runs no statement: the
    world, and so every row of every node, is unchanged. *)
Theorem updateCached_without_both_declarations nodePropertiesByType node w :
  cacheMatchFields (nodePropertiesByType (type node)) = None
  \/ cacheWriteFields (nodePropertiesByType (type node)) = None ->
  updateCached nodePropertiesByType node w = w.
Proof.
  intros [H|H]; unfold updateCached; rewrite H;
    [|destruct (cacheMatchFields _)]; reflexivity.
Qed.

Lemma updateCached_without_both_declarations_witness :
  updateCached NodeSample.matchOnly (NodeSample.relabelNode (RelabelWith "gpt-4"))
    NodeSample.world
  = NodeSample.world.
Proof.
  apply (updateCached_without_both_declarations NodeSample.matchOnly
           (NodeSample.relabelNode (RelabelWith "gpt-4")) NodeSample.world).
  right. reflexivity.
Defined.

(** C8.  With the skip-relabel option [beforeProcessing] marks every
    pending entry of the node PROCESSED, leaving its other columns as they
    were, and changes no other entry: an entry of another node or in
    another status is the same row afterwards.  It does so without an
    invocation of [processEntry] or of the model, and without touching the
    cache. *)
Theorem beforeProcessing_skip_marks_pending_processed node w :
  relabelLLM (config node) = SkipRelabel ->
  Forall2
    (fun ne ne' =>
       (nodeId ne = node_id node /\ status ne = PENDING
        /\ status ne' = PROCESSED
        /\ ne' = {| id := id ne; nodeId := nodeId ne;
                    persistentId := persistentId ne; status := PROCESSED;
                    inputHash := inputHash ne; outputHash := outputHash ne;
                    originalOutputHash := originalOutputHash ne;
                    split := split ne |})
       \/ (~ (nodeId ne = node_id node /\ status ne = PENDING) /\ ne' = ne))
    (nodeEntries w) (nodeEntries (beforeProcessing node w))
  /\ Forall (fun ne' => nodeId ne' = node_id node -> status ne' <> PENDING)
       (nodeEntries (beforeProcessing node w))
  /\ cachedProcessedEntries (beforeProcessing node w) = cachedProcessedEntries w
  /\ events (beforeProcessing node w) = events w.
Proof.
  intros Hskip. unfold beforeProcessing. rewrite Hskip. simpl.
  split_and!; [| |reflexivity..].
  - induction (nodeEntries w) as [|ne rows IH]; simpl; constructor; [|exact IH].
    destruct (String.eqb (nodeId ne) (node_id node)) eqn:Hn;
      [destruct (NodeEntryStatus_eqb (status ne) PENDING) eqn:Hs|]; simpl.
    + left. apply String.eqb_eq in Hn. apply NodeEntryStatus_eqb_eq in Hs. done.
    + right. split; [|reflexivity]. intros [_ H].
      apply NodeEntryStatus_eqb_eq in H. congruence.
    + right. split; [|reflexivity]. intros [H _].
      apply String.eqb_eq in H. congruence.
  - induction (nodeEntries w) as [|ne rows IH]; simpl; constructor; [|exact IH].
    destruct (String.eqb (nodeId ne) (node_id node)) eqn:Hn;
      [destruct (NodeEntryStatus_eqb (status ne) PENDING) eqn:Hs|]; simpl.
    + discriminate.
    + intros _ H. apply NodeEntryStatus_eqb_eq in H. congruence.
    + intros H. apply String.eqb_eq in H. congruence.
Qed.

Lemma beforeProcessing_skip_marks_pending_processed_witness :
  Forall2
    (fun ne ne' =>
       (nodeId ne = "node-1" /\ status ne = PENDING
        /\ status ne' = PROCESSED
        /\ ne' = {| id := id ne; nodeId := nodeId ne;
                    persistentId := persistentId ne; status := PROCESSED;
                    inputHash := inputHash ne; outputHash := outputHash ne;
                    originalOutputHash := originalOutputHash ne;
                    split := split ne |})
       \/ (~ (nodeId ne = "node-1" /\ status ne = PENDING) /\ ne' = ne))
    (nodeEntries NodeSample.world)
    (nodeEntries (beforeProcessing (NodeSample.relabelNode SkipRelabel) NodeSample.world))
  /\ Forall (fun ne' => nodeId ne' = "node-1" -> status ne' <> PENDING)
       (nodeEntries (beforeProcessing (NodeSample.relabelNode SkipRelabel)
                       NodeSample.world))
  /\ cachedProcessedEntries (beforeProcessing (NodeSample.relabelNode SkipRelabel)
                               NodeSample.world)
     = cachedProcessedEntries NodeSample.world
  /\ events (beforeProcessing (NodeSample.relabelNode SkipRelabel) NodeSample.world)
     = events NodeSample.world.
Proof.
  apply (beforeProcessing_skip_marks_pending_processed
           (NodeSample.relabelNode SkipRelabel) NodeSample.world).
  reflexivity.
Defined.

Example beforeProcessing_sample :
  map (fun ne => (id ne, status ne))
    (nodeEntries (beforeProcessing (NodeSample.relabelNode SkipRelabel) NodeSample.world))
  = [ ("e1", PROCESSED); ("e2", PROCESSED); ("e3", ERROR);
      ("e4", PENDING); ("e5", PROCESSED) ].
Proof. vm_compute. reflexivity. Qed.

(** C6.  For a node that relabels with a model: when the model call
    throws an [APIError] with status 429 the transform returns status
    PENDING with an error message, not ERROR; when it throws any other
    error the transform returns status ERROR with the error message; when
    it answers with a completion the transform returns status PROCESSED
    with the message of the completion.  An error is a thrown value other
    than [undefined] and [null]. *)
Theorem processEntry_outcomes getOpenaiCompletion node entry w model :
  relabelLLM (config node) = RelabelWith model ->
  let answer := getOpenaiCompletion (projectId node) (requestFor model entry) in
  let result := (processEntry getOpenaiCompletion node entry w).2 in
  (forall e, answer = inl (ThrownValue e) ->
     isAPIError e = true -> caught_status e = Some 429%Z ->
     result = Resolves (ResultPending (default "Rate limited" (caught_message e)))
     /\ outcomeStatus result = Some PENDING)
  /\ (forall e, answer = inl (ThrownValue e) ->
       ~ (isAPIError e = true /\ caught_status e = Some 429%Z) ->
       result = Resolves (ResultError (entry_id entry)
                            (default "Unknown error" (caught_message e)))
       /\ outcomeStatus result = Some ERROR)
  /\ (forall completion m, answer = inr completion ->
       head (choices completion) ≫= message = Some m ->
       result = Resolves (ResultProcessed m)
       /\ outcomeStatus result = Some PROCESSED).
Proof.
  intros Hmodel answer result. subst answer result.
  unfold processEntry, completionMessage. rewrite Hmodel.
  split_and!.
  - intros e -> Hapi Hst. simpl. rewrite Hapi, bool_decide_eq_true_2 by exact Hst.
    simpl. by split.
  - intros e -> Hnot. simpl.
    destruct (isAPIError e) eqn:Hapi; simpl; [|by split].
    rewrite bool_decide_eq_false_2; [by split|].
    intros Hst. apply Hnot. by split.
  - intros completion m -> Hm. simpl. rewrite Hm. by split.
Qed.

Lemma processEntry_outcomes_witness :
  let getOpenaiCompletion := fun (_ : string) (_ : CompletionRequest) =>
    inl (ThrownValue NodeSample.rateLimit) : Thrown + ChatCompletion in
  let node := NodeSample.relabelNode (RelabelWith "gpt-4") in
  let answer := getOpenaiCompletion (projectId node)
                  (requestFor "gpt-4" NodeSample.toProcess) in
  let result := (processEntry getOpenaiCompletion node NodeSample.toProcess
                   NodeSample.world).2 in
  (forall e, answer = inl (ThrownValue e) ->
     isAPIError e = true -> caught_status e = Some 429%Z ->
     result = Resolves (ResultPending (default "Rate limited" (caught_message e)))
     /\ outcomeStatus result = Some PENDING)
  /\ (forall e, answer = inl (ThrownValue e) ->
       ~ (isAPIError e = true /\ caught_status e = Some 429%Z) ->
       result = Resolves (ResultError (entry_id NodeSample.toProcess)
                            (default "Unknown error" (caught_message e)))
       /\ outcomeStatus result = Some ERROR)
  /\ (forall completion m, answer = inr completion ->
       head (choices completion) ≫= message = Some m ->
       result = Resolves (ResultProcessed m)
       /\ outcomeStatus result = Some PROCESSED).
Proof.
  apply (processEntry_outcomes
           (fun _ _ => inl (ThrownValue NodeSample.rateLimit))
           (NodeSample.relabelNode (RelabelWith "gpt-4")) NodeSample.toProcess
           NodeSample.world "gpt-4").
  reflexivity.
Defined.

(** The three outcomes on sample answers of the model. *)

Example processEntry_rate_limited :
  (processEntry (fun _ _ => inl (ThrownValue NodeSample.rateLimit))
     (NodeSample.relabelNode (RelabelWith "gpt-4")) NodeSample.toProcess NodeSample.world).2
  = Resolves (ResultPending "429 Rate limit reached").
Proof. reflexivity. Qed.

Example processEntry_server_error :
  (processEntry
     (fun _ _ => inl (ThrownValue {| isAPIError := true; caught_status := Some 500%Z;
                                     caught_message := Some "500 Internal error" |}))
     (NodeSample.relabelNode (RelabelWith "gpt-4")) NodeSample.toProcess NodeSample.world).2
  = Resolves (ResultError "e1" "500 Internal error").
Proof. reflexivity. Qed.

Example processEntry_completed :
  (processEntry
     (fun _ _ => inr {| choices := [ {| message := Some "relabeled" |} ] |})
     (NodeSample.relabelNode (RelabelWith "gpt-4")) NodeSample.toProcess NodeSample.world).2
  = Resolves (ResultProcessed "relabeled").
Proof. reflexivity. Qed.

(** An answer without a first message is turned into a thrown error, and
    so into status ERROR. *)
Lemma processEntry_no_completion getOpenaiCompletion node entry w model completion :
  relabelLLM (config node) = RelabelWith model ->
  getOpenaiCompletion (projectId node) (requestFor model entry) = inr completion ->
  head (choices completion) ≫= message = None ->
  (processEntry getOpenaiCompletion node entry w).2
  = Resolves (ResultError (entry_id entry) "No completion returned").
Proof.
  intros Hmodel Hanswer Hnone.
  unfold processEntry, completionMessage. rewrite Hmodel.
  simpl. rewrite Hanswer, Hnone. reflexivity.
Qed.

(** With the skip option the transform calls no model and hands back the
    entry's own output. *)
Lemma processEntry_skip getOpenaiCompletion node entry w :
  relabelLLM (config node) = SkipRelabel ->
  processEntry getOpenaiCompletion node entry w
  = (log (ProcessEntryCall (entry_id entry)) w,
     Resolves (ResultProcessed (output entry))).
Proof.
  intros Hskip. unfold processEntry, completionMessage. by rewrite Hskip.
Qed.

End NodesFacts.

(** ** Further properties of the queryModel task *)

Module QueryModelRunFacts.

Import QueryModelTask QueryModelTrace QueryModelFacts.
Local Open Scope list_scope.
Local Open Scope task_scope.

(** *** An induction rule for the loop *)

Section LoopRule.

Context (env : Collaborators) (task : QueryModelJob) (variant : PromptVariant)
        (scenario : TestScenario) (prompt : ParsedPrompt).

(** [P i c c' mos tr]: started at iteration [i] on cell [c], the loop
    leaves the cell as [c'], stores [mos] and emits [tr]. *)
Context (P : nat -> ScenarioVariantCell -> ScenarioVariantCell ->
             list ModelOutput -> list Event -> Prop).

Context (Psuccess : forall i c value ttc pt ct cst code,
  i <= MAX_AUTO_RETRIES ->
  response env prompt i = success value ttc pt ct cst code ->
  P i c (applyUpdate (completeUpdate code) c)
    [outputOf env task prompt value ttc pt ct cst]
    (callEvents env task prompt i
     ++ [ModelOutputCreate (outputOf env task prompt value ttc pt ct cst);
         CellUpdate (cellId task) (completeUpdate code);
         RunEvals (experimentId variant) scenario
           (outputOf env task prompt value ttc pt ct cst)])).

Context (PgiveUp : forall i c m code ar,
  i <= MAX_AUTO_RETRIES ->
  response env prompt i = error m code ar ->
  ar && (i <? MAX_AUTO_RETRIES)%nat = false ->
  P i c (applyUpdate (failureUpdate env i m code ar) c) []
    (callEvents env task prompt i
     ++ [CellUpdate (cellId task) (failureUpdate env i m code ar)])).

Context (Pretry : forall i c m code c' mos tr,
  i < MAX_AUTO_RETRIES ->
  response env prompt i = error m code true ->
  P (S i) (applyUpdate (failureUpdate env i m code true) c) c' mos tr ->
  P i c c' mos
    (retrySegment env task prompt i (failureUpdate env i m code true)
       (delayOf env i) ++ tr)).

Lemma attemptLoop_rule : forall fuel i w c,
  i <= MAX_AUTO_RETRIES -> MAX_AUTO_RETRIES < fuel + i ->
  cells w !! cellId task = Some c ->
  exists c' mos tr,
    attemptLoop env fuel task variant scenario prompt i w =
      (stepWorld w (cellId task) c' mos tr, Returned tt)
    /\ P i c c' mos tr.
Proof.
  induction fuel as [|fuel IH]; intros i w c Hi Hfuel Hc; [lia|].
  destruct (response env prompt i) as [value ttc pt ct cst code|m code ar] eqn:Hr.
  - eexists _, _, _. split; [eapply attemptLoop_success; eauto|]. by apply Psuccess.
  - destruct (ar && (i <? MAX_AUTO_RETRIES)%nat) eqn:Hs.
    + apply andb_true_iff in Hs as [-> Hlt]. apply Nat.ltb_lt in Hlt.
      erewrite attemptLoop_retry; eauto;
        [|by apply andb_true_iff; split; [|apply Nat.ltb_lt]].
      edestruct (IH (S i)) as (c' & mos & tr & Hrun & HP);
        [ lia | | apply stepWorld_lookup | ]; [lia|].
      rewrite Hrun, stepWorld_stepWorld.
      eexists c', mos, _. split; [reflexivity|].
      by apply Pretry.
    + eexists _, _, _. split; [eapply attemptLoop_giveUp; eauto|]. by apply PgiveUp.
Qed.

End LoopRule.

(** *** What the observations see of the trace segments *)

Lemma sleeps_app a b : sleeps (a ++ b) = sleeps a ++ sleeps b.
Proof. apply omap_app. Qed.

Lemma wsEmits_app a b : wsEmits (a ++ b) = wsEmits a ++ wsEmits b.
Proof. apply omap_app. Qed.

Lemma updatedCells_app a b : updatedCells (a ++ b) = updatedCells a ++ updatedCells b.
Proof. apply omap_app. Qed.

Lemma evalRuns_app a b : evalRuns (a ++ b) = evalRuns a ++ evalRuns b.
Proof. apply omap_app. Qed.

Section Segments.

Context (env : Collaborators) (task : QueryModelJob) (prompt : ParsedPrompt).

Lemma callEvents_sleeps i : sleeps (callEvents env task prompt i) = [].
Proof.
  unfold callEvents, sleeps. simpl. destruct (stream task); [|reflexivity].
  induction (fst _) as [|p ps IH]; [reflexivity | exact IH].
Qed.

Lemma callEvents_updatedCells i : updatedCells (callEvents env task prompt i) = [].
Proof.
  unfold callEvents, updatedCells. simpl. destruct (stream task); [|reflexivity].
  induction (fst _) as [|p ps IH]; [reflexivity | exact IH].
Qed.

Lemma callEvents_evalRuns i : evalRuns (callEvents env task prompt i) = [].
Proof.
  unfold callEvents, evalRuns. simpl. destruct (stream task); [|reflexivity].
  induction (fst _) as [|p ps IH]; [reflexivity | exact IH].
Qed.

Lemma callEvents_wsEmits i :
  wsEmits (callEvents env task prompt i) =
  if stream task then map (pair (cellId task)) (partialsOf env prompt i) else [].
Proof.
  unfold callEvents, wsEmits, partialsOf. simpl. destruct (stream task); [|reflexivity].
  induction (fst _) as [|p ps IH]; [reflexivity | simpl; by rewrite IH].
Qed.

End Segments.

(** *** The facts of a loop run *)

Section Facts.

Context (env : Collaborators) (task : QueryModelJob) (variant : PromptVariant)
        (scenario : TestScenario) (prompt : ParsedPrompt).

Lemma facts_success i c value ttc pt ct cst code :
  i <= MAX_AUTO_RETRIES ->
  response env prompt i = success value ttc pt ct cst code ->
  LoopFacts env task prompt i c (applyUpdate (completeUpdate code) c)
    [outputOf env task prompt value ttc pt ct cst]
    (callEvents env task prompt i
     ++ [ModelOutputCreate (outputOf env task prompt value ttc pt ct cst);
         CellUpdate (cellId task) (completeUpdate code);
         RunEvals (experimentId variant) scenario
           (outputOf env task prompt value ttc pt ct cst)]).
Proof.
  intros Hi Hr.
  set (tr := callEvents env task prompt i ++ _).
  assert (Hn : providerCalls tr = 1)
    by (unfold tr; by rewrite providerCalls_app, callEvents_calls).
  constructor; rewrite ?Hn; replace (i + 1 - 1) with i by lia.
  - unfold MAX_AUTO_RETRIES in *. lia.
  - intros j Hj. lia.
  - unfold tr. rewrite cellAfter_app, callEvents_after.
    unfold cellAfter. simpl. by rewrite String.eqb_refl.
  - unfold tr. rewrite updatedCells_app, callEvents_updatedCells. simpl.
    by repeat constructor.
  - by split.
  - unfold tr. by rewrite sleeps_app, callEvents_sleeps.
  - unfold tr. rewrite wsEmits_app, callEvents_wsEmits. simpl.
    destruct (stream task); by rewrite !app_nil_r.
  - rewrite Hr. unfold tr. rewrite evalRuns_app, callEvents_evalRuns. by split_and!.
  - intros v' ttc' pt' ct' cst' code' _. split; [by intros _|lia].
Qed.

Lemma facts_giveUp i c m code ar :
  i <= MAX_AUTO_RETRIES ->
  response env prompt i = error m code ar ->
  ar && (i <? MAX_AUTO_RETRIES)%nat = false ->
  LoopFacts env task prompt i c (applyUpdate (failureUpdate env i m code ar) c) []
    (callEvents env task prompt i
     ++ [CellUpdate (cellId task) (failureUpdate env i m code ar)]).
Proof.
  intros Hi Hr Hs.
  set (tr := callEvents env task prompt i ++ _).
  assert (Hn : providerCalls tr = 1)
    by (unfold tr; by rewrite providerCalls_app, callEvents_calls).
  constructor; rewrite ?Hn; replace (i + 1 - 1) with i by lia.
  - unfold MAX_AUTO_RETRIES in *. lia.
  - intros j Hj. lia.
  - unfold tr. rewrite cellAfter_app, callEvents_after.
    unfold cellAfter. simpl. by rewrite String.eqb_refl.
  - unfold tr. rewrite updatedCells_app, callEvents_updatedCells. simpl.
    by repeat constructor.
  - by split.
  - unfold tr. by rewrite sleeps_app, callEvents_sleeps.
  - unfold tr. rewrite wsEmits_app, callEvents_wsEmits. simpl.
    destruct (stream task); by rewrite !app_nil_r.
  - rewrite Hr. unfold tr. rewrite evalRuns_app, callEvents_evalRuns.
    unfold failureUpdate. rewrite Hs. simpl. split_and!; try done.
    apply andb_false_iff in Hs as [Hs|Hs]; [by left|right].
    apply Nat.ltb_ge in Hs. unfold MAX_AUTO_RETRIES in *. lia.
  - intros v' ttc' pt' ct' cst' code' Hr'. congruence.
Qed.

Lemma facts_retry i c m code c' mos tr :
  i < MAX_AUTO_RETRIES ->
  response env prompt i = error m code true ->
  LoopFacts env task prompt (S i)
    (applyUpdate (failureUpdate env i m code true) c) c' mos tr ->
  LoopFacts env task prompt i c c' mos
    (retrySegment env task prompt i (failureUpdate env i m code true)
       (delayOf env i) ++ tr).
Proof.
  intros Hi Hr [[Hn1 Hn2] Hbefore Hcell Hids [Hk1 Hk2] Hsl Hws Hlast Hstale].
  set (n := providerCalls tr) in *.
  assert (Hn : providerCalls
                 (retrySegment env task prompt i (failureUpdate env i m code true)
                    (delayOf env i) ++ tr) = S n)
    by (by rewrite providerCalls_app, retrySegment_calls).
  assert (Hlt : (i <? MAX_AUTO_RETRIES)%nat = true) by (by apply Nat.ltb_lt).
  constructor; rewrite ?Hn.
  - lia.
  - intros j Hj. destruct (decide (j = i)) as [->|Hne]; [eauto|].
    apply Hbefore. lia.
  - by rewrite cellAfter_app, retrySegment_after.
  - unfold retrySegment.
    rewrite !updatedCells_app, callEvents_updatedCells. simpl. by constructor.
  - rewrite Hk1, Hk2. by split.
  - unfold retrySegment. rewrite !sleeps_app, callEvents_sleeps, Hsl. simpl.
    replace (n - 0) with (S (n - 1)) by lia. reflexivity.
  - unfold retrySegment. rewrite !wsEmits_app, callEvents_wsEmits, Hws. simpl.
    destruct (stream task); [|reflexivity]. by rewrite app_nil_r.
  - replace (i + S n - 1) with (S i + n - 1) by lia.
    replace (i + S n) with (S i + n) by lia.
    unfold retrySegment. rewrite !evalRuns_app, callEvents_evalRuns. simpl.
    exact Hlast.
  - intros v ttc pt ct cst code' Hr'.
    replace (i + S n - 1) with (S i + n - 1) in Hr' by lia.
    destruct (Hstale _ _ _ _ _ _ Hr') as [H1 H2]. split; [lia|]. intros _.
    replace (i + S n - 2) with (S i + n - 2) by lia.
    destruct (decide (n = 1)) as [Hone|Hmany].
    + destruct (H1 Hone) as [He Ht]. exists m, code.
      replace (S i + n - 2) with i by lia.
      rewrite He, Ht. unfold failureUpdate. simpl. rewrite Hlt. by split_and!.
    + apply H2. lia.
Qed.

Lemma attemptLoop_facts fuel i w c :
  i <= MAX_AUTO_RETRIES -> MAX_AUTO_RETRIES < fuel + i ->
  cells w !! cellId task = Some c ->
  exists c' mos tr,
    attemptLoop env fuel task variant scenario prompt i w =
      (stepWorld w (cellId task) c' mos tr, Returned tt)
    /\ LoopFacts env task prompt i c c' mos tr.
Proof.
  apply (attemptLoop_rule env task variant scenario prompt
           (LoopFacts env task prompt)).
  - apply facts_success.
  - apply facts_giveUp.
  - apply facts_retry.
Qed.

End Facts.

(** *** The four ways a run can go *)

Section Anatomy.

Context (env : Collaborators) (fuel : nat) (task : QueryModelJob) (w : World).

Lemma queryModel_missing_cell :
  cells w !! cellId task = None ->
  queryModel env fuel task w =
  ({| cells := cells w; promptVariants := promptVariants w;
      testScenarios := testScenarios w; modelOutputs := modelOutputs w;
      trace := trace w
               ++ [CellUpdate (cellId task) (terminalError 404 "Cell not found")] |},
   Thrown (RecordNotFound "ScenarioVariantCell" (cellId task))).
Proof.
  intros Hc. unfold queryModel, bind at 1, findUniqueCell. rewrite Hc.
  unfold updateCell, bind, emit. simpl. by rewrite Hc.
Qed.

Lemma queryModel_not_pending cell :
  cells w !! cellId task = Some cell ->
  retrievalStatus cell <> PENDING ->
  queryModel env fuel task w = (w, Returned tt).
Proof.
  intros Hc Hp. unfold queryModel, bind, findUniqueCell. rewrite Hc.
  destruct (retrievalStatus cell); [congruence | reflexivity..].
Qed.

Lemma queryModel_terminal cell code msg :
  cells w !! cellId task = Some cell ->
  TerminalPath env task w code msg ->
  queryModel env fuel task w =
  (stepWorld w (cellId task)
     (applyUpdate (terminalError code msg) (applyUpdate inProgressUpdate cell)) []
     [CellUpdate (cellId task) inProgressUpdate;
      CellUpdate (cellId task) (terminalError code msg)],
   Returned tt).
Proof.
  intros Hc Hpath.
  destruct Hpath as [Hnone | cell' Hc' Hp Hv | cell' variant Hc' Hp Hv Hs
                    | cell' variant scenario err Hc' Hp Hv Hs Herr];
    [congruence | ..]; assert (cell' = cell) as -> by congruence;
    unfold queryModel, bind at 1, findUniqueCell; rewrite Hc, Hp; simpl;
    unfold bind at 1; erewrite updateCell_run by exact Hc;
    unfold bind at 1, findUniqueVariant; simpl; rewrite Hv.
  - erewrite updateCell_run by apply stepWorld_lookup.
    by rewrite stepWorld_stepWorld.
  - unfold bind at 1, findUniqueScenario. simpl. rewrite Hs.
    erewrite updateCell_run by apply stepWorld_lookup.
    by rewrite stepWorld_stepWorld.
  - unfold bind at 1, findUniqueScenario. simpl. rewrite Hs, Herr.
    erewrite updateCell_run by apply stepWorld_lookup.
    by rewrite stepWorld_stepWorld.
Qed.

Lemma queryModel_loop cell variant scenario prompt :
  ReachesProvider env task w cell variant scenario prompt ->
  MAX_AUTO_RETRIES < fuel ->
  exists c' mos tr,
    queryModel env fuel task w =
      (stepWorld w (cellId task) c' mos
         (CellUpdate (cellId task) inProgressUpdate :: tr), Returned tt)
    /\ LoopFacts env task prompt 0 (applyUpdate inProgressUpdate cell) c' mos tr.
Proof.
  intros Hreach Hfuel. rewrite (queryModel_pickup _ _ _ _ _ _ _ _ Hreach).
  edestruct (attemptLoop_facts env task variant scenario prompt fuel 0)
    as (c' & mos & tr & Hrun & Hfacts); [lia | lia | apply stepWorld_lookup |].
  rewrite Hrun, stepWorld_stepWorld. by exists c', mos, tr.
Qed.

(** Every world is in one of the four situations. *)
Lemma queryModel_situation :
  cells w !! cellId task = None
  \/ (exists cell, cells w !! cellId task = Some cell
                   /\ retrievalStatus cell <> PENDING)
  \/ (exists cell code msg, cells w !! cellId task = Some cell
                            /\ retrievalStatus cell = PENDING
                            /\ TerminalPath env task w code msg)
  \/ (exists cell variant scenario prompt,
        ReachesProvider env task w cell variant scenario prompt).
Proof.
  destruct (cells w !! cellId task) as [cell|] eqn:Hc; [|by left].
  right.
  assert (retrievalStatus cell = PENDING \/ retrievalStatus cell <> PENDING)
    as [Hp|Hp] by (destruct (retrievalStatus cell); (by left) || (by right));
    [|left; eauto].
  right.
  destruct (promptVariants w !! promptVariantId cell) as [variant|] eqn:Hv;
    [|left; exists cell, 404%Z, "Prompt Variant not found"; split_and!; try done;
      by eapply VariantMissing].
  destruct (testScenarios w !! testScenarioId cell) as [scenario|] eqn:Hs;
    [|left; exists cell, 404%Z, "Scenario not found"; split_and!; try done;
      by eapply ScenarioMissing].
  destruct (parseConstructFn env (constructFn variant) (variableValues scenario))
    as [err|prompt] eqn:Hprompt.
  - left. exists cell, 400%Z, err. split_and!; try done. by eapply PromptInvalid.
  - right. exists cell, variant, scenario, prompt. by split_and!.
Qed.

End Anatomy.

(** *** Properties of every run *)

(** X1.  Whatever the database holds and whatever the provider answers,
    the task finishes within the eleven iterations the loop can make: it
    calls the provider at most 11 times, and it returns when the cell
    exists and throws the not-found error of the update when it does
    not. *)
Theorem queryModel_always_finishes env fuel task w :
  MAX_AUTO_RETRIES < fuel ->
  exists w' out tr,
    queryModel env fuel task w = (w', out)
    /\ trace w' = trace w ++ tr
    /\ providerCalls tr <= S MAX_AUTO_RETRIES
    /\ (is_Some (cells w !! cellId task) -> out = Returned tt)
    /\ (cells w !! cellId task = None ->
        out = Thrown (RecordNotFound "ScenarioVariantCell" (cellId task))).
Proof.
  intros Hfuel.
  destruct (queryModel_situation env task w)
    as [Hnone | [(cell & Hc & Hp) | [(cell & code & msg & Hc & Hp & Hpath)
       | (cell & variant & scenario & prompt & Hreach)]]].
  - rewrite (queryModel_missing_cell env fuel task w Hnone).
    eexists _, _, _. split_and!; [reflexivity | reflexivity | | | done].
    + unfold providerCalls. simpl. lia.
    + rewrite Hnone. by intros [? ?].
  - rewrite (queryModel_not_pending env fuel task w cell Hc Hp).
    exists w, (Returned tt), []. split_and!; [done | by rewrite app_nil_r | | done |].
    + unfold providerCalls. simpl. lia.
    + congruence.
  - rewrite (queryModel_terminal env fuel task w cell code msg Hc Hpath).
    eexists _, _, _. split_and!; [reflexivity | reflexivity | | done |].
    + unfold providerCalls. simpl. lia.
    + congruence.
  - destruct (queryModel_loop env fuel task w _ _ _ _ Hreach Hfuel)
      as (c' & mos & tr & Hrun & Hfacts).
    rewrite Hrun. eexists _, _, _. split_and!; [reflexivity | reflexivity | | done |].
    + destruct Hfacts as [[_ Hn] _ _ _ _ _ _ _ _].
      change (providerCalls (CellUpdate (cellId task) inProgressUpdate :: tr))
        with (providerCalls tr). lia.
    + destruct Hreach as (Hc & _). congruence.
Qed.

Lemma queryModel_always_finishes_witness :
  exists w' out tr,
    queryModel Sample.rateLimitedOnce 11 Sample.job
      (Sample.worldWithoutVariant (Sample.cell PENDING None)) = (w', out)
    /\ trace w' = [] ++ tr
    /\ providerCalls tr <= S MAX_AUTO_RETRIES
    /\ (is_Some (cells (Sample.worldWithoutVariant (Sample.cell PENDING None))
                  !! "cell-1") -> out = Returned tt)
    /\ (cells (Sample.worldWithoutVariant (Sample.cell PENDING None)) !! "cell-1"
        = None ->
        out = Thrown (RecordNotFound "ScenarioVariantCell" "cell-1")).
Proof.
  apply (queryModel_always_finishes Sample.rateLimitedOnce 11 Sample.job
           (Sample.worldWithoutVariant (Sample.cell PENDING None))).
  unfold MAX_AUTO_RETRIES. lia.
Defined.



(** X3.  Once a run has returned, running the same job again, with any
    provider and any fuel, returns at once and changes nothing: the cell
    is then COMPLETE, ERROR or was not pending to begin with. *)
Theorem queryModel_second_run_is_noop env fuel task w w' env' fuel' :
  MAX_AUTO_RETRIES < fuel ->
  queryModel env fuel task w = (w', Returned tt) ->
  queryModel env' fuel' task w' = (w', Returned tt).
Proof.
  intros Hfuel Hrun.
  destruct (queryModel_situation env task w)
    as [Hnone | [(cell & Hc & Hp) | [(cell & code & msg & Hc & Hp & Hpath)
       | (cell & variant & scenario & prompt & Hreach)]]].
  - rewrite (queryModel_missing_cell env fuel task w Hnone) in Hrun. discriminate.
  - rewrite (queryModel_not_pending env fuel task w cell Hc Hp) in Hrun.
    injection Hrun as <-. by apply (queryModel_not_pending env' fuel' task w cell).
  - rewrite (queryModel_terminal env fuel task w cell code msg Hc Hpath) in Hrun.
    injection Hrun as <-.
    eapply queryModel_not_pending; [apply stepWorld_lookup | discriminate].
  - destruct (queryModel_loop env fuel task w _ _ _ _ Hreach Hfuel)
      as (c' & mos & tr & Hrun' & [_ _ _ _ _ _ _ Hlast _]).
    rewrite Hrun' in Hrun. injection Hrun as <-.
    eapply queryModel_not_pending; [apply stepWorld_lookup|].
    destruct (response env prompt _); [destruct Hlast as (_ & _ & -> & _)
                                      | destruct Hlast as (_ & _ & _ & -> & _)];
      discriminate.
Qed.

Lemma queryModel_second_run_is_noop_witness :
  let w' := (queryModel Sample.rateLimitedOnce 11 Sample.job
               (Sample.world (Sample.cell PENDING None))).1 in
  queryModel Sample.alwaysRateLimited 11 Sample.job w' = (w', Returned tt).
Proof.
  apply (queryModel_second_run_is_noop Sample.rateLimitedOnce 11 Sample.job
           (Sample.world (Sample.cell PENDING None))).
  - unfold MAX_AUTO_RETRIES. lia.
  - vm_compute. reflexivity.
Defined.

(** X4.  When the first answer of the provider is an error that is not
    auto-retryable, the run makes that one call, does not sleep, stores no
    model output and leaves the cell in ERROR with the provider's status
    code and message and [retryTime = null].  One unit of fuel is
    enough. *)
Theorem non_retryable_failure_ends_the_run
    env fuel task w cell variant scenario prompt m code :
  ReachesProvider env task w cell variant scenario prompt ->
  response env prompt 0 = error m code false ->
  0 < fuel ->
  exists w' tr,
    queryModel env fuel task w = (w', Returned tt)
    /\ trace w' = trace w ++ tr
    /\ providerCalls tr = 1
    /\ sleeps tr = []
    /\ modelOutputs w' = modelOutputs w
    /\ cells w' !! cellId task =
       Some {| retrievalStatus := ERROR;
               statusCode := Some code;
               errorMessage := Some m;
               retryTime := None;
               promptVariantId := promptVariantId cell;
               testScenarioId := testScenarioId cell |}.
Proof.
  intros Hreach Hr Hfuel. destruct fuel as [|fuel]; [lia|].
  rewrite (queryModel_pickup _ _ _ _ _ _ _ _ Hreach).
  erewrite attemptLoop_giveUp; [| apply stepWorld_lookup | exact Hr | reflexivity].
  rewrite stepWorld_stepWorld.
  eexists _, _. split_and!; [reflexivity | reflexivity | | | |].
  - by rewrite !providerCalls_app, callEvents_calls.
  - by rewrite !sleeps_app, callEvents_sleeps.
  - simpl. by rewrite app_nil_r.
  - simpl. by rewrite lookup_insert_eq.
Qed.

Lemma non_retryable_failure_ends_the_run_witness :
  let env := Sample.collaborators (fun _ => error "Invalid API key" 401 false) in
  let w := Sample.world (Sample.cell PENDING None) in
  exists w' tr,
    queryModel env 1 Sample.job w = (w', Returned tt)
    /\ trace w' = trace w ++ tr
    /\ providerCalls tr = 1
    /\ sleeps tr = []
    /\ modelOutputs w' = modelOutputs w
    /\ cells w' !! "cell-1" =
       Some {| retrievalStatus := ERROR;
               statusCode := Some 401%Z;
               errorMessage := Some "Invalid API key";
               retryTime := None;
               promptVariantId := "variant-1";
               testScenarioId := "scenario-1" |}.
Proof.
  apply (non_retryable_failure_ends_the_run
           (Sample.collaborators (fun _ => error "Invalid API key" 401 false)) 1
           Sample.job (Sample.world (Sample.cell PENDING None))
           (Sample.cell PENDING None) Sample.variant Sample.scenario
           Sample.prompt "Invalid API key" 401%Z).
  - repeat split; reflexivity.
  - reflexivity.
  - lia.
Defined.

(** The number of calls when [k] retryable failures are followed by a
    success. *)
Lemma calls_until_success env task prompt c c' mos tr k v ttc pt ct cst code :
  LoopFacts env task prompt 0 c c' mos tr ->
  k <= MAX_AUTO_RETRIES ->
  (forall j, j < k -> exists m code', response env prompt j = error m code' true) ->
  response env prompt k = success v ttc pt ct cst code ->
  providerCalls tr = S k.
Proof.
  intros [[Hn1 Hn2] Hbefore _ _ _ _ _ Hlast _] Hk Hfail Hok.
  set (n := providerCalls tr) in *. simpl in Hlast, Hbefore.
  destruct (Nat.lt_trichotomy (n - 1) k) as [Hlt | [Heq | Hgt]]; [| lia |].
  - destruct (Hfail (n - 1) Hlt) as (m & code' & Hr). rewrite Hr in Hlast.
    destruct Hlast as ([Hf | Hmax] & _); [discriminate|].
    unfold MAX_AUTO_RETRIES in *. lia.
  - destruct (Hbefore k) as (m & code' & Hr); [lia|]. congruence.
Qed.

(** X5.  When [k <= 10] auto-retryable failures are followed by a
    success, the run makes [k + 1] calls, stores exactly one model output
    built from the answer and the hash of the prompt, triggers the
    evaluations for it, and leaves the cell COMPLETE with the provider's
    status code.  It does not clear what the failures wrote: for [k > 0]
    the cell keeps the error message of the last failure and a non-null
    [retryTime]; for [k = 0] it keeps the values it had at pickup. *)
Theorem success_after_retries
    env fuel task w cell variant scenario prompt k v ttc pt ct cst code :
  ReachesProvider env task w cell variant scenario prompt ->
  MAX_AUTO_RETRIES < fuel ->
  k <= MAX_AUTO_RETRIES ->
  (forall j, j < k -> exists m code', response env prompt j = error m code' true) ->
  response env prompt k = success v ttc pt ct cst code ->
  exists w' tr c',
    queryModel env fuel task w = (w', Returned tt)
    /\ trace w' = trace w ++ tr
    /\ providerCalls tr = S k
    /\ modelOutputs w' = modelOutputs w ++ [outputOf env task prompt v ttc pt ct cst]
    /\ evalRuns tr = [outputOf env task prompt v ttc pt ct cst]
    /\ cells w' !! cellId task = Some c'
    /\ retrievalStatus c' = COMPLETE
    /\ statusCode c' = Some code
    /\ (k = 0 -> errorMessage c' = errorMessage cell /\ retryTime c' = retryTime cell)
    /\ (0 < k -> exists m code',
          response env prompt (k - 1) = error m code' true
          /\ errorMessage c' = Some m
          /\ retryTime c' =
             Some (newDate (JsNumber.add (inject_Z (dateNow env (k - 1)))
                                         (delayOf env (k - 1))))).
Proof.
  intros Hreach Hfuel Hk Hfail Hok.
  destruct (queryModel_loop env fuel task w _ _ _ _ Hreach Hfuel)
    as (c' & mos & tr & Hrun & Hfacts).
  pose proof (calls_until_success _ _ _ _ _ _ _ _ _ _ _ _ _ _ Hfacts Hk Hfail Hok)
    as Hn.
  destruct Hfacts as [_ _ _ _ _ _ _ Hlast Hstale].
  rewrite Hn in Hlast, Hstale. simpl in Hlast, Hstale.
  replace (k - 0) with k in * by lia. rewrite Hok in Hlast.
  destruct Hlast as (-> & Hev & Hst & Hcode).
  destruct (Hstale _ _ _ _ _ _ Hok) as [H0 Hpos].
  rewrite Hrun. eexists _, (CellUpdate (cellId task) inProgressUpdate :: tr), c'.
  split_and!; try done.
  - simpl. apply lookup_insert_eq.
  - intros ->. by apply H0.
  - intros Hpos'. destruct Hpos as (m & code' & Hr & He & Ht); [lia|].
    exists m, code'. by replace (k - 1) with (S k - 2) by lia.
Qed.

Lemma success_after_retries_witness :
  exists w' tr c',
    queryModel Sample.rateLimitedOnce 11 Sample.job
      (Sample.world (Sample.cell PENDING None)) = (w', Returned tt)
    /\ trace w' = [] ++ tr
    /\ providerCalls tr = 2
    /\ modelOutputs w' =
       [] ++ [outputOf Sample.rateLimitedOnce Sample.job Sample.prompt
                "{}" 1200 (Some 10%Z) (Some 20%Z) None]
    /\ evalRuns tr =
       [outputOf Sample.rateLimitedOnce Sample.job Sample.prompt
          "{}" 1200 (Some 10%Z) (Some 20%Z) None]
    /\ cells w' !! "cell-1" = Some c'
    /\ retrievalStatus c' = COMPLETE
    /\ statusCode c' = Some 200%Z
    /\ (1 = 0 -> errorMessage c' = None /\ retryTime c' = None)
    /\ (0 < 1 -> exists m code',
          response Sample.rateLimitedOnce Sample.prompt (1 - 1) = error m code' true
          /\ errorMessage c' = Some m
          /\ retryTime c' =
             Some (newDate (JsNumber.add
                              (inject_Z (dateNow Sample.rateLimitedOnce (1 - 1)))
                              (delayOf Sample.rateLimitedOnce (1 - 1))))).
Proof.
  apply (success_after_retries Sample.rateLimitedOnce 11 Sample.job
           (Sample.world (Sample.cell PENDING None))
           (Sample.cell PENDING None) Sample.variant Sample.scenario
           Sample.prompt 1 "{}" 1200%Z (Some 10%Z) (Some 20%Z) None 200%Z).
  - repeat split; reflexivity.
  - unfold MAX_AUTO_RETRIES. lia.
  - unfold MAX_AUTO_RETRIES. lia.
  - intros j Hj. assert (j = 0) as -> by lia. eexists _, _. reflexivity.
  - reflexivity.
Defined.

(** *** The delays *)

Lemma two_pow_pos (n : nat) : (0 < 2 ^ Z.of_nat n)%Q.
Proof. by apply Qpower_0_lt. Qed.

Lemma two_pow_succ (n : nat) : (2 ^ Z.of_nat (S n) == 2 * 2 ^ Z.of_nat n)%Q.
Proof.
  rewrite Nat2Z.inj_succ, <- Z.add_1_l.
  rewrite Qpower_plus by discriminate. reflexivity.
Qed.

Lemma two_pow_le (i j : nat) : i <= j -> (2 ^ Z.of_nat i <= 2 ^ Z.of_nat j)%Q.
Proof.
  induction 1 as [|j Hij IH]; [apply Qle_refl|].
  rewrite two_pow_succ. pose proof (two_pow_pos j). lra.
Qed.

Lemma baseDelay_le (i j : nat) :
  i <= j ->
  (Qmin MAX_DELAY (MIN_DELAY * 2 ^ Z.of_nat i)
   <= Qmin MAX_DELAY (MIN_DELAY * 2 ^ Z.of_nat j))%Q.
Proof.
  intros Hij. apply Q.min_le_compat_l.
  pose proof (two_pow_le i j Hij). unfold MIN_DELAY. lra.
Qed.

(** X6.  For a non-negative jitter sample the delay never shrinks as the
    attempts go on. *)
Theorem calculateDelay_monotone (r : Q) (i j : nat) :
  (0 <= r)%Q -> i <= j ->
  (calculateDelay r i <= calculateDelay r j)%Q.
Proof.
  intros Hr Hij.
  rewrite (calculateDelay_rounded r i), (calculateDelay_rounded r j).
  pose proof (baseDelay_le i j Hij) as Hb.
  pose proof (baseDelay_nonneg i) as Hi.
  set (bi := Qmin MAX_DELAY (MIN_DELAY * 2 ^ Z.of_nat i)) in *.
  set (bj := Qmin MAX_DELAY (MIN_DELAY * 2 ^ Z.of_nat j)) in *.
  assert (H0 : (0 <= r * bi)%Q) by (by apply Qmult_le_0_compat).
  assert (Hle : (r * bi <= r * bj)%Q).
  { rewrite (Qmult_comm r bi), (Qmult_comm r bj). by apply Qmult_le_compat_r. }
  (* rounding keeps the order of the jitters, and then of the sums *)
  pose proof (JsNumberFacts.roundDouble_nonneg _ H0) as Hj0.
  pose proof (JsNumberFacts.roundDouble_le _ _ H0 Hle) as Hj.
  apply JsNumberFacts.roundDouble_le; lra.
Qed.

Lemma calculateDelay_monotone_witness :
  (calculateDelay (1 # 2) 2 <= calculateDelay (1 # 2) 7)%Q.
Proof.
  apply (calculateDelay_monotone (1 # 2) 2 7); [discriminate | lia].
Defined.

(** X7.  The base delay doubles from 500 ms up to 8000 ms over the
    attempts 0 to 4 and is capped at 15000 ms from attempt 5 on, and
    computing it in doubles loses nothing, whatever the number of previous
    tries.  The delay is the rounded sum of that base and of its rounded
    product with the jitter sample. *)
Theorem calculateDelay_doubles_then_caps (r : Q) (i : nat) :
  let base := (if (i <? 5)%nat then 500 * 2 ^ Z.of_nat i else 15000)%Q in
  (Qmin MAX_DELAY (JsNumber.mul MIN_DELAY (JsNumber.pow 2 i)) == base)%Q
  /\ (calculateDelay r i == JsNumber.add base (JsNumber.mul r base))%Q.
Proof.
  cbv zeta.
  assert (Hb : (Qmin MAX_DELAY (MIN_DELAY * 2 ^ Z.of_nat i)
                == if (i <? 5)%nat then 500 * 2 ^ Z.of_nat i else 15000)%Q).
  { destruct (Nat.ltb_spec i 5) as [Hi | Hi].
    - apply Q.min_r. pose proof (two_pow_le i 4 ltac:(lia)) as H.
      change (2 ^ Z.of_nat 4)%Q with (16 # 1)%Q in H.
      unfold MAX_DELAY, MIN_DELAY. lra.
    - by apply baseDelay_capped. }
  split; [by rewrite baseDelay_exact|].
  rewrite (calculateDelay_rounded r i). unfold JsNumber.add, JsNumber.mul.
  apply JsNumberFacts.roundDouble_compat.
  apply Qplus_comp; [exact Hb|].
  apply JsNumberFacts.roundDouble_compat. by rewrite Hb.
Qed.



Lemma Qsum_app (a b : list Q) : (Qsum (a ++ b) == Qsum a + Qsum b)%Q.
Proof.
  induction a as [|x a IH]; simpl; [ring|]. rewrite IH. ring.
Qed.

Lemma Qsum_nonneg (l : list Q) : Forall (fun x => (0 <= x)%Q) l -> (0 <= Qsum l)%Q.
Proof.
  induction 1 as [|x l Hx _ IH]; simpl; [apply Qle_refl | lra].
Qed.

Lemma delayOf_le_ceiling env j :
  (0 <= mathRandom env j)%Q -> (mathRandom env j < 1)%Q ->
  (delayOf env j <= delayCeiling j)%Q.
Proof.
  intros H0 H1. unfold delayOf, delayCeiling.
  by destruct (calculateDelay_bounds (mathRandom env j) j H0 H1).
Qed.

(** X9.  With jitter samples in [0, 1) the sleeps of one run add up to at
    most 181 seconds: twice the base delays 500, 1000, 2000, 4000, 8000
    and five times 15000 ms of the ten retries. *)
Theorem total_sleep_is_bounded
    env fuel task w cell variant scenario prompt :
  ReachesProvider env task w cell variant scenario prompt ->
  MAX_AUTO_RETRIES < fuel ->
  (forall j, (0 <= mathRandom env j)%Q /\ (mathRandom env j < 1)%Q) ->
  exists w' tr,
    queryModel env fuel task w = (w', Returned tt)
    /\ trace w' = trace w ++ tr
    /\ (Qsum (sleeps tr) <= 181000)%Q.
Proof.
  intros Hreach Hfuel Hrand.
  destruct (queryModel_loop env fuel task w _ _ _ _ Hreach Hfuel)
    as (c' & mos & tr & Hrun & [[Hn1 Hn2] _ _ _ _ Hsl _ _ _]).
  rewrite Hrun. eexists _, (CellUpdate (cellId task) inProgressUpdate :: tr).
  change (sleeps (CellUpdate (cellId task) inProgressUpdate :: tr)) with (sleeps tr).
  split_and!; [reflexivity | reflexivity |].
  rewrite Hsl. set (k := providerCalls tr - 1).
  assert (Hk : k <= 10) by (unfold k, MAX_AUTO_RETRIES in *; lia).
  (* each sleep is below its ceiling, and the ceilings of all ten retries
     add up to 181000 *)
  assert (Hle : (Qsum (map (delayOf env) (seq 0 k))
                 <= Qsum (map delayCeiling (seq 0 k)))%Q).
  { clear Hk. generalize (seq 0 k). intros l.
    induction l as [|j l IH]; simpl; [apply Qle_refl|].
    destruct (Hrand j) as [H0 H1]. pose proof (delayOf_le_ceiling env j H0 H1). lra. }
  assert (Hall : (Qsum (map delayCeiling (seq 0 k))
                  <= Qsum (map delayCeiling (seq 0 10)))%Q).
  { assert (Hseq : seq 0 10 = seq 0 k ++ seq (0 + k) (10 - k))
      by (rewrite <- seq_app; f_equal; lia).
    rewrite Hseq, map_app, Qsum_app.
    assert (0 <= Qsum (map delayCeiling (seq (0 + k) (10 - k))))%Q.
    { apply Qsum_nonneg. generalize (seq (0 + k) (10 - k)). intros l.
      induction l as [|j l IH]; simpl; constructor; [|exact IH].
      unfold delayCeiling. pose proof (baseDelay_nonneg j). lra. }
    lra. }
  assert (Hten : (Qsum (map delayCeiling (seq 0 10)) == 181000)%Q)
    by (vm_compute; reflexivity).
  eapply Qle_trans; [exact Hle|]. eapply Qle_trans; [exact Hall|].
  rewrite Hten. apply Qle_refl.
Qed.

Lemma total_sleep_is_bounded_witness :
  exists w' tr,
    queryModel Sample.alwaysRateLimited 11 Sample.job
      (Sample.world (Sample.cell PENDING None)) = (w', Returned tt)
    /\ trace w' = [] ++ tr
    /\ (Qsum (sleeps tr) <= 181000)%Q.
Proof.
  apply (total_sleep_is_bounded Sample.alwaysRateLimited 11 Sample.job
           (Sample.world (Sample.cell PENDING None))
           (Sample.cell PENDING None) Sample.variant Sample.scenario
           Sample.prompt).
  - repeat split; reflexivity.
  - unfold MAX_AUTO_RETRIES. lia.
  - intros j. split; [discriminate | reflexivity].
Defined.

(** *** Streaming and stored outputs *)

(** X10.  A run that reaches the provider publishes on the websocket
    exactly the partial outputs of its attempts, retries included, in
    order and on the channel named by the cell id, when the job asks for
    streaming; without streaming it publishes nothing. *)
Theorem partial_outputs_go_to_the_cell_channel
    env fuel task w cell variant scenario prompt :
  ReachesProvider env task w cell variant scenario prompt ->
  MAX_AUTO_RETRIES < fuel ->
  exists w' tr,
    queryModel env fuel task w = (w', Returned tt)
    /\ trace w' = trace w ++ tr
    /\ wsEmits tr =
       if stream task
       then flat_map (fun j => map (pair (cellId task)) (partialsOf env prompt j))
              (seq 0 (providerCalls tr))
       else [].
Proof.
  intros Hreach Hfuel.
  destruct (queryModel_loop env fuel task w _ _ _ _ Hreach Hfuel)
    as (c' & mos & tr & Hrun & [_ _ _ _ _ _ Hws _ _]).
  rewrite Hrun. eexists _, (CellUpdate (cellId task) inProgressUpdate :: tr).
  split_and!; [reflexivity | reflexivity | exact Hws].
Qed.

Lemma partial_outputs_go_to_the_cell_channel_witness :
  exists w' tr,
    queryModel Sample.rateLimitedOnce 11 Sample.job
      (Sample.world (Sample.cell PENDING None)) = (w', Returned tt)
    /\ trace w' = [] ++ tr
    /\ wsEmits tr =
       if stream Sample.job
       then flat_map (fun j => map (pair "cell-1")
                                 (partialsOf Sample.rateLimitedOnce Sample.prompt j))
              (seq 0 (providerCalls tr))
       else [].
Proof.
  apply (partial_outputs_go_to_the_cell_channel Sample.rateLimitedOnce 11
           Sample.job (Sample.world (Sample.cell PENDING None))
           (Sample.cell PENDING None) Sample.variant Sample.scenario
           Sample.prompt).
  - repeat split; reflexivity.
  - unfold MAX_AUTO_RETRIES. lia.
Defined.

(** X11.  Whatever the world, a run stores at most one model output and
    triggers the evaluations exactly for what it stored; it stores one
    exactly when it picked the cell up PENDING and left it COMPLETE, and
    the stored output names the job's cell. *)
Theorem at_most_one_model_output env fuel task w :
  MAX_AUTO_RETRIES < fuel ->
  exists w' out tr mos,
    queryModel env fuel task w = (w', out)
    /\ trace w' = trace w ++ tr
    /\ modelOutputs w' = modelOutputs w ++ mos
    /\ evalRuns tr = mos
    /\ length mos <= 1
    /\ Forall (fun mo => scenarioVariantCellId mo = cellId task) mos
    /\ (mos <> [] <->
        (retrievalStatus <$> cells w !! cellId task = Some PENDING
         /\ retrievalStatus <$> cells w' !! cellId task = Some COMPLETE)).
Proof.
  intros Hfuel.
  destruct (queryModel_situation env task w)
    as [Hnone | [(cell & Hc & Hp) | [(cell & code & msg & Hc & Hp & Hpath)
       | (cell & variant & scenario & prompt & Hreach)]]].
  - rewrite (queryModel_missing_cell env fuel task w Hnone).
    eexists _, _, _, []. split_and!; try reflexivity; simpl;
      [by rewrite app_nil_r | lia | constructor |].
    rewrite Hnone. split; [done | by intros [[=] _]].
  - rewrite (queryModel_not_pending env fuel task w cell Hc Hp).
    exists w, (Returned tt), [], []. split_and!; try done; simpl;
      [by rewrite app_nil_r | by rewrite app_nil_r | lia |].
    rewrite Hc. simpl. split; [done | intros [[=] _]; congruence].
  - rewrite (queryModel_terminal env fuel task w cell code msg Hc Hpath).
    eexists _, _, _, []. split_and!; try reflexivity; simpl; [lia | constructor |].
    rewrite lookup_insert_eq. simpl. split; [done | by intros [_ [=]]].
  - destruct (queryModel_loop env fuel task w _ _ _ _ Hreach Hfuel)
      as (c' & mos & tr & Hrun & [_ _ _ _ _ _ _ Hlast _]).
    destruct Hreach as (Hc & Hp & _).
    rewrite Hrun. eexists _, _, _, mos.
    split_and!; [reflexivity | reflexivity | reflexivity | | | |]; simpl;
      rewrite ?lookup_insert_eq, ?Hc; simpl;
      destruct (response env prompt _) as [v ttc pt ct cst code|m code ar];
      [ destruct Hlast as (-> & Hev & Hst & _)
      | destruct Hlast as (_ & -> & Hev & Hst & _)
      | destruct Hlast as (-> & Hev & Hst & _)
      | destruct Hlast as (_ & -> & Hev & Hst & _)
      | destruct Hlast as (-> & Hev & Hst & _)
      | destruct Hlast as (_ & -> & Hev & Hst & _)
      | destruct Hlast as (-> & Hev & Hst & _)
      | destruct Hlast as (_ & -> & Hev & Hst & _) ];
      try exact Hev; simpl; try lia; try (by repeat constructor).
    + rewrite Hp, Hst. by split.
    + rewrite Hst. split; [done | by intros [_ [=]]].
Qed.

Lemma at_most_one_model_output_witness :
  let w := Sample.world (Sample.cell PENDING None) in
  exists w' out tr mos,
    queryModel Sample.rateLimitedOnce 11 Sample.job w = (w', out)
    /\ trace w' = trace w ++ tr
    /\ modelOutputs w' = modelOutputs w ++ mos
    /\ evalRuns tr = mos
    /\ length mos <= 1
    /\ Forall (fun mo => scenarioVariantCellId mo = "cell-1") mos
    /\ (mos <> [] <->
        (retrievalStatus <$> cells w !! "cell-1" = Some PENDING
         /\ retrievalStatus <$> cells w' !! "cell-1" = Some COMPLETE)).
Proof.
  apply (at_most_one_model_output Sample.rateLimitedOnce 11 Sample.job
           (Sample.world (Sample.cell PENDING None))).
  unfold MAX_AUTO_RETRIES. lia.
Defined.

End QueryModelRunFacts.

(** ** Further properties of updateCached and llmRelabelProperties *)

Module NodesMoreFacts.

Import Nodes NodesFacts.
Local Open Scope list_scope.

Lemma find_all_false {A} (f : A -> bool) (l : list A) :
  (forall x, In x l -> f x = false) -> find f l = None.
Proof.
  induction l as [|x l IH]; intros H; [reflexivity|]. simpl.
  rewrite (H x) by (by left). apply IH. intros y Hy. apply H. by right.
Qed.

Section Query.

Context (node : Node) (matchFields writeFields : list string).

Local Abbreviation q := (processCachedQuery node matchFields writeFields).

(** The row function of the statement. *)
Lemma execute_rows w :
  nodeEntries (execute q w) =
  map (fun ne => match find (selected q ne) (cachedProcessedEntries w) with
                 | Some cpne => assign q ne cpne
                 | None => ne
                 end) (nodeEntries w).
Proof. reflexivity. Qed.

(** A row that is not pending, or of another node, joins with nothing. *)
Lemma not_selected ne cache :
  ~ (nodeId ne = node_id node /\ status ne = PENDING) ->
  find (selected q ne) cache = None.
Proof.
  intros Hno. apply find_all_false. intros c _.
  destruct (selected q ne c) eqn:Hsel; [|reflexivity].
  apply selected_iff in Hsel as (Hn & Hs & _). by destruct Hno.
Qed.

Lemma rewritten_not_selected ne c cache :
  find (selected q (assign q ne c)) cache = None.
Proof.
  apply not_selected. rewrite assign_cacheWrite. simpl. by intros [_ [=]].
Qed.

End Query.

(** X12.  [updateCached] is idempotent: a second run over its own result
    changes nothing, because every entry it rewrote is PROCESSED and the
    cache table is as before. *)
Theorem updateCached_idempotent nodePropertiesByType node w :
  updateCached nodePropertiesByType node
    (updateCached nodePropertiesByType node w)
  = updateCached nodePropertiesByType node w.
Proof.
  unfold updateCached.
  destruct (cacheMatchFields _) as [mf|]; [|reflexivity].
  destruct (cacheWriteFields _) as [wf|]; [|reflexivity].
  unfold execute at 1. rewrite execute_rows. simpl. unfold execute. f_equal.
  rewrite map_map. apply map_ext. intros ne.
  destruct (find (selected (processCachedQuery node mf wf) ne)
              (cachedProcessedEntries w)) as [c|] eqn:Hfind.
  - by rewrite rewritten_not_selected.
  - by rewrite Hfind.
Qed.

(** X13.  After [updateCached], no entry of the node that is still
    PENDING has a matching cache record: the entries left for the row
    transform are exactly the cache misses. *)
Theorem no_pending_cache_hit_remains
    nodePropertiesByType node matchFields writeFields w :
  cacheMatchFields (nodePropertiesByType (type node)) = Some matchFields ->
  cacheWriteFields (nodePropertiesByType (type node)) = Some writeFields ->
  Forall
    (fun ne => ~ CacheHit node matchFields (cachedProcessedEntries w) ne)
    (nodeEntries (updateCached nodePropertiesByType node w)).
Proof.
  intros Hm Hw. unfold updateCached. rewrite Hm, Hw, execute_rows.
  induction (nodeEntries w) as [|ne rows IH]; simpl; constructor; [|exact IH].
  destruct (find _ _) as [c|] eqn:Hfind.
  - rewrite assign_cacheWrite. intros (_ & Hst & _). discriminate.
  - intros (Hn & Hst & c & Hin & Hmatch).
    pose proof (find_none _ _ Hfind c Hin) as Hsel.
    assert (selected (processCachedQuery node matchFields writeFields) ne c = true)
      by (by apply selected_iff).
    congruence.
Qed.

Lemma no_pending_cache_hit_remains_witness :
  Forall
    (fun ne => ~ CacheHit (NodeSample.relabelNode (RelabelWith "gpt-4"))
                  ["incomingInputHash"]
                  (cachedProcessedEntries NodeSample.world) ne)
    (nodeEntries (updateCached NodeSample.registry
                    (NodeSample.relabelNode (RelabelWith "gpt-4"))
                    NodeSample.world)).
Proof.
  apply (no_pending_cache_hit_remains NodeSample.registry
           (NodeSample.relabelNode (RelabelWith "gpt-4"))
           ["incomingInputHash"] ["outgoingOutputHash"] NodeSample.world);
    reflexivity.
Defined.

(** X14.  [updateCached] keeps the table in shape: it neither adds nor
    drops nor reorders rows, it never changes the id, the node or the
    persistent id of a row, and a row that is not PENDING before it is
    left exactly as it was. *)
Theorem updateCached_keeps_rows nodePropertiesByType node w :
  Forall2
    (fun ne ne' =>
       id ne' = id ne /\ nodeId ne' = nodeId ne
       /\ persistentId ne' = persistentId ne
       /\ (status ne <> PENDING -> ne' = ne)
       /\ (status ne' = status ne \/ status ne' = PROCESSED))
    (nodeEntries w)
    (nodeEntries (updateCached nodePropertiesByType node w)).
Proof.
  assert (Hid : Forall2
            (fun ne ne' : NodeEntry =>
               id ne' = id ne /\ nodeId ne' = nodeId ne
               /\ persistentId ne' = persistentId ne
               /\ (status ne <> PENDING -> ne' = ne)
               /\ (status ne' = status ne \/ status ne' = PROCESSED))
            (nodeEntries w) (nodeEntries w)).
  { induction (nodeEntries w); constructor; [by split_and!; try left | done]. }
  unfold updateCached.
  destruct (cacheMatchFields _) as [mf|]; [|exact Hid].
  destruct (cacheWriteFields _) as [wf|]; [|exact Hid].
  rewrite execute_rows. clear Hid.
  induction (nodeEntries w) as [|ne rows IH]; simpl; constructor; [|exact IH].
  destruct (find _ _) as [c|] eqn:Hfind; [|by split_and!; try left].
  apply find_some in Hfind as [_ Hsel].
  apply selected_iff in Hsel as (_ & Hst & _).
  rewrite assign_cacheWrite. simpl. split_and!; try done. by right.
Qed.

(** X15.  With the skip option no entry of the node is PENDING after
    [beforeProcessing], so the cache propagation that follows it finds
    nothing to rewrite. *)
Theorem updateCached_after_skip_is_noop nodePropertiesByType node w :
  relabelLLM (config node) = SkipRelabel ->
  Forall (fun ne => ~ (nodeId ne = node_id node /\ status ne = PENDING))
    (nodeEntries (beforeProcessing node w))
  /\ updateCached nodePropertiesByType node (beforeProcessing node w)
     = beforeProcessing node w.
Proof.
  intros Hskip.
  assert (Hnone : Forall (fun ne => ~ (nodeId ne = node_id node /\ status ne = PENDING))
                    (nodeEntries (beforeProcessing node w))).
  { unfold beforeProcessing. rewrite Hskip. simpl.
    induction (nodeEntries w) as [|ne rows IH]; simpl; constructor; [|exact IH].
    destruct (String.eqb (nodeId ne) (node_id node)) eqn:Hn;
      [destruct (NodeEntryStatus_eqb (status ne) PENDING) eqn:Hs|]; simpl.
    - by intros [_ [=]].
    - intros [_ H]. apply NodeEntryStatus_eqb_eq in H. congruence.
    - intros [H _]. apply String.eqb_eq in H. congruence. }
  split; [exact Hnone|].
  unfold updateCached.
  destruct (cacheMatchFields _) as [mf|]; [|reflexivity].
  destruct (cacheWriteFields _) as [wf|]; [|reflexivity].
  unfold execute. destruct (beforeProcessing node w) as [rows cache evs]. simpl in *.
  f_equal. induction Hnone as [|ne rows Hne _ IH]; [reflexivity|]. simpl.
  by rewrite (not_selected node mf wf ne cache Hne), IH.
Qed.

Lemma updateCached_after_skip_is_noop_witness :
  Forall (fun ne => ~ (nodeId ne = "node-1" /\ status ne = PENDING))
    (nodeEntries (beforeProcessing (NodeSample.relabelNode SkipRelabel)
                    NodeSample.world))
  /\ updateCached NodeSample.registry (NodeSample.relabelNode SkipRelabel)
       (beforeProcessing (NodeSample.relabelNode SkipRelabel) NodeSample.world)
     = beforeProcessing (NodeSample.relabelNode SkipRelabel) NodeSample.world.
Proof.
  apply (updateCached_after_skip_is_noop NodeSample.registry
           (NodeSample.relabelNode SkipRelabel) NodeSample.world).
  reflexivity.
Defined.

(** *** processEntry *)

(** X16.  The transform hands an entry back as PENDING in one case only:
    the node relabels with a model, the call was rejected with an
    [APIError], and its status is 429.  An [APIError] without a status,
    or another error that carries status 429, ends in ERROR. *)
Theorem processEntry_pending_iff getOpenaiCompletion node entry w :
  outcomeStatus (processEntry getOpenaiCompletion node entry w).2 = Some PENDING
  <-> exists model e,
        relabelLLM (config node) = RelabelWith model
        /\ getOpenaiCompletion (projectId node) (requestFor model entry)
           = inl (ThrownValue e)
        /\ isAPIError e = true
        /\ caught_status e = Some 429%Z.
Proof.
  unfold processEntry, completionMessage.
  destruct (relabelLLM (config node)) as [|model] eqn:Hmodel; simpl.
  - split; [discriminate | by intros (? & ? & [=] & _)].
  - destruct (getOpenaiCompletion _ _) as [[|e]|completion] eqn:Hanswer; simpl.
    + split; [discriminate|].
      intros (model' & e' & [= <-] & He & _). rewrite Hanswer in He. discriminate.
    + destruct (isAPIError e) eqn:Hapi; simpl.
      * case_bool_decide as Hst; simpl.
        -- split; [intros _; by exists model, e | done].
        -- split; [discriminate|].
           intros (model' & e' & [= <-] & He & _ & Hst').
           rewrite Hanswer in He. injection He as <-. by destruct Hst.
      * split; [discriminate|].
        intros (model' & e' & [= <-] & He & Hapi' & _).
        rewrite Hanswer in He. injection He as <-. congruence.
    + destruct (head (choices completion) ≫= message); simpl;
        (split; [discriminate|]);
        intros (model' & e' & [= <-] & He & _); rewrite Hanswer in He; discriminate.
Qed.

Lemma processEntry_pending_iff_witness :
  outcomeStatus
    (processEntry (fun _ _ => inl (ThrownValue NodeSample.rateLimit))
       (NodeSample.relabelNode (RelabelWith "gpt-4")) NodeSample.toProcess
       NodeSample.world).2 = Some PENDING
  <-> exists model e,
        relabelLLM (config (NodeSample.relabelNode (RelabelWith "gpt-4")))
        = RelabelWith model
        /\ (inl (ThrownValue NodeSample.rateLimit) : Thrown + ChatCompletion)
           = inl (ThrownValue e)
        /\ isAPIError e = true
        /\ caught_status e = Some 429%Z.
Proof.
  apply (processEntry_pending_iff
           (fun _ _ => inl (ThrownValue NodeSample.rateLimit))
           (NodeSample.relabelNode (RelabelWith "gpt-4")) NodeSample.toProcess
           NodeSample.world).
Defined.

(** X17.  The transform itself writes nothing: the entries and the cache
    table are as before.  It records its invocation and calls the model
    exactly once for a node that relabels with a model; with the skip
    option it never calls the model and hands back the entry's own
    output. *)
Theorem processEntry_effects getOpenaiCompletion node entry w :
  nodeEntries (processEntry getOpenaiCompletion node entry w).1 = nodeEntries w
  /\ cachedProcessedEntries (processEntry getOpenaiCompletion node entry w).1
     = cachedProcessedEntries w
  /\ events (processEntry getOpenaiCompletion node entry w).1
     = events w ++ ProcessEntryCall (entry_id entry)
                   :: match relabelLLM (config node) with
                      | SkipRelabel => []
                      | RelabelWith model => [OpenaiCall (projectId node) model]
                      end
  /\ match relabelLLM (config node) with
     | SkipRelabel =>
       (processEntry getOpenaiCompletion node entry w).2
       = Resolves (ResultProcessed (output entry))
     | RelabelWith _ => True
     end.
Proof.
  unfold processEntry, completionMessage.
  destruct (relabelLLM (config node)) as [|model]; simpl.
  - by split_and!.
  - destruct (getOpenaiCompletion _ _) as [e|completion]; simpl.
    + destruct (instanceofAPIError e && bool_decide (statusOf e = Some 429%Z));
        destruct (messageOf e); simpl; rewrite <- app_assoc; by split_and!.
    + destruct (head (choices completion) ≫= message); simpl;
        rewrite <- app_assoc; by split_and!.
Qed.

(** X18.  A caught value that has no message still yields one: "Rate
    limited" for a rate-limit error, "Unknown error" for any other.  When
    the caught value is [undefined] or [null] there is nothing to read a
    message from: the [catch] block itself throws, and the transform
    rejects with a [TypeError] instead of returning a status. *)
Theorem processEntry_default_messages getOpenaiCompletion node entry w model :
  relabelLLM (config node) = RelabelWith model ->
  let answer := getOpenaiCompletion (projectId node) (requestFor model entry) in
  let result := (processEntry getOpenaiCompletion node entry w).2 in
  (forall e, answer = inl (ThrownValue e) -> caught_message e = None ->
     result = if isAPIError e && bool_decide (caught_status e = Some 429%Z)
              then Resolves (ResultPending "Rate limited")
              else Resolves (ResultError (entry_id entry) "Unknown error"))
  /\ (answer = inl ThrownNullish ->
      result = RejectsTypeError /\ outcomeStatus result = None).
Proof.
  intros Hmodel answer result. subst answer result.
  unfold processEntry, completionMessage. rewrite Hmodel. simpl.
  split.
  - intros e -> Hmsg. simpl. rewrite Hmsg.
    by destruct (isAPIError e && _).
  - intros ->. by split.
Qed.

Lemma processEntry_default_messages_witness :
  let getOpenaiCompletion := fun (_ : string) (_ : CompletionRequest) =>
    inl ThrownNullish : Thrown + ChatCompletion in
  let node := NodeSample.relabelNode (RelabelWith "gpt-4") in
  let answer := getOpenaiCompletion (projectId node)
                  (requestFor "gpt-4" NodeSample.toProcess) in
  let result := (processEntry getOpenaiCompletion node NodeSample.toProcess
                   NodeSample.world).2 in
  (forall e, answer = inl (ThrownValue e) -> caught_message e = None ->
     result = if isAPIError e && bool_decide (caught_status e = Some 429%Z)
              then Resolves (ResultPending "Rate limited")
              else Resolves (ResultError (entry_id NodeSample.toProcess)
                               "Unknown error"))
  /\ (answer = inl ThrownNullish ->
      result = RejectsTypeError /\ outcomeStatus result = None).
Proof.
  apply (processEntry_default_messages (fun _ _ => inl ThrownNullish)
           (NodeSample.relabelNode (RelabelWith "gpt-4")) NodeSample.toProcess
           NodeSample.world "gpt-4").
  reflexivity.
Defined.

(** A rejection with [undefined], and one with an [APIError] that has
    neither status nor message. *)

Example processEntry_rejected_with_undefined :
  (processEntry (fun _ _ => inl ThrownNullish)
     (NodeSample.relabelNode (RelabelWith "gpt-4")) NodeSample.toProcess NodeSample.world).2
  = RejectsTypeError.
Proof. reflexivity. Qed.

Example processEntry_error_without_message :
  (processEntry
     (fun _ _ => inl (ThrownValue {| isAPIError := true; caught_status := None;
                                     caught_message := None |}))
     (NodeSample.relabelNode (RelabelWith "gpt-4")) NodeSample.toProcess NodeSample.world).2
  = Resolves (ResultError "e1" "Unknown error").
Proof. reflexivity. Qed.

(** X19.  An answer that carries no choice at all, or whose first choice
    has no message, is treated as a failure of the call: the result is
    ERROR with the message "No completion returned", whatever the other
    choices hold. *)
Theorem answer_without_message_is_an_error
    getOpenaiCompletion node entry w model completion :
  relabelLLM (config node) = RelabelWith model ->
  getOpenaiCompletion (projectId node) (requestFor model entry) = inr completion ->
  choices completion = []
  \/ (exists others, choices completion = {| message := None |} :: others) ->
  (processEntry getOpenaiCompletion node entry w).2
  = Resolves (ResultError (entry_id entry) "No completion returned").
Proof.
  intros Hmodel Hanswer Hchoices. unfold processEntry, completionMessage.
  rewrite Hmodel. simpl. rewrite Hanswer.
  destruct Hchoices as [-> | (others & ->)]; reflexivity.
Qed.

Lemma answer_without_message_is_an_error_witness :
  (processEntry (fun _ _ => inr {| choices := [] |})
     (NodeSample.relabelNode (RelabelWith "gpt-4")) NodeSample.toProcess
     NodeSample.world).2
  = Resolves (ResultError (entry_id NodeSample.toProcess) "No completion returned").
Proof.
  apply (answer_without_message_is_an_error (fun _ _ => inr {| choices := [] |})
           (NodeSample.relabelNode (RelabelWith "gpt-4")) NodeSample.toProcess
           NodeSample.world "gpt-4" {| choices := [] |});
    [reflexivity | reflexivity | by left].
Defined.

End NodesMoreFacts.

(** ** Properties of streamToNdStrings *)

Module NdStringsFacts.

Import NdStrings.
Local Open Scope list_scope.

Lemma indexOf_Some b buf i :
  indexOf b buf = Some i ->
  buf = take i buf ++ b :: drop (S i) buf /\ ~ In b (take i buf).
Proof.
  revert i. induction buf as [|x rest IH]; intros i; simpl; [discriminate|].
  destruct (Byte.eqb x b) eqn:Hx.
  - intros [= <-]. apply Byte.byte_dec_bl in Hx as ->. simpl. by split; [|intros []].
  - destruct (indexOf b rest) as [j|]; simpl; [|discriminate].
    intros [= <-]. destruct (IH j eq_refl) as [Heq Hnot]. simpl. split.
    + by rewrite <- Heq.
    + intros [-> | Hin]; [|by apply Hnot].
      by rewrite (Byte.byte_dec_lb eq_refl) in Hx.
Qed.

Lemma indexOf_None b buf : indexOf b buf = None <-> ~ In b buf.
Proof.
  induction buf as [|x rest IH]; simpl; [by split; [intros _ []|]|].
  destruct (Byte.eqb x b) eqn:Hx.
  - apply Byte.byte_dec_bl in Hx as ->.
    split; [discriminate | intros H; exfalso; apply H; by left].
  - apply Byte.eqb_false in Hx. rewrite fmap_None, IH. split.
    + intros Hnot [Heq | Hin]; [by apply Hx | by apply Hnot].
    + intros Hnot Hin. apply Hnot. by right.
Qed.

Lemma countNewlines_app a b :
  countNewlines (a ++ b) = countNewlines a + countNewlines b.
Proof. unfold countNewlines. by rewrite List.filter_app, length_app. Qed.

Lemma countNewlines_none buf : ~ In Byte.x0a buf -> countNewlines buf = 0.
Proof.
  unfold countNewlines. induction buf as [|x rest IH]; intros H; [reflexivity|].
  simpl. destruct (Byte.eqb Byte.x0a x) eqn:Hx.
  - apply Byte.byte_dec_bl in Hx as <-. destruct H. by left.
  - apply IH. intros Hin. apply H. by right.
Qed.

Lemma countNewlines_newline rest :
  countNewlines (Byte.x0a :: rest) = S (countNewlines rest).
Proof. reflexivity. Qed.

Section Loop.

Context (toString : Buffer -> string) (maxEntriesToImport : nat).

Local Abbreviation takeLines := (takeLines toString maxEntriesToImport).

(** Below the limit the loop takes every complete line of the buffer. *)
Lemma takeLines_all : forall fuel buf lines num,
  length buf <= fuel ->
  num + countNewlines buf <= maxEntriesToImport ->
  exists ls rest,
    buf = terminated ls ++ rest
    /\ Forall (fun l => ~ In Byte.x0a l) ls
    /\ ~ In Byte.x0a rest
    /\ length ls = countNewlines buf
    /\ takeLines fuel buf lines num
       = (rest, lines ++ map toString ls, num + length ls).
Proof.
  induction fuel as [|fuel IH]; intros buf lines num Hlen Hcount.
  - destruct buf; [|simpl in Hlen; lia].
    exists [], []. simpl. rewrite app_nil_r, Nat.add_0_r.
    split_and!; try done; by intros [].
  - simpl. destruct (indexOf Byte.x0a buf) as [i|] eqn:Hidx.
    + destruct (indexOf_Some _ _ _ Hidx) as [Hbuf Hnot].
      assert (Hc : countNewlines buf = S (countNewlines (drop (S i) buf))).
      { rewrite Hbuf at 1.
        by rewrite countNewlines_app, countNewlines_newline, countNewlines_none. }
      assert (Hlt : (num <? maxEntriesToImport)%nat = true)
        by (apply Nat.ltb_lt; lia).
      rewrite Hlt. replace (i + 1) with (S i) by lia.
      destruct (IH (drop (S i) buf) (lines ++ [toString (take i buf)]) (S num))
        as (ls & rest & Hrest & Hls & Hnl & Hn & Hrun).
      { rewrite length_drop. lia. }
      { lia. }
      exists (take i buf :: ls), rest. split_and!.
      * simpl. rewrite <- !app_assoc. simpl. by rewrite <- Hrest.
      * by constructor.
      * done.
      * simpl. lia.
      * rewrite Hrun. simpl. rewrite <- app_assoc. simpl. do 2 f_equal. lia.
    + apply indexOf_None in Hidx.
      exists [], buf. simpl. rewrite app_nil_r, Nat.add_0_r.
      split_and!; try done. by rewrite countNewlines_none.
Qed.

(** In every case the loop respects the limit, counts what it pushes and
    ends by its own condition. *)
Lemma takeLines_bounds : forall fuel buf lines num,
  length buf <= fuel ->
  num <= maxEntriesToImport ->
  exists rest ls,
    takeLines fuel buf lines num = (rest, lines ++ ls, num + length ls)
    /\ num + length ls <= maxEntriesToImport
    /\ (num + length ls < maxEntriesToImport -> ~ In Byte.x0a rest).
Proof.
  induction fuel as [|fuel IH]; intros buf lines num Hlen Hnum.
  - destruct buf; [|simpl in Hlen; lia].
    exists [], []. simpl. rewrite app_nil_r, Nat.add_0_r.
    split_and!; try done; by intros _ [].
  - simpl. destruct (indexOf Byte.x0a buf) as [i|] eqn:Hidx.
    + destruct (num <? maxEntriesToImport)%nat eqn:Hlt.
      * apply Nat.ltb_lt in Hlt.
        destruct (IH (drop (i + 1) buf) (lines ++ [toString (take i buf)]) (S num))
          as (rest & ls & Hrun & Hle & Hexit).
        { rewrite length_drop. lia. }
        { lia. }
        exists rest, (toString (take i buf) :: ls). rewrite Hrun. simpl.
        rewrite <- app_assoc. simpl. split_and!.
        -- do 2 f_equal. lia.
        -- lia.
        -- intros H. apply Hexit. lia.
      * apply Nat.ltb_ge in Hlt.
        exists buf, []. simpl. rewrite app_nil_r, Nat.add_0_r.
        split_and!; try done. lia.
    + apply indexOf_None in Hidx.
      exists buf, []. simpl. rewrite app_nil_r, Nat.add_0_r. by split_and!.
Qed.

End Loop.

Lemma countNewlines_terminated ls :
  Forall (fun l => ~ In Byte.x0a l) ls -> countNewlines (terminated ls) = length ls.
Proof.
  induction 1 as [|l ls Hl _ IH]; [reflexivity|].
  change (terminated (l :: ls)) with ((l ++ [Byte.x0a]) ++ terminated ls).
  rewrite !countNewlines_app, (countNewlines_none l Hl), IH. reflexivity.
Qed.

Lemma terminated_app a b : terminated (a ++ b) = terminated a ++ terminated b.
Proof. apply flat_map_app. Qed.

Section Stream.

Context (toString : Buffer -> string) (maxEntriesToImport : nat)
        (onProgress : bool) (chunkInterval : option N).

Local Abbreviation onData := (onData toString maxEntriesToImport onProgress chunkInterval).
Local Abbreviation feed := (feed toString maxEntriesToImport onProgress chunkInterval).

Lemma feed_snoc chunks chunk st :
  feed (chunks ++ [chunk]) st = onData chunk (feed chunks st).
Proof. unfold NdStrings.feed. by rewrite fold_left_app. Qed.

(** *** Below the limit *)

Local Abbreviation Collected := (Collected toString).

Lemma onData_below_limit st seen complete chunk :
  Collected st seen complete ->
  countNewlines (seen ++ chunk) < maxEntriesToImport ->
  exists complete', Collected (onData chunk st) (seen ++ chunk) complete'.
Proof.
  intros (Hseen & Hall & Hnl & Hlines & Hnum & Hp) Hcount.
  assert (Hc : countNewlines seen = length complete).
  { by rewrite Hseen, countNewlines_app, countNewlines_terminated,
      countNewlines_none, Nat.add_0_r. }
  rewrite countNewlines_app, Hc in Hcount.
  destruct (takeLines_all toString maxEntriesToImport
              (length (tempBuffer st ++ chunk)) (tempBuffer st ++ chunk)
              (lines st) (numEntriesImported st))
    as (ls & rest & Hbuf & Hls & Hrest & Hn & Hrun).
  { done. }
  { rewrite countNewlines_app, countNewlines_none, Hnum by done. simpl. lia. }
  rewrite countNewlines_app, countNewlines_none in Hn by done. simpl in Hn.
  unfold NdStrings.onData. rewrite Hrun.
  replace (maxEntriesToImport <=? numEntriesImported st + length ls)%nat
    with false by (symmetry; apply Nat.leb_gt; lia).
  exists (complete ++ ls). unfold NdStrings.Collected. simpl.
  split_and!; try done.
  - by rewrite Hseen, terminated_app, <- !app_assoc, <- Hbuf.
  - by apply Forall_app.
  - by rewrite Hlines, map_app.
  - rewrite length_app. lia.
Qed.

Lemma feed_below_limit : forall chunks st seen complete,
  Collected st seen complete ->
  countNewlines (seen ++ concat chunks) < maxEntriesToImport ->
  exists complete', Collected (feed chunks st) (seen ++ concat chunks) complete'.
Proof.
  induction chunks as [|chunk chunks IH]; intros st seen complete Hinv Hcount.
  - simpl. rewrite app_nil_r. eauto.
  - simpl in *. rewrite app_assoc in *.
    destruct (onData_below_limit st seen complete chunk Hinv) as (complete' & Hinv').
    { rewrite countNewlines_app in Hcount. lia. }
    eapply IH; eauto.
Qed.

End Stream.

(** X20.  When the stream holds fewer newlines than the limit, the result
    does not depend on how the stream was cut into chunks: the promise
    resolves with the lines of the whole stream, that is the byte runs
    between newlines, each decoded on its own, followed by what comes
    after the last newline when that is not empty. *)
Theorem lines_of_the_whole_stream
    toString maxEntriesToImport onProgress chunkInterval chunks :
  countNewlines (concat chunks) < maxEntriesToImport ->
  exists complete rest,
    concat chunks = terminated complete ++ rest
    /\ Forall (fun l => ~ In Byte.x0a l) complete
    /\ ~ In Byte.x0a rest
    /\ promise (streamToNdStrings toString maxEntriesToImport onProgress
                  chunkInterval chunks) = Resolved
    /\ lines (streamToNdStrings toString maxEntriesToImport onProgress
                chunkInterval chunks)
       = map toString (complete ++ lastLine rest).
Proof.
  intros Hcount.
  destruct (feed_below_limit toString maxEntriesToImport onProgress chunkInterval
              chunks initial [] [])
    as (complete & Hseen & Hall & Hnl & Hlines & Hnum & Hp).
  { unfold NdStrings.Collected. simpl. split_and!; try done. by intros []. }
  { exact Hcount. }
  simpl in Hseen. unfold streamToNdStrings, onEnd. simpl.
  set (st := feed _ _ _ _ _ _) in *.
  exists complete, (tempBuffer st). rewrite Hp. split_and!; try done.
  rewrite Hlines, map_app. destruct (tempBuffer st); simpl;
    by rewrite ?app_nil_r.
Qed.

Lemma lines_of_the_whole_stream_witness :
  exists complete rest,
    concat sampleChunks = terminated complete ++ rest
    /\ Forall (fun l => ~ In Byte.x0a l) complete
    /\ ~ In Byte.x0a rest
    /\ promise (streamToNdStrings asciiString 10 true None sampleChunks) = Resolved
    /\ lines (streamToNdStrings asciiString 10 true None sampleChunks)
       = map asciiString (complete ++ lastLine rest).
Proof.
  apply (lines_of_the_whole_stream asciiString 10 true None sampleChunks).
  vm_compute. lia.
Defined.

Example sampleChunks_lines :
  lines (streamToNdStrings asciiString 10 true None sampleChunks)
  = ["abc"; "def"; "gh"]%string.
Proof. vm_compute. reflexivity. Qed.

(** *** At the limit *)

Section Limit.

Context (toString : Buffer -> string) (maxEntriesToImport : nat)
        (onProgress : bool) (chunkInterval : option N).

Local Abbreviation onData := (onData toString maxEntriesToImport onProgress chunkInterval).
Local Abbreviation feed := (feed toString maxEntriesToImport onProgress chunkInterval).

Local Abbreviation Within := (Within maxEntriesToImport).

Lemma onData_within st chunk :
  Within st ->
  Within (onData chunk st)
  /\ (numEntriesImported (onData chunk st) = maxEntriesToImport ->
      promise (onData chunk st) = Resolved).
Proof.
  intros (Hlen & Hle & Hp & Hres).
  destruct (takeLines_bounds toString maxEntriesToImport
              (length (tempBuffer st ++ chunk)) (tempBuffer st ++ chunk)
              (lines st) (numEntriesImported st))
    as (rest & ls & Hrun & Hbound & _); [done | done |].
  unfold NdStrings.onData. rewrite Hrun.
  destruct (maxEntriesToImport <=? numEntriesImported st + length ls)%nat eqn:Hmax.
  - apply Nat.leb_le in Hmax. unfold NdStrings.Within. simpl.
    rewrite length_app. split_and!; try lia.
    + right. by destruct Hp as [-> | ->].
    + intros _. by destruct Hp as [-> | ->].
  - apply Nat.leb_gt in Hmax. unfold NdStrings.Within. simpl.
    rewrite length_app. split_and!; try lia; try done.
    intros Hr. specialize (Hres Hr). lia.
Qed.

Lemma feed_within : forall chunks st, Within st -> Within (feed chunks st).
Proof.
  induction chunks as [|chunk chunks IH]; intros st Hst; [exact Hst|].
  simpl. apply IH. by apply onData_within.
Qed.

End Limit.

(** X21.  However the stream is cut, the data events never take more than
    [maxEntriesToImport] lines, and [lines] holds one string per entry
    counted.  Once a chunk has arrived the promise is resolved exactly
    when the limit has been reached; until then it stays pending. *)
Theorem limit_is_respected
    toString maxEntriesToImport onProgress chunkInterval chunks :
  let st := feed toString maxEntriesToImport onProgress chunkInterval chunks initial in
  length (lines st) = numEntriesImported st
  /\ numEntriesImported st <= maxEntriesToImport
  /\ (promise st = Resolved
      <-> chunks <> [] /\ numEntriesImported st = maxEntriesToImport)
  /\ (promise st = Pending \/ promise st = Resolved).
Proof.
  assert (H0 : Within maxEntriesToImport initial).
  { unfold Within. simpl. split_and!; try done; [lia | by left]. }
  destruct chunks as [|chunk chunks _] using rev_ind.
  - simpl. split_and!; try done; [lia | | by left].
    split; [discriminate | by intros [[] _]].
  - rewrite feed_snoc.
    pose proof (feed_within toString maxEntriesToImport onProgress chunkInterval
                  chunks initial H0) as Hst.
    destruct (onData_within toString maxEntriesToImport onProgress chunkInterval
                _ chunk Hst) as ((Hlen & Hle & Hp & Hres) & Hmax).
    cbv zeta. split_and!; try done. split.
    + intros Hr. split; [by destruct chunks | by apply Hres].
    + intros [_ Hn]. by apply Hmax.
Qed.

Lemma limit_is_respected_witness :
  let st := feed asciiString 1 true None sampleChunks initial in
  length (lines st) = numEntriesImported st
  /\ numEntriesImported st <= 1
  /\ (promise st = Resolved <-> sampleChunks <> [] /\ numEntriesImported st = 1)
  /\ (promise st = Pending \/ promise st = Resolved).
Proof.
  apply (limit_is_respected asciiString 1 true None sampleChunks).
Defined.

(** X22.  When a data event reaches the limit it resolves the promise
    and returns without storing the leftover, so [tempBuffer] keeps the
    fragment of the event before, although that fragment has already gone
    into a line.  The end of the stream then pushes the stale fragment
    onto [lines], the array the promise was resolved with, which ends
    with one entry more than the limit. *)
Theorem stale_fragment_is_pushed_at_end
    toString maxEntriesToImport onProgress chunkInterval st chunk :
  length (lines st) = numEntriesImported st ->
  numEntriesImported st <= maxEntriesToImport ->
  tempBuffer st <> [] ->
  numEntriesImported
    (onData toString maxEntriesToImport onProgress chunkInterval chunk st)
  = maxEntriesToImport ->
  let st' := onData toString maxEntriesToImport onProgress chunkInterval chunk st in
  tempBuffer st' = tempBuffer st
  /\ lines (onEnd toString st') = lines st' ++ [toString (tempBuffer st)]
  /\ length (lines (onEnd toString st')) = S maxEntriesToImport.
Proof.
  intros Hlen Hle Htemp Hmax.
  destruct (takeLines_bounds toString maxEntriesToImport
              (length (tempBuffer st ++ chunk)) (tempBuffer st ++ chunk)
              (lines st) (numEntriesImported st))
    as (rest & ls & Hrun & Hbound & _); [done | done |].
  revert Hmax. unfold onData. rewrite Hrun.
  destruct (maxEntriesToImport <=? numEntriesImported st + length ls)%nat eqn:Hcmp;
    simpl; intros Hmax.
  - unfold onEnd. simpl.
    assert ((0 <? length (tempBuffer st))%nat = true) as ->
      by (apply Nat.ltb_lt; destruct (tempBuffer st); [done | simpl; lia]).
    split_and!; try done. rewrite !length_app. simpl. lia.
  - apply Nat.leb_gt in Hcmp. lia.
Qed.

Lemma stale_fragment_is_pushed_at_end_witness :
  let st := feed asciiString 1 true None [bytes "ab"] initial in
  let chunk := bytes "c" ++ Byte.x0a :: bytes "d" ++ [Byte.x0a] in
  let st' := onData asciiString 1 true None chunk st in
  tempBuffer st' = tempBuffer st
  /\ lines (onEnd asciiString st') = lines st' ++ [asciiString (tempBuffer st)]
  /\ length (lines (onEnd asciiString st')) = 2.
Proof.
  apply (stale_fragment_is_pushed_at_end asciiString 1 true None
           (feed asciiString 1 true None [bytes "ab"] initial)
           (bytes "c" ++ Byte.x0a :: bytes "d" ++ [Byte.x0a])).
  - reflexivity.
  - vm_compute. lia.
  - discriminate.
  - reflexivity.
Defined.

Example stale_fragment_sample :
  lines (streamToNdStrings asciiString 1 true None
           [bytes "ab"; bytes "c" ++ Byte.x0a :: bytes "d" ++ [Byte.x0a]])
  = ["abc"; "ab"]%string.
Proof. vm_compute. reflexivity. Qed.

(** *** Progress *)

Lemma last_cons_default (l : list N) y d : List.last (y :: l) d = List.last l y.
Proof.
  revert y d. induction l as [|z l IH]; intros y d; [reflexivity|].
  change (List.last (y :: z :: l) d) with (List.last (z :: l) d).
  by rewrite (IH z d), (IH z y).
Qed.

Lemma spaced_snoc d prev l x :
  spaced d prev (l ++ [x]) <-> spaced d prev l /\ (List.last l prev + d <= x)%N.
Proof.
  revert prev. induction l as [|y l IH]; intros prev.
  - simpl. tauto.
  - change (spaced d prev ((y :: l) ++ [x]))
      with ((prev + d <= y)%N /\ spaced d y (l ++ [x])).
    change (spaced d prev (y :: l)) with ((prev + d <= y)%N /\ spaced d y l).
    rewrite IH, last_cons_default. tauto.
Qed.

Section Progress.

Context (toString : Buffer -> string) (maxEntriesToImport : nat)
        (onProgress : bool) (chunkInterval : option N).

Local Abbreviation onData := (onData toString maxEntriesToImport onProgress chunkInterval).
Local Abbreviation feed := (feed toString maxEntriesToImport onProgress chunkInterval).
Local Abbreviation Reported := (Reported onProgress (interval chunkInterval)).

(** The bookkeeping of a data event does not depend on the lines. *)
Lemma onData_progress chunk st :
  bytesDownloaded (onData chunk st)
  = (bytesDownloaded st + N.of_nat (length chunk))%N
  /\ lastReportedByteCount (onData chunk st)
     = (if onProgress
           && (interval chunkInterval
               <=? bytesDownloaded st + N.of_nat (length chunk)
                   - lastReportedByteCount st)%N
        then bytesDownloaded st + N.of_nat (length chunk)
        else lastReportedByteCount st)%N
  /\ progressReports (onData chunk st)
     = (if onProgress
           && (interval chunkInterval
               <=? bytesDownloaded st + N.of_nat (length chunk)
                   - lastReportedByteCount st)%N
        then progressReports st ++ [(bytesDownloaded st + N.of_nat (length chunk))%N]
        else progressReports st).
Proof.
  unfold NdStrings.onData.
  destruct (takeLines _ _ _ _ _ _) as [[rest ls] num].
  destruct (maxEntriesToImport <=? num)%nat; by split_and!.
Qed.

Lemma onData_reported chunk st : Reported st -> Reported (onData chunk st).
Proof.
  intros (Hsp & Hlast & Hle & Hoff & Hon).
  destruct (onData_progress chunk st) as (Hb & Hl & Hr).
  unfold NdStrings.Reported. rewrite Hb, Hl, Hr.
  destruct onProgress; simpl.
  - destruct (N.leb_spec (interval chunkInterval)
                (bytesDownloaded st + N.of_nat (length chunk)
                 - lastReportedByteCount st)) as [Hge | Hlt].
    + split_and!; try done.
      * apply spaced_snoc. split; [done|].
        rewrite <- Hlast. lia.
      * by rewrite last_last.
      * intros _. by right.
    + split_and!; try done; [lia|]. intros _. by left.
  - split_and!; try done. lia.
Qed.

Lemma feed_reported : forall chunks st, Reported st -> Reported (feed chunks st).
Proof.
  induction chunks as [|chunk chunks IH]; intros st Hst; [exact Hst|].
  simpl. apply IH. by apply onData_reported.
Qed.

Lemma feed_bytes : forall chunks st,
  bytesDownloaded (feed chunks st)
  = (bytesDownloaded st + N.of_nat (length (concat chunks)))%N.
Proof.
  induction chunks as [|chunk chunks IH]; intros st; simpl; [lia|].
  rewrite IH. destruct (onData_progress chunk st) as (-> & _).
  rewrite length_app. lia.
Qed.

End Progress.

(** X23.  The data handler counts every byte of the stream, also after
    the promise has been resolved.  The values reported to [onProgress]
    are at least one interval apart, the first at least one interval
    above zero; without a callback nothing is reported; and with a
    callback and a positive interval, less than one interval of bytes is
    unreported after every chunk. *)
Theorem progress_keeps_pace
    toString maxEntriesToImport onProgress chunkInterval chunks :
  let st := feed toString maxEntriesToImport onProgress chunkInterval chunks initial in
  bytesDownloaded st = N.of_nat (length (concat chunks))
  /\ spaced (interval chunkInterval) 0 (progressReports st)
  /\ (List.last (progressReports st) 0 <= bytesDownloaded st)%N
  /\ (onProgress = false -> progressReports st = [])
  /\ (onProgress = true -> (0 < interval chunkInterval)%N ->
      (bytesDownloaded st - List.last (progressReports st) 0
       < interval chunkInterval)%N).
Proof.
  cbv zeta.
  destruct (feed_reported toString maxEntriesToImport onProgress chunkInterval
              chunks initial) as (Hsp & Hlast & Hle & Hoff & Hon).
  { unfold Reported. simpl. split_and!; try done. intros _. by right. }
  rewrite <- Hlast. split_and!; try done.
  - by rewrite feed_bytes.
  - intros Hp Hpos. destruct (Hon Hp) as [Hlt | ->]; [exact Hlt | lia].
Qed.

Lemma progress_keeps_pace_witness :
  let st := feed asciiString 10 true (Some 3%N) sampleChunks initial in
  bytesDownloaded st = N.of_nat (length (concat sampleChunks))
  /\ spaced (interval (Some 3%N)) 0 (progressReports st)
  /\ (List.last (progressReports st) 0 <= bytesDownloaded st)%N
  /\ (true = false -> progressReports st = [])
  /\ (true = true -> (0 < interval (Some 3%N))%N ->
      (bytesDownloaded st - List.last (progressReports st) 0
       < interval (Some 3%N))%N).
Proof.
  apply (progress_keeps_pace asciiString 10 true (Some 3%N) sampleChunks).
Defined.

Example progress_sample :
  progressReports
    (feed asciiString 10 true (Some 3%N)
       [bytes "ab"; bytes "cd"; bytes "e"; bytes "fghijk"; bytes "l"] initial)
  = [4%N; 11%N].
Proof. vm_compute. reflexivity. Qed.

End NdStringsFacts.
